(** * SubnetMap: a subnet-keyed lookup table (akvorado, common/helpers)

  This development embeds [SubnetMap.Lookup], [SubnetMapUnmarshallerHook]
  and [SubnetMap.MarshalYAML] together with the parts of their
  dependencies they rely on:

  - [net]: the functions of Go's standard [net] package that the code
    calls ([ParseCIDR], [ParseIP], [IP.To4], [IP.To16], [IP.Mask],
    [IP.String], [IPMask.Size], [IPNet.String]), following the sources of
    the Go release the code was written for (1.18, the first one with
    generics);
  - [patricia]: the prefix tree of github.com/kentik/patricia, as far as
    the three functions use it ([Set], [FindDeepestTag], [Iterate]);
  - [reflect]: the dynamic values the decode hook inspects.

  It also embeds [migrateDatabase] and [getHTTPBaseURL] of the ClickHouse
  component of the orchestrator (orchestrator/clickhouse), with
  [net.SplitHostPort] and [net.JoinHostPort].

  Go strings are byte strings: they are [string]s here; bytes and Go
  [int]s are [Z]; slices are lists; Go maps are [gmap]s, or the list of
  their entries in iteration order where the code ranges over them. *)

From Stdlib Require Import ZArith Ascii String.
From stdpp Require Import gmap strings list fin_maps.

Local Open Scope Z_scope.
Set Warnings "-register-all".

(** ** Strings as byte sequences *)

Module str.

(** [s[i]] as a number. *)
Definition code (c : ascii) : Z := Z.of_N (N_of_ascii c).

(** The byte [b] as a character. *)
Definition chr (b : Z) : ascii := ascii_of_N (Z.to_N b).

(** [s[n:]] *)
Fixpoint drop (n : nat) (s : string) : string :=
  match n, s with
  | O, _ => s
  | S n', String _ s' => drop n' s'
  | S _, EmptyString => EmptyString
  end.

(** [s[i]], for [i < len(s)] *)
Fixpoint at_ (s : string) (i : nat) : option ascii :=
  match s, i with
  | EmptyString, _ => None
  | String c _, O => Some c
  | String _ s', S i' => at_ s' i'
  end.

(** [s[i] == c], false out of range. *)
Definition at_is (s : string) (i : nat) (c : ascii) : bool :=
  match at_ s i with
  | Some c' => Ascii.eqb c' c
  | None => false
  end.

(** [bytealg.IndexByteString(s, c)]: the prefix before the first [c] and
    the suffix after it; [None] when [c] does not occur (index -1). *)
Fixpoint cut (c : ascii) (s : string) : option (string * string) :=
  match s with
  | EmptyString => None
  | String c' s' =>
      if Ascii.eqb c' c then Some (EmptyString, s')
      else match cut c s' with
           | Some (a, b) => Some (String c' a, b)
           | None => None
           end
  end.

End str.

(** ** Go's [net] package: addresses, masks, parsing and printing *)

Module net.

Definition IPv4len : nat := 4.
Definition IPv6len : nat := 16.

(** [type IP []byte], [type IPMask []byte] *)
Abbreviation IP := (list Z).
Abbreviation IPMask := (list Z).

(** [type IPNet struct { IP IP; Mask IPMask }] *)
Record IPNet := mkIPNet { ipnet_IP : IP; ipnet_Mask : IPMask }.

(** Bigger than we need, not too big to worry about overflow. *)
Definition big : Z := 0xFFFFFF.

(** *** Numbers in strings (net/parse.go) *)

Definition is_dec (c : ascii) : bool :=
  (48 <=? str.code c) && (str.code c <=? 57).
Definition is_hex_lower (c : ascii) : bool :=
  (97 <=? str.code c) && (str.code c <=? 102).
Definition is_hex_upper (c : ascii) : bool :=
  (65 <=? str.code c) && (str.code c <=? 70).

(** The loop of [dtoi], entered at index [i] with [n] read so far. *)
Fixpoint dtoi_from (s : string) (n : Z) (i : nat) : Z * nat * bool :=
  match s with
  | String c s' =>
      if is_dec c then
        let n' := n * 10 + (str.code c - 48) in
        if big <=? n' then (big, i, false) else dtoi_from s' n' (S i)
      else if (i =? 0)%nat then (0, 0%nat, false) else (n, i, true)
  | EmptyString => if (i =? 0)%nat then (0, 0%nat, false) else (n, i, true)
  end.

(** Decimal to integer. Returns number, characters consumed, success. *)
Definition dtoi (s : string) : Z * nat * bool := dtoi_from s 0 0%nat.

(** The loop of [xtoi]. *)
Fixpoint xtoi_from (s : string) (n : Z) (i : nat) : Z * nat * bool :=
  let stop := if (i =? 0)%nat then (0, i, false) else (n, i, true) in
  match s with
  | String c s' =>
      let digit :=
        if is_dec c then Some (str.code c - 48)
        else if is_hex_lower c then Some (str.code c - 97 + 10)
        else if is_hex_upper c then Some (str.code c - 65 + 10)
        else None in
      match digit with
      | Some d =>
          let n' := n * 16 + d in
          if big <=? n' then (0, i, false) else xtoi_from s' n' (S i)
      | None => stop
      end
  | EmptyString => stop
  end.

(** Hexadecimal to integer. Returns number, characters consumed, success. *)
Definition xtoi (s : string) : Z * nat * bool := xtoi_from s 0 0%nat.

(** Decimal digits of [v], most significant first; [fuel] bounds their
    number. *)
Fixpoint uitoa_digits (fuel : nat) (v : Z) (acc : string) : string :=
  match fuel with
  | O => acc
  | S fuel' =>
      let acc' := String (str.chr (48 + v mod 10)) acc in
      if v <? 10 then acc' else uitoa_digits fuel' (v / 10) acc'
  end.

(** [uitoa(val)]: the decimal form of an unsigned integer (also what
    [fmt]'s [%d] prints for a non-negative [int]). *)
Definition uitoa (v : Z) : string :=
  if v =? 0 then "0"%string else uitoa_digits 20 v EmptyString.

(** [ubtoa]: the decimal form of a byte, as [IP.String] writes it. *)
Definition ubtoa (v : Z) : string :=
  if v <? 10 then String (str.chr (v + 48)) EmptyString
  else if v <? 100 then
    String (str.chr (v / 10 + 48)) (String (str.chr (v mod 10 + 48)) EmptyString)
  else
    String (str.chr (v / 100 + 48))
      (String (str.chr ((v / 10) mod 10 + 48))
         (String (str.chr (v mod 10 + 48)) EmptyString)).

Definition hexDigit (v : Z) : ascii :=
  if v <? 10 then str.chr (48 + v) else str.chr (97 + (v - 10)).

(** The loop of [appendHex], for [j] from [k - 1] down to 0. *)
Fixpoint appendHex_from (k : nat) (i : Z) : string :=
  match k with
  | O => EmptyString
  | S j =>
      let v := Z.shiftr i (4 * Z.of_nat j) in
      if 0 <? v then String (hexDigit (Z.land v 0xf)) (appendHex_from j i)
      else appendHex_from j i
  end.

(** Convert [i] to a hexadecimal string. Leading zeros are not printed. *)
Definition appendHex (i : Z) : string :=
  if i =? 0 then "0"%string else appendHex_from 8 i.

(** [hexString(b)]: two digits for every byte. *)
Definition hexString (b : list Z) : string :=
  foldr (fun x s => String (hexDigit (Z.shiftr x 4))
                      (String (hexDigit (Z.land x 0xf)) s)) EmptyString b.

(** *** Addresses and masks (net/ip.go)

    A nil slice is the empty list: the functions below return [[]] where
    the Go code returns [nil], and none of them builds an empty slice that
    is not nil. *)

(** [p[i]], with Go's [int] index; only used within bounds. *)
Definition at_ (p : list Z) (i : Z) : Z := nth (Z.to_nat i) p 0.

Definition v4InV6Prefix : list Z := [0; 0; 0; 0; 0; 0; 0; 0; 0; 0; 0xff; 0xff].

(** [IPv4(a, b, c, d)]: the 16-byte form of the IPv4 address a.b.c.d. *)
Definition IPv4 (a b c d : Z) : IP := v4InV6Prefix ++ [a; b; c; d].

Definition isZeros (p : IP) : bool := forallb (Z.eqb 0) p.

Definition allFF (b : list Z) : bool := forallb (Z.eqb 0xff) b.

(** [ip.To4()]: the 4-byte form of an IPv4 address, [nil] otherwise. *)
Definition To4 (ip : IP) : IP :=
  if (length ip =? IPv4len)%nat then ip
  else if (length ip =? IPv6len)%nat && isZeros (take 10 ip)
          && (at_ ip 10 =? 0xff) && (at_ ip 11 =? 0xff)
  then take 4 (drop 12 ip)
  else [].

(** [ip.To16()]: the 16-byte form, [nil] if [ip] has another length. *)
Definition To16 (ip : IP) : IP :=
  if (length ip =? IPv4len)%nat then IPv4 (at_ ip 0) (at_ ip 1) (at_ ip 2) (at_ ip 3)
  else if (length ip =? IPv6len)%nat then ip
  else [].

(** The loop of [CIDRMask] over the [l] bytes of the mask, [n] ones left. *)
Fixpoint CIDRMask_loop (l : nat) (n : Z) : IPMask :=
  match l with
  | O => []
  | S l' =>
      if 8 <=? n then 0xff :: CIDRMask_loop l' (n - 8)
      else Z.lxor 0xff (Z.shiftr 0xff n) :: CIDRMask_loop l' 0
  end.

(** [CIDRMask(ones, bits)]: [ones] 1 bits followed by 0s up to [bits]. *)
Definition CIDRMask (ones bits : Z) : IPMask :=
  if negb (bits =? 8 * Z.of_nat IPv4len) && negb (bits =? 8 * Z.of_nat IPv6len) then []
  else if (ones <? 0) || (bits <? ones) then []
  else CIDRMask_loop (Z.to_nat (bits / 8)) ones.

(** [ip.Mask(mask)] *)
Definition Mask (ip : IP) (mask : IPMask) : IP :=
  let mask :=
    if (length mask =? IPv6len)%nat && (length ip =? IPv4len)%nat && allFF (take 12 mask)
    then drop 12 mask else mask in
  let ip :=
    if (length mask =? IPv4len)%nat && (length ip =? IPv6len)%nat
       && bool_decide (take 12 ip = v4InV6Prefix)
    then drop 12 ip else ip in
  if negb (length ip =? length mask)%nat then []
  else zip_with Z.land ip mask.

(** [for v&0x80 != 0 { n++; v <<= 1 }] on a byte [v]. *)
Fixpoint count_ones (fuel : nat) (v n : Z) : Z * Z :=
  match fuel with
  | O => (v, n)
  | S fuel' =>
      if Z.land v 0x80 =? 0 then (v, n)
      else count_ones fuel' (Z.shiftl v 1 mod 256) (n + 1)
  end.

(** The loop of [simpleMaskLength]. *)
Fixpoint simpleMaskLength_from (mask : IPMask) (n : Z) : Z :=
  match mask with
  | [] => n
  | v :: rest =>
      if v =? 0xff then simpleMaskLength_from rest (n + 8)
      else
        let '(v', n') := count_ones 8 v n in
        if negb (v' =? 0) then -1
        else if isZeros rest then n' else -1
  end.

(** If [mask] is a sequence of 1 bits followed by 0 bits, the number of
    1 bits; -1 otherwise. *)
Definition simpleMaskLength (mask : IPMask) : Z := simpleMaskLength_from mask 0.

(** [m.Size()]: the number of leading ones and total bits, (0, 0) if the
    mask is not in canonical form. *)
Definition Size (m : IPMask) : Z * Z :=
  let ones := simpleMaskLength m in
  if ones =? -1 then (0, 0) else (ones, Z.of_nat (length m) * 8).

(** *** Printing ([IP.String], [IPMask.String], [IPNet.String]) *)

(** [for j < IPv6len && p[j] == 0 && p[j+1] == 0 { j += 2 }] *)
Fixpoint zeros_end (fuel : nat) (p : IP) (j : Z) : Z :=
  match fuel with
  | O => j
  | S fuel' =>
      if (j <? Z.of_nat IPv6len) && (at_ p j =? 0) && (at_ p (j + 1) =? 0)
      then zeros_end fuel' p (j + 2) else j
  end.

(** Find longest run of zeros: the outer loop, at index [i]. *)
Fixpoint longest_zeros (fuel : nat) (p : IP) (i e0 e1 : Z) : Z * Z :=
  match fuel with
  | O => (e0, e1)
  | S fuel' =>
      if negb (i <? Z.of_nat IPv6len) then (e0, e1)
      else
        let j := zeros_end 8 p i in
        if (i <? j) && (e1 - e0 <? j - i)
        then longest_zeros fuel' p (j + 2) i j
        else longest_zeros fuel' p (i + 2) e0 e1
  end.

(** Print with possible [::] in place of run of zeros: the loop, at
    index [i], [b] being the output so far. *)
Fixpoint print6 (fuel : nat) (p : IP) (e0 e1 i : Z) (b : string) : string :=
  match fuel with
  | O => b
  | S fuel' =>
      if negb (i <? Z.of_nat IPv6len) then b
      else if i =? e0 then
        let b := b +:+ "::" in
        let i := e1 in
        if Z.of_nat IPv6len <=? i then b
        else
          print6 fuel' p e0 e1 (i + 2)
            (b +:+ appendHex (Z.lor (Z.shiftl (at_ p i) 8) (at_ p (i + 1))))
      else
        let b := if 0 <? i then b +:+ ":" else b in
        print6 fuel' p e0 e1 (i + 2)
          (b +:+ appendHex (Z.lor (Z.shiftl (at_ p i) 8) (at_ p (i + 1))))
  end.

(** The IPv6 branch of [IP.String]. *)
Definition string6 (p : IP) : string :=
  let '(e0, e1) := longest_zeros 8 p 0 (-1) (-1) in
  (* The symbol "::" MUST NOT be used to shorten just one 16 bit 0 field. *)
  let '(e0, e1) := if e1 - e0 <=? 2 then (-1, -1) else (e0, e1) in
  print6 8 p e0 e1 0 EmptyString.

(** The dotted form of the 4-byte address [p4]. *)
Definition string4 (p4 : IP) : string :=
  ubtoa (at_ p4 0) +:+ "." +:+ ubtoa (at_ p4 1) +:+ "."
  +:+ ubtoa (at_ p4 2) +:+ "." +:+ ubtoa (at_ p4 3).

(** [ip.String()] *)
Definition IP_String (ip : IP) : string :=
  if (length ip =? 0)%nat then "<nil>"%string
  else
    (* If IPv4, use dotted notation. *)
    let p4 := To4 ip in
    if (length p4 =? IPv4len)%nat then string4 p4
    else if negb (length ip =? IPv6len)%nat then "?" +:+ hexString ip
    else string6 ip.

(** [m.String()] *)
Definition IPMask_String (m : IPMask) : string :=
  if (length m =? 0)%nat then "<nil>"%string else hexString m.

(** [networkNumberAndMask(n)] *)
Definition networkNumberAndMask (n : IPNet) : IP * IPMask :=
  let ip4 := To4 (ipnet_IP n) in
  let ip := if bool_decide (ip4 = []) then ipnet_IP n else ip4 in
  if bool_decide (ip4 = []) && negb (length ip =? IPv6len)%nat then ([], [])
  else
    let m := ipnet_Mask n in
    if (length m =? IPv4len)%nat then
      if negb (length ip =? IPv4len)%nat then ([], []) else (ip, m)
    else if (length m =? IPv6len)%nat then
      if (length ip =? IPv4len)%nat then (ip, drop 12 m) else (ip, m)
    else ([], []).

(** [n.String()]: the CIDR notation of [n], like "192.0.2.0/24" or
    "2001:db8::/48". *)
Definition IPNet_String (n : IPNet) : string :=
  let '(nn, m) := networkNumberAndMask n in
  if bool_decide (nn = []) || bool_decide (m = []) then "<nil>"%string
  else
    let l := simpleMaskLength m in
    if l =? -1 then IP_String nn +:+ "/" +:+ IPMask_String m
    else IP_String nn +:+ "/" +:+ uitoa l.

(** *** Parsing ([parseIPv4], [parseIPv6], [ParseIP], [ParseCIDR]) *)

(** The loop of [parseIPv4], [k] octets to go, [p] the octets read. *)
Fixpoint parseIPv4_loop (k : nat) (s : string) (p : list Z) : IP :=
  match k with
  | O =>
      if (String.length s =? 0)%nat
      then IPv4 (at_ p 0) (at_ p 1) (at_ p 2) (at_ p 3) else []
  | S k' =>
      if (String.length s =? 0)%nat then []  (* Missing octets. *)
      else
        let i := length p in
        if (0 <? i)%nat && negb (str.at_is s 0 ".") then []
        else
          let s := if (0 <? i)%nat then str.drop 1 s else s in
          let '(n, c, ok) := dtoi s in
          if negb ok || (0xFF <? n) then []
          else if (1 <? c)%nat && str.at_is s 0 "0" then
            (* Reject non-zero components with leading zeroes. *)
            []
          else parseIPv4_loop k' (str.drop c s) (p ++ [n])
  end.

(** Parse IPv4 address (d.d.d.d). *)
Definition parseIPv4 (s : string) : IP := parseIPv4_loop 4 s [].

(** The loop of [parseIPv6]: [ip] holds the bytes written so far (the
    index [i] of the Go code is its length), [ellipsis] the position of
    the ellipsis, -1 if there is none. The result is the state the loop
    is left in, or [None] where the Go code returns [nil]. *)
Fixpoint parseIPv6_loop (fuel : nat) (s : string) (ellipsis : Z) (ip : list Z)
  : option (list Z * string * Z) :=
  match fuel with
  | O => Some (ip, s, ellipsis)
  | S fuel' =>
      let i := Z.of_nat (length ip) in
      if negb (i <? Z.of_nat IPv6len) then Some (ip, s, ellipsis)
      else
        (* Hex number. *)
        let '(n, c, ok) := xtoi s in
        if negb ok || (0xFFFF <? n) then None
        else if (c <? String.length s)%nat && str.at_is s c "." then
          (* If followed by dot, might be in trailing IPv4. *)
          if (ellipsis <? 0) && negb (i =? Z.of_nat IPv6len - Z.of_nat IPv4len)
          then None  (* Not the right place. *)
          else if Z.of_nat IPv6len <? i + Z.of_nat IPv4len
          then None  (* Not enough room. *)
          else
            let ip4 := parseIPv4 s in
            if bool_decide (ip4 = []) then None
            else Some (ip ++ [at_ ip4 12; at_ ip4 13; at_ ip4 14; at_ ip4 15],
                       EmptyString, ellipsis)
        else
          (* Save this 16-bit chunk. *)
          let ip := ip ++ [Z.shiftr n 8 mod 256; n mod 256] in
          (* Stop at end of string. *)
          let s := str.drop c s in
          if (String.length s =? 0)%nat then Some (ip, s, ellipsis)
          else if negb (str.at_is s 0 ":") || (String.length s =? 1)%nat
          then None  (* Otherwise must be followed by colon and more. *)
          else
            let s := str.drop 1 s in
            (* Look for ellipsis. *)
            if str.at_is s 0 ":" then
              if 0 <=? ellipsis then None  (* already have one *)
              else
                let ellipsis := Z.of_nat (length ip) in
                let s := str.drop 1 s in
                if (String.length s =? 0)%nat
                then Some (ip, s, ellipsis)  (* can be at end *)
                else parseIPv6_loop fuel' s ellipsis ip
            else parseIPv6_loop fuel' s ellipsis ip
  end.

(** [parseIPv6] parses [s] as a literal IPv6 address described in RFC 4291
    and RFC 5952. The Go code writes into a 16-byte array and expands the
    ellipsis in place by moving the bytes after it to the end. *)
Definition parseIPv6 (s : string) : IP :=
  (* Might have leading ellipsis *)
  let lead := (2 <=? String.length s)%nat && str.at_is s 0 ":" && str.at_is s 1 ":" in
  let ellipsis := if lead then 0 else -1 in
  let s := if lead then str.drop 2 s else s in
  (* Might be only ellipsis *)
  if lead && (String.length s =? 0)%nat then replicate IPv6len 0
  else
    match parseIPv6_loop 8 s ellipsis [] with
    | None => []
    | Some (ip, s, ellipsis) =>
        (* Must have used entire string. *)
        if negb (String.length s =? 0)%nat then []
        else
          let i := length ip in
          (* If didn't parse enough, expand ellipsis. *)
          if (i <? IPv6len)%nat then
            if ellipsis <? 0 then []
            else
              let e := Z.to_nat ellipsis in
              take e ip ++ replicate (IPv6len - i) 0 ++ drop e ip
          else if 0 <=? ellipsis then
            (* Ellipsis must represent at least one 0 group. *)
            []
          else ip
    end.

(** The first of '.' and ':' in [s] decides how [ParseIP] reads it. *)
Fixpoint first_sep (s : string) : option ascii :=
  match s with
  | EmptyString => None
  | String c s' =>
      if Ascii.eqb c "." then Some c
      else if Ascii.eqb c ":" then Some c
      else first_sep s'
  end.

(** [ParseIP(s)]: always a 16-byte address, or [nil]. *)
Definition ParseIP (s : string) : IP :=
  match first_sep s with
  | Some "."%char => parseIPv4 s
  | Some _ => parseIPv6 s
  | None => []
  end.

(** [&ParseError{Type: typ, Text: text}] *)
Record ParseError := mkParseError { pe_Type : string; pe_Text : string }.

(** [ParseCIDR(s)] parses [s] as a CIDR notation IP address and prefix
    length, like "192.0.2.0/24" or "2001:db8::/32". It returns the address
    and the network implied by the address and prefix length. *)
Definition ParseCIDR (s : string) : IP * IPNet + ParseError :=
  let err := inr (mkParseError "CIDR address" s) in
  match str.cut "/" s with
  | None => err
  | Some (addr, mask) =>
      let ip4 := parseIPv4 addr in
      let iplen := if bool_decide (ip4 = []) then IPv6len else IPv4len in
      let ip := if bool_decide (ip4 = []) then parseIPv6 addr else ip4 in
      let '(n, i, ok) := dtoi mask in
      if bool_decide (ip = []) || negb ok || negb (i =? String.length mask)%nat
         || (n <? 0) || (8 * Z.of_nat iplen <? n)
      then err
      else
        let m := CIDRMask n (8 * Z.of_nat iplen) in
        inl (ip, mkIPNet (Mask ip m) m)
  end.

End net.

(** ** The prefix tree of github.com/kentik/patricia

    Modelled from the spec: the tree is a third-party package and not part
    of the repository. The spec asks of it the contract of section 4.1 and
    the invariants of section 3 (a binary trie over 128-bit keys, one
    value per distinct prefix, inserting an existing prefix overwrites,
    deepest match on lookup); the tree below is the plain binary trie
    with that behaviour, without the path compression of the package. *)

Module patricia.

(** [IPv6Address]: an address and the length of its prefix. The package
    keeps the 16 bytes of the address in two [uint64]; they are kept as
    the bytes here. *)
Record IPv6Address := mkIPv6Address { Address : list Z; Length : Z }.

(** [NewIPv6Address(address, length)] reads the first 16 bytes of
    [address]; on a shorter slice (a nil one too) the Go code indexes out
    of range and panics: [None]. *)
Definition NewIPv6Address (address : list Z) (length : Z) : option IPv6Address :=
  if (Datatypes.length address <? 16)%nat then None
  else Some (mkIPv6Address (take 16 address) length).

(** The bits of a byte, most significant first. *)
Definition byte_bits (b : Z) : list bool :=
  map (Z.testbit b) [7; 6; 5; 4; 3; 2; 1; 0].

(** The bits of a sequence of bytes, in network order. *)
Definition bits_of_bytes (p : list Z) : list bool := concat (map byte_bits p).

(** The number whose binary digits are [bs], after [acc]. *)
Fixpoint Z_of_bits (bs : list bool) (acc : Z) : Z :=
  match bs with
  | [] => acc
  | b :: bs' => Z_of_bits bs' (2 * acc + Z.b2z b)
  end.

(** The [n] bytes that hold the bits [bs]. *)
Fixpoint bytes_of_bits (n : nat) (bs : list bool) : list Z :=
  match n with
  | O => []
  | S n' => Z_of_bits (take 8 bs) 0 :: bytes_of_bits n' (drop 8 bs)
  end.

(** The key of an address in the tree: its first [Length] bits. *)
Definition key_of (a : IPv6Address) : list bool :=
  take (Z.to_nat (Length a)) (bits_of_bytes (Address a)).

(** The address of the node at the end of the path [p]: the bits of the
    path followed by zeros, and the length of the path. *)
Definition address_of (p : list bool) : IPv6Address :=
  mkIPv6Address (bytes_of_bits 16 (p ++ replicate (128 - length p) false))
    (Z.of_nat (length p)).

(** [a.String()]: the CIDR notation of the address, as [net.IPNet]
    prints the network with these bytes and a mask of [Length] ones. An
    IPv4-mapped prefix of 96 bits or more is therefore printed as an IPv4
    network: the test of the repository expects 203.0.113.0/24 back for
    the prefix it stored as ::ffff:203.0.113.0 with length 120. *)
Definition IPv6Address_String (a : IPv6Address) : string :=
  net.IPNet_String (net.mkIPNet (Address a) (net.CIDRMask (Length a) 128)).

Section Tree.
Context {V : Type}.

(** [TreeV6[V]]: a node may carry a tag and has a subtree for each value
    of the next bit. The hook fills the tree with [Set] only, so a node
    never carries more than one tag. *)
Inductive TreeV6 :=
| Empty
| Node (tag : option V) (zero one : TreeV6).

(** [NewTreeV6[V]()] *)
Definition NewTreeV6 : TreeV6 := Empty.

(** The tag, and the two subtrees of a tree. *)
Definition tag_of (t : TreeV6) : option V :=
  match t with Empty => None | Node tag _ _ => tag end.
Definition child (b : bool) (t : TreeV6) : TreeV6 :=
  match t with
  | Empty => Empty
  | Node _ zero one => if b then one else zero
  end.

(** [Set] on the key of the address: the node at the end of the path gets
    the tag, in place of the one it had. *)
Fixpoint set_key (p : list bool) (v : V) (t : TreeV6) : TreeV6 :=
  match p with
  | [] => Node (Some v) (child false t) (child true t)
  | b :: p' =>
      if b then Node (tag_of t) (child false t) (set_key p' v (child true t))
      else Node (tag_of t) (set_key p' v (child false t)) (child true t)
  end.

(** [t.Set(address, tag)] *)
Definition Set_ (t : TreeV6) (address : IPv6Address) (tag : V) : TreeV6 :=
  set_key (key_of address) tag t.

(** The tag of the deepest node with a tag on the path [p], [best] being
    the one found above. *)
Fixpoint find_key (p : list bool) (t : TreeV6) (best : option V) : option V :=
  match t with
  | Empty => best
  | Node tag zero one =>
      let best := match tag with Some v => Some v | None => best end in
      match p with
      | [] => best
      | b :: p' => find_key p' (if b then one else zero) best
      end
  end.

(** [t.FindDeepestTag(address)]: whether a node on the path of the address
    has a tag, and the tag of the deepest one; the zero value if none. *)
Definition FindDeepestTag (zero : V) (t : TreeV6) (address : IPv6Address) : bool * V :=
  match find_key (key_of address) t None with
  | Some v => (true, v)
  | None => (false, zero)
  end.

(** The nodes with a tag, with their paths (given in reverse in [rp]). *)
Fixpoint nodes (rp : list bool) (t : TreeV6) : list (list bool * V) :=
  match t with
  | Empty => []
  | Node tag zero one =>
      match tag with Some v => [(rev rp, v)] | None => [] end
      ++ nodes (false :: rp) zero ++ nodes (true :: rp) one
  end.

(** [t.Iterate()], run to its end: for each node with tags, what
    [iter.Address()] and [iter.Tags()] return there. *)
Definition Iterate (t : TreeV6) : list (IPv6Address * list V) :=
  map (fun '(p, v) => (address_of p, [v])) (nodes [] t).

End Tree.
Arguments TreeV6 : clear implicits.

End patricia.

(** ** Dynamic values

    What the hook receives as [from]: a value of the generic decoder,
    seen through package [reflect]. *)

Module reflect.

Inductive Kind := Invalid | Bool | Int | String | Map | Interface.

#[export] Instance Kind_eq_dec : EqDecision Kind.
Proof. solve_decision. Defined.

(** A [reflect.Value]. A map is given by its entries in the order
    [MapRange] yields them; [VIface] is a value of interface type, as the
    keys and elements of a [map[interface{}]interface{}] are. *)
Inductive Value :=
| VNil
| VBool (b : bool)
| VInt (n : Z)
| VString (s : string)
| VNilMap
| VMap (entries : list (Value * Value))
| VIface (v : Value).

Definition kind (v : Value) : Kind :=
  match v with
  | VNil => Invalid
  | VBool _ => Bool
  | VInt _ => Int
  | VString _ => String
  | VNilMap | VMap _ => Map
  | VIface _ => Interface
  end.

(** [v.Elem()] on an interface: the value it holds. *)
Definition Elem (v : Value) : Value :=
  match v with VIface x => x | _ => v end.

(** [v.MapRange()], run to its end. *)
Definition MapRange (v : Value) : list (Value * Value) :=
  match v with VMap entries => entries | _ => [] end.

(** [v.Interface()]: the value itself, out of its interface if it is in
    one. *)
Definition Interface_ (v : Value) : Value := Elem v.

End reflect.

(** ** Package helpers: [SubnetMap] *)

Module helpers.
Import reflect.

(** What the hook needs to know of the type parameter [V]. The sub-decoder
    is built by [GetMapStructureDecoderConfig], which is not among the
    sources: [decode] stands for what it makes of one element of the map
    ([None]: the element is refused), for the [V] at hand. *)
Class Decodable (V : Type) := {
  (** [var zero V] *)
  zero : V;
  (** [from.Type() == reflect.TypeOf(zero)] *)
  is_V : Value -> bool;
  (** [from.Type().ConvertibleTo(reflect.TypeOf(zero))] *)
  convertible_to_V : Value -> bool;
  (** decoding of one element into a [V] by the sub-decoder *)
  decode : Value -> option V;
  (** a [V], as a dynamic value *)
  encode : V -> Value;
  (** the type of such a value is [V], and it is not in an interface *)
  is_V_encode : forall v, is_V (encode v) = true;
  Interface_encode : forall v, Interface_ (encode v) = encode v;
  (** a value that is a [V] already is decoded to itself *)
  decode_encode : forall v, decode (encode v) = Some v
}.

(** The errors of the hook. *)
Inductive error :=
| ErrKeyNotString (i : nat) (k : Kind)  (* "key %d is not a string (%s)" *)
| ErrParseCIDR (e : net.ParseError)     (* the error of net.ParseCIDR *)
| ErrInvalidNetmask (i : nat)           (* "key %d has an invalid netmask" *)
| ErrUnableToDecode.                    (* "unable to decode %q: %w" *)

Section SubnetMap.
Context {V : Type} `{!Decodable V}.

(** [type SubnetMap[V any] struct { tree *tree.TreeV6[V] }] *)
Record SubnetMap := mkSubnetMap { tree : option (patricia.TreeV6 V) }.

(** [Lookup] will search for the most specific subnet matching the
    provided IP address and return the value associated with it. [None]
    stands for the panic of [patricia.NewIPv6Address]. *)
Definition Lookup (sm : SubnetMap) (ip : net.IP) : option (V * bool) :=
  match tree sm with
  | None => Some (zero, false)
  | Some t =>
      let ip := net.To16 ip in
      match patricia.NewIPv6Address ip 128 with
      | None => None
      | Some a =>
          let '(ok, value) := patricia.FindDeepestTag zero t a in
          Some (value, ok)
      end
  end.

(** What the hook returns as its [interface{}]. *)
Inductive iface :=
| INil
| IValue (v : Value)
| ISubnetMap (sm : SubnetMap).

(** The key under which the hook stores the element of key [k] (the
    [i]-th of the map), or the error it returns there. *)
Definition convert_key (i : nat) (k : Value) : string + error :=
  let k := if bool_decide (kind k = Interface) then Elem k else k in
  match k with
  | VString s =>
      (* Parse key *)
      match net.ParseCIDR s with
      | inr err => inr (ErrParseCIDR err)
      | inl (_, ipNet) =>
          (* Convert key to IPv6 *)
          let '(ones, bits) := net.Size (net.ipnet_Mask ipNet) in
          if negb (bits =? 32) && negb (bits =? 128) then inr (ErrInvalidNetmask i)
          else if bits =? 32 then
            inl ("::ffff:" +:+ net.IP_String (net.ipnet_IP ipNet) +:+ "/"
                 +:+ net.uitoa (ones + 96))
          else inl (net.IPNet_String ipNet)
      end
  | _ => inr (ErrKeyNotString i (kind k))
  end.

(** First case, we have a map: the loop over its entries, [i] counting
    them and [output] being filled. *)
Fixpoint convert_entries (entries : list (Value * Value)) (i : nat)
    (output : gmap string Value) : gmap string Value + error :=
  match entries with
  | [] => inl output
  | (k, v) :: rest =>
      match convert_key i k with
      | inr err => inr err
      | inl key => convert_entries rest (S i) (<[key := Interface_ v]> output)
      end
  end.

(** [intermediateDecoder.Decode(output)] into a [map[string]V]: every
    element is decoded, and the decoding fails if one of them is refused. *)
Definition decode_output (output : gmap string Value) : option (gmap string V) :=
  if bool_decide (map_Forall (fun _ x => is_Some (decode x)) output)
  then Some (omap decode output) else None.

(** The body of the loop that fills the tree: the address under which the
    element of key [k] is stored, or the error returned there; [None]
    stands for the panic of [patricia.NewIPv6Address]. *)
Definition address_of_key (k : string) : option (patricia.IPv6Address + error) :=
  match net.ParseCIDR k with
  | inr err => Some (inr (ErrParseCIDR err))  (* Should not happen *)
  | inl (_, ipNet) =>
      let '(plen, _) := net.Size (net.ipnet_Mask ipNet) in
      match patricia.NewIPv6Address (net.To16 (net.ipnet_IP ipNet)) plen with
      | None => None
      | Some a => Some (inl a)
      end
  end.

(** The loop that fills the tree from the decoded map. *)
Fixpoint fill (entries : list (string * V)) (trie : patricia.TreeV6 V)
  : option (patricia.TreeV6 V + error) :=
  match entries with
  | [] => Some (inl trie)
  | (k, v) :: rest =>
      match address_of_key k with
      | None => None
      | Some (inr err) => Some (inr err)
      | Some (inl a) => fill rest (patricia.Set_ trie a v)
      end
  end.

(** The first part of the hook: the map [output] of the elements under
    their converted keys, or the error found; [None] if [from] is neither
    a map nor a value that is or converts to a [V]. *)
Definition output_of (from : Value) : option (gmap string Value + error) :=
  if bool_decide (kind from = Map) then
    (* First case, we have a map *)
    Some (convert_entries (MapRange from) 0%nat ∅)
  else if is_V from || convertible_to_V from then
    (* Second case, we have a single value *)
    Some (inl {[ "::/0"%string := Interface_ from ]})
  else None.

(** The second part: we have to decode output map, then turn it into a
    [SubnetMap[V]]. The decoded map is ranged over in the order of
    [map_to_list]. *)
Definition to_SubnetMap (output : gmap string Value) : option (iface * option error) :=
  match decode_output output with
  | None => Some (INil, Some ErrUnableToDecode)
  | Some intermediate =>
      match fill (map_to_list intermediate) patricia.NewTreeV6 with
      | None => None
      | Some (inr err) => Some (INil, Some err)
      | Some (inl trie) => Some (ISubnetMap (mkSubnetMap (Some trie)), None)
      end
  end.

(** The function that [SubnetMapUnmarshallerHook[V]()] returns, applied to
    [from]; [to_is_SubnetMap] tells whether [to.Type()] is
    [SubnetMap[V]]. It decodes SubnetMap and notably check that valid
    networks are provided as key. It also accepts a single value instead
    of a map for backward compatibility. [None] stands for a panic. *)
Definition SubnetMapUnmarshallerHook (from : Value) (to_is_SubnetMap : bool)
  : option (iface * option error) :=
  if negb to_is_SubnetMap then Some (IValue (Interface_ from), None)
  else
    match output_of from with
    | None => Some (IValue (Interface_ from), None)
    | Some (inr err) => Some (INil, Some err)
    | Some (inl output) => to_SubnetMap output
    end.

(** [MarshalYAML]: the tree as a map from the string of each address to
    its first tag. *)
Definition MarshalYAML (sm : SubnetMap) : gmap string V * option error :=
  match tree sm with
  | None => (∅, None)
  | Some t =>
      (foldl (fun output '(a, tags) =>
                match tags with
                | v :: _ => <[patricia.IPv6Address_String a := v]> output
                | [] => output
                end) ∅ (patricia.Iterate t), None)
  end.

End SubnetMap.
Arguments SubnetMap V : clear implicits.
Arguments iface V : clear implicits.

(** The instance of the tests: [V] is [string]. An integer is
    convertible to a string in Go. The sub-decoder of this instance is a
    strict one: it takes a string as it is and refuses anything else. *)
#[export] Instance Decodable_string : Decodable string := {|
  zero := EmptyString;
  is_V v := match v with VString _ => true | _ => false end;
  convertible_to_V v := match v with VString _ | VInt _ => true | _ => false end;
  decode v := match v with VString s => Some s | _ => None end;
  encode s := VString s;
  is_V_encode _ := eq_refl;
  Interface_encode _ := eq_refl;
  decode_encode _ := eq_refl
|}.

End helpers.

(** ** Go's [net] package: host and port *)

Module ipsock.

(** [bytealg.IndexByteString(s, c)]: the index of the first [c] in [s],
    -1 if there is none. *)
Fixpoint IndexByteString (s : string) (c : ascii) : Z :=
  match s with
  | EmptyString => -1
  | String.String x s' =>
      if Ascii.eqb x c then 0
      else let i := IndexByteString s' c in if i <? 0 then -1 else i + 1
  end.

(** [last(s, b)]: the index of the rightmost [b] in [s], -1 if there is
    none; the loop goes down from [len(s) - 1]. *)
Fixpoint last_loop (s : string) (b : ascii) (i : nat) : Z :=
  match i with
  | O => -1
  | S i' => if str.at_is s i' b then Z.of_nat i' else last_loop s b i'
  end.
Definition last (s : string) (b : ascii) : Z := last_loop s b (String.length s).

(** [s[:n]] and [s[lo:hi]], for indices in range. *)
Fixpoint take (n : nat) (s : string) : string :=
  match n, s with
  | S n', String.String c s' => String.String c (take n' s')
  | _, _ => EmptyString
  end.
Definition slice (s : string) (lo hi : Z) : string :=
  take (Z.to_nat (hi - lo)) (str.drop (Z.to_nat lo) s).

(** [AddrError] *)
Record AddrError := mkAddrError { ae_Err : string; ae_Addr : string }.

(** [JoinHostPort(host, port)]: we assume that host is a literal IPv6
    address if host has colons. *)
Definition JoinHostPort (host port : string) : string :=
  if 0 <=? IndexByteString host ":" then "[" +:+ host +:+ "]:" +:+ port
  else host +:+ ":" +:+ port.

(** [SplitHostPort(hostport)]: the host and the port, or the error. *)
Definition SplitHostPort (hostport : string) : string * string + AddrError :=
  let missingPort := "missing port in address"%string in
  let tooManyColons := "too many colons in address"%string in
  let addrErr addr why : string * string + AddrError := inr (mkAddrError why addr) in
  let len := Z.of_nat (String.length hostport) in
  (* The port starts after the last colon. *)
  let i := last hostport ":" in
  if i <? 0 then addrErr hostport missingPort
  else
    let rest (host : string) (j k : Z) : string * string + AddrError :=
      if 0 <=? IndexByteString (slice hostport j len) "[" then
        addrErr hostport "unexpected '[' in address"%string
      else if 0 <=? IndexByteString (slice hostport k len) "]" then
        addrErr hostport "unexpected ']' in address"%string
      else inl (host, slice hostport (i + 1) len) in
    if str.at_is hostport 0 "[" then
      (* Expect the first ']' just before the last ':'. *)
      let end_ := IndexByteString hostport "]" in
      if end_ <? 0 then addrErr hostport "missing ']' in address"%string
      else if end_ + 1 =? len then
        (* There can't be a ':' behind the ']' now. *)
        addrErr hostport missingPort
      else if end_ + 1 =? i then
        (* The expected result. *)
        rest (slice hostport 1 end_) 1 (end_ + 1)
      else
        (* Either ']' isn't followed by a colon, or it is followed by a
           colon that is not the last one. *)
        if str.at_is hostport (Z.to_nat (end_ + 1)) ":" then addrErr hostport tooManyColons
        else addrErr hostport missingPort
    else
      let host := slice hostport 0 i in
      if 0 <=? IndexByteString host ":" then addrErr hostport tooManyColons
      else rest host 0 0.

End ipsock.

(** ** Package clickhouse of the orchestrator: the migrations *)

Module clickhouse.

(** The messages of the logger, with the step they are about. *)
Inductive Level := Debug | Info | Error.
Record entry := mkEntry { level : Level; step : option string; msg : string }.

(** What [migrateDatabase] reads and writes of the component:
    [c.config.OrchestratorURL], the address of the HTTP component
    ([c.d.HTTP.Address.String()]), whether the channel [c.migrationsDone]
    is closed, the four metrics, and the log. Two counters tell how many
    row sets and connections are open. *)
Record Component := mkComponent {
  OrchestratorURL : string;
  HTTP_Address : string;
  migrationsDone : bool;
  migrationsRunning : Z;
  migrationsVersion : Z;
  migrationsApplied : Z;
  migrationsNotApplied : Z;
  log : list entry;
  open_rows : nat;
  open_conns : nat
}.

(** What [rows.Next()] and [rows.Scan(&val)] show of the rows of a query:
    no row, or a first row whose scan gives a [uint8] or an error. *)
Inductive Rows (Err : Type) :=
| NoRows
| FirstRow (scan : Z + Err).
Arguments NoRows {Err}.
Arguments FirstRow {Err} scan.

Section Migrations.
(** The state of what is outside the program (the ClickHouse server, the
    network) and its errors. *)
Context {W Err : Type}.

(** [migrationStep] *)
Record migrationStep := mkMigrationStep {
  (** CheckQuery to execute to check if the step is needed. *)
  CheckQuery : string;
  (** Arguments to use for the query *)
  Args : list string;
  (** Function to execute if the query returns no row or returns `0'. *)
  Do : W → W * option Err
}.

(** The calls that leave the program, and the nine methods that build the
    steps, which are not among the sources: they are taken to read the
    component and to act on the outside only through [Do]. *)
Class Outside := {
  (** [c.d.ClickHouse.Query(ctx, query, args...)] *)
  Query : W → string → list string → W * (Rows Err + Err);
  (** [net.Dial(network, address)]: the local address of the connection *)
  Dial : W → string → string → W * (net.IP + Err);
  migrateStepCreateFlowsTable : Component → migrationStep;
  migrateStepAddForwardingStatusFlowsTable : Component → migrationStep;
  migrateStepCreateExportersView : Component → migrationStep;
  migrateStepCreateProtocolsDictionary : Component → migrationStep;
  migrateStepCreateASNsDictionary : Component → migrationStep;
  migrateStepCreateRawFlowsTable : Component → migrationStep;
  migrateStepCreateRawFlowsConsumerView : Component → migrationStep;
  migrateStepAddExpirationFlowsTable : Component → migrationStep;
  migrateStepDropSchemaMigrationsTable : Component → migrationStep
}.
Context `{!Outside}.

(** The errors that [migrateDatabase] returns. *)
Inductive migrationError :=
| CannotGetIP (e : Err)                 (* "cannot get our IP address: %w" *)
| CannotGetHTTPPort (e : ipsock.AddrError)  (* "cannot get HTTP port: %w" *)
| CannotExecuteCheck (e : Err)          (* "cannot execute check: %w" *)
| CannotParseCheckResult (e : Err)      (* "cannot parse check result: %w" *)
| DuringMigrationStep (e : Err).        (* "during migration step: %w" *)

(** A computation on the component and the outside that returns a value or
    an error; [None] stands for a panic. *)
Definition M (A : Type) : Type := Component → W → option (Component * W * (A + migrationError)).

Definition ret {A} (a : A) : M A := λ c w, Some (c, w, inl a).
Definition fail {A} (e : migrationError) : M A := λ c w, Some (c, w, inr e).
Definition panic {A} : M A := λ _ _, None.
Definition bind {A B} (m : M A) (k : A → M B) : M B :=
  λ c w, match m c w with
         | None => None
         | Some (c', w', inr e) => Some (c', w', inr e)
         | Some (c', w', inl a) => k a c' w'
         end.

Definition get : M Component := λ c w, Some (c, w, inl c).
Definition modify (f : Component → Component) : M unit := λ c w, Some (f c, w, inl tt).
Definition outside {A} (f : W → W * A) : M A := λ c w, let '(w', a) := f w in Some (c, w', inl a).

#[export] Instance M_ret : MRet M := @ret.
#[export] Instance M_bind : MBind M := λ A B k m, bind m k.

End Migrations.

Section Migrate.
Context {W Err : Type} `{!@Outside W Err}.
Local Abbreviation M := (@M W Err).

(** The updates of the component. *)
Definition set_OrchestratorURL (url : string) (c : Component) : Component :=
  mkComponent url (HTTP_Address c) (migrationsDone c) (migrationsRunning c)
    (migrationsVersion c) (migrationsApplied c) (migrationsNotApplied c) (log c)
    (open_rows c) (open_conns c).
Definition set_migrationsDone (b : bool) (c : Component) : Component :=
  mkComponent (OrchestratorURL c) (HTTP_Address c) b (migrationsRunning c)
    (migrationsVersion c) (migrationsApplied c) (migrationsNotApplied c) (log c)
    (open_rows c) (open_conns c).
Definition set_migrationsRunning (v : Z) (c : Component) : Component :=
  mkComponent (OrchestratorURL c) (HTTP_Address c) (migrationsDone c) v
    (migrationsVersion c) (migrationsApplied c) (migrationsNotApplied c) (log c)
    (open_rows c) (open_conns c).
Definition set_migrationsVersion (v : Z) (c : Component) : Component :=
  mkComponent (OrchestratorURL c) (HTTP_Address c) (migrationsDone c) (migrationsRunning c)
    v (migrationsApplied c) (migrationsNotApplied c) (log c)
    (open_rows c) (open_conns c).
Definition inc_migrationsApplied (c : Component) : Component :=
  mkComponent (OrchestratorURL c) (HTTP_Address c) (migrationsDone c) (migrationsRunning c)
    (migrationsVersion c) (migrationsApplied c + 1) (migrationsNotApplied c) (log c)
    (open_rows c) (open_conns c).
Definition inc_migrationsNotApplied (c : Component) : Component :=
  mkComponent (OrchestratorURL c) (HTTP_Address c) (migrationsDone c) (migrationsRunning c)
    (migrationsVersion c) (migrationsApplied c) (migrationsNotApplied c + 1) (log c)
    (open_rows c) (open_conns c).
Definition add_log (e : entry) (c : Component) : Component :=
  mkComponent (OrchestratorURL c) (HTTP_Address c) (migrationsDone c) (migrationsRunning c)
    (migrationsVersion c) (migrationsApplied c) (migrationsNotApplied c) (log c ++ [e])
    (open_rows c) (open_conns c).
Definition set_open_rows (n : nat) (c : Component) : Component :=
  mkComponent (OrchestratorURL c) (HTTP_Address c) (migrationsDone c) (migrationsRunning c)
    (migrationsVersion c) (migrationsApplied c) (migrationsNotApplied c) (log c)
    n (open_conns c).
Definition set_open_conns (n : nat) (c : Component) : Component :=
  mkComponent (OrchestratorURL c) (HTTP_Address c) (migrationsDone c) (migrationsRunning c)
    (migrationsVersion c) (migrationsApplied c) (migrationsNotApplied c) (log c)
    (open_rows c) n.

(** [l.Debug().Msg(msg)] and the like, [l] being the logger of a step or
    the one of the component. *)
Definition Msg (lv : Level) (st : option string) (m : string) : M unit :=
  modify (add_log (mkEntry lv st m)).

(** [c.d.ClickHouse.Query], which opens a row set when it succeeds, and
    [rows.Close()]. *)
Definition ClickHouse_Query (query : string) (args : list string) : M (Rows Err + Err) :=
  r ← outside (λ w, Query w query args);
  match r with
  | inl rows => modify (λ c, set_open_rows (S (open_rows c)) c);; ret (inl rows)
  | inr err => ret (inr err)
  end.
Definition rows_Close : M unit := modify (λ c, set_open_rows (pred (open_rows c)) c).

(** [net.Dial], which opens a connection when it succeeds, and
    [conn.Close()]. *)
Definition net_Dial (network address : string) : M (net.IP + Err) :=
  r ← outside (λ w, Dial w network address);
  match r with
  | inl ip => modify (λ c, set_open_conns (S (open_conns c)) c);; ret (inl ip)
  | inr err => ret (inr err)
  end.
Definition conn_Close : M unit := modify (λ c, set_open_conns (pred (open_conns c)) c).

(** [close(c.migrationsDone)]: closing a closed channel panics. *)
Definition close_migrationsDone : M unit :=
  c ← get;
  if migrationsDone c then panic else modify (set_migrationsDone true).

(** [getHTTPBaseURL] tries to guess the appropriate URL to access our HTTP
    daemon. It tries to get our IP address using an unconnected UDP
    socket. The deferred [conn.Close()] runs on both ways out. *)
Definition getHTTPBaseURL (address : string) : M string :=
  (* Get IP address *)
  r ← net_Dial "udp" address;
  match r with
  | inr err => fail (CannotGetIP err)
  | inl localAddr_IP =>
      (* Combine with HTTP port *)
      c ← get;
      match ipsock.SplitHostPort (HTTP_Address c) with
      | inr err => conn_Close;; fail (CannotGetHTTPPort err)
      | inl (_, port) =>
          let base := ("http://" +:+ ipsock.JoinHostPort (net.IP_String localAddr_IP) port)%string in
          Msg Debug None ("detected base URL is " +:+ base);;
          conn_Close;;
          ret base
      end
  end.

(** The body of the loop of [migrateDatabase] after [total++], for one
    step; it returns the new value of [count]. *)
Definition migrate_step (Description : string) (Step : Component → migrationStep)
    (count : Z) : M Z :=
  let l := Some Description in
  Msg Debug l "checking migration step";;
  c ← get;
  let step := Step c in
  r ← ClickHouse_Query (CheckQuery step) (Args step);
  match r with
  | inr err =>
      Msg Error l "cannot execute check";;
      fail (CannotExecuteCheck err)
  | inl rows =>
      let execute : M Z :=
        rows_Close;;
        r ← outside (Do step);
        match r with
        | Some err =>
            Msg Error l "cannot execute migration step";;
            fail (DuringMigrationStep err)
        | None =>
            Msg Info l "migration step executed successfully";;
            modify inc_migrationsApplied;;
            ret (count + 1)
        end in
      match rows with
      | FirstRow (inr err) =>
          rows_Close;;
          Msg Error l "cannot parse check result";;
          fail (CannotParseCheckResult err)
      | FirstRow (inl val) =>
          if negb (val =? 0) then
            rows_Close;;
            Msg Debug l "result not equal to 0, skipping step";;
            modify inc_migrationsNotApplied;;
            ret count
          else
            Msg Debug l "got 0, executing step";;
            execute
      | NoRows =>
          Msg Debug l "no result, executing step";;
          execute
      end
  end.

(** The loop over the steps, with [count] and [total]. *)
Fixpoint migrate_steps (steps : list (string * (Component → migrationStep)))
    (count total : Z) : M (Z * Z) :=
  match steps with
  | [] => ret (count, total)
  | (Description, Step) :: rest =>
      count' ← migrate_step Description Step count;
      migrate_steps rest count' (total + 1)
  end.

(** The steps of [migrateDatabase]. *)
Definition steps : list (string * (Component → migrationStep)) :=
  [("create flows table", migrateStepCreateFlowsTable);
   ("add ForwardingStatus to flows table", migrateStepAddForwardingStatusFlowsTable);
   ("create exporters view", migrateStepCreateExportersView);
   ("create protocols dictionary", migrateStepCreateProtocolsDictionary);
   ("create asns dictionary", migrateStepCreateASNsDictionary);
   ("create raw flows table", migrateStepCreateRawFlowsTable);
   ("create raw flows consumer view", migrateStepCreateRawFlowsConsumerView);
   ("add expiration to flow table", migrateStepAddExpirationFlowsTable);
   ("drop schema_migrations table", migrateStepDropSchemaMigrationsTable)]%string.

(** What follows the loop. *)
Definition migrations_done (count total : Z) : M unit :=
  (if count =? 0 then Msg Debug None "no migration needed"
   else Msg Info None "migrations done");;
  close_migrationsDone;;
  modify (set_migrationsRunning 0);;
  modify (set_migrationsVersion total);;
  ret tt.

(** [migrateDatabase] execute database migration. The context [ctx] is
    only passed along to the queries and has no part here. *)
Definition migrateDatabase : M unit :=
  c ← get;
  (if String.eqb (OrchestratorURL c) "" then
     baseURL ← getHTTPBaseURL "1.1.1.1:80";
     modify (set_OrchestratorURL baseURL)
   else ret tt);;
  '(count, total) ← migrate_steps steps 0 0;
  migrations_done count total.

End Migrate.

End clickhouse.

(** * Notions of the statements and of the proofs *)

Import net patricia reflect helpers.

(** ** Paths in the tree *)

Section TreeDefs.
Context {V : Type}.
(** The tag of the node at the end of the path [p], if there is one. *)
Fixpoint tag_at (p : list bool) (t : TreeV6 V) : option V :=
  match p with
  | [] => tag_of t
  | b :: p' => tag_at p' (child b t)
  end.

(** [t] is the empty tree. *)
Definition is_Empty (t : TreeV6 V) : bool :=
  match t with Empty => true | Node _ _ _ => false end.

(** No node of [t] is deeper than [n]. *)
Fixpoint fits (n : nat) (t : TreeV6 V) {struct t} : bool :=
  match t with
  | Empty => true
  | Node _ zero one =>
      match n with
      | O => is_Empty zero && is_Empty one
      | S n' => fits n' zero && fits n' one
      end
  end.
End TreeDefs.

(** ** Bytes and text *)

(** A byte is a number below 256. *)
Definition is_byte (b : Z) : Prop := 0 ≤ b < 256.
Definition is_bytes (p : list Z) : Prop := Forall is_byte p.

(** [P] holds of the [n] numbers from [z] on. *)
Fixpoint range_all (P : Z → bool) (z : Z) (n : nat) : bool :=
  match n with
  | O => true
  | S n' => P z && range_all P (z + 1) n'
  end.

(** Predicates on the characters of a string. *)
Module strd.
(** Every character of [s] is [P]. *)
Fixpoint all (P : ascii → bool) (s : string) : bool :=
  match s with
  | EmptyString => true
  | String.String c s' => P c && all P s'
  end.
(** [s] is empty or starts with a character that is not [P]. *)
Definition stops (P : ascii → bool) (s : string) : bool :=
  match s with
  | EmptyString => true
  | String.String c _ => negb (P c)
  end.
End strd.
Import strd.

(** The hexadecimal digits, and the numbers that [dtoi] and [xtoi]
    accumulate over a string of digits, from [n] on. *)
Definition is_hex (c : ascii) : bool := is_dec c || is_hex_lower c || is_hex_upper c.
Definition hex_digit (c : ascii) : Z :=
  if is_dec c then str.code c - 48
  else if is_hex_lower c then str.code c - 97 + 10
  else str.code c - 65 + 10.
Fixpoint dec_val (s : string) (n : Z) : Z :=
  match s with
  | EmptyString => n
  | String.String c s' => dec_val s' (n * 10 + (str.code c - 48))
  end.
Fixpoint hex_val (s : string) (n : Z) : Z :=
  match s with
  | EmptyString => n
  | String.String c s' => hex_val s' (n * 16 + hex_digit c)
  end.

(** [s] prints [v]: what is checked of the output of [ubtoa], [uitoa]
    (in decimal) and [appendHex] (in hexadecimal). *)
Definition dec_ok (v : Z) (s : string) : bool :=
  negb (String.length s =? 0)%nat && all is_dec s && (dec_val s 0 =? v)
  && negb ((1 <? String.length s)%nat && str.at_is s 0 "0")
  && (hex_val s 0 <=? 0xFFFF) && (String.length s <=? 3)%nat.

Definition hex_ok (v : Z) (s : string) : bool :=
  negb (String.length s =? 0)%nat && all (λ c, is_dec c || is_hex_lower c) s && (hex_val s 0 =? v).

(** ** The text of an IPv6 address *)

(** The 16-bit group of [p] at index [i]. *)
Definition grp (p : IP) (i : Z) : Z := Z.lor (Z.shiftl (at_ p i) 8) (at_ p (i + 1)).

(** What [print6] appends from index [i] on. *)
Fixpoint tail6 (fuel : nat) (p : IP) (e0 e1 i : Z) : string :=
  match fuel with
  | O => EmptyString
  | S fuel' =>
      if negb (i <? Z.of_nat IPv6len) then EmptyString
      else if i =? e0 then
        "::" +:+ (if Z.of_nat IPv6len <=? e1 then EmptyString
                  else appendHex (grp p e1) +:+ tail6 fuel' p e0 e1 (e1 + 2))
      else
        (if 0 <? i then ":" else "") +:+ appendHex (grp p i) +:+ tail6 fuel' p e0 e1 (i + 2)
  end.

(** [e0, e1) is a run of zero bytes of [p] at even indices, or (-1, -1). *)
Definition zero_run (p : IP) (e0 e1 : Z) : Prop :=
  (e0 = -1 ∧ e1 = -1) ∨
  (0 ≤ e0 < e1 ∧ e1 ≤ 16 ∧ e0 mod 2 = 0 ∧ e1 mod 2 = 0 ∧ ∀ k, e0 ≤ k < e1 → at_ p k = 0).

(** The characters that the printers emit. *)
Definition is_hexl (c : ascii) : bool := is_dec c || is_hex_lower c.

(** What the parser makes of the groups before and after the ellipsis. *)
Definition final6 (p : list Z) (e0 e1 : Z) : list Z :=
  if e0 <? 0 then p else take (Z.to_nat e0) p ++ drop (Z.to_nat e1) p.

(** The run of zeros that [string6] replaces by "::". *)
Definition run6 (p : IP) : Z * Z :=
  let '(e0, e1) := longest_zeros 8 p 0 (-1) (-1) in
  if e1 - e0 <=? 2 then (-1, -1) else (e0, e1).

(** The characters of a printed IPv6 and of a printed IPv4 address. *)
Definition is_hexcolon (c : ascii) : bool := is_hexl c || Ascii.eqb c ":".
Definition is_decdot (c : ascii) : bool := is_dec c || Ascii.eqb c ".".

(** ** Masks *)

(** What is checked of the mask of [n] ones among 128 bits, and among 32. *)
Definition mask128_ok (n : Z) : bool :=
  let m := CIDRMask n 128 in
  bool_decide (Size m = (n, 128)) && bool_decide (length m = 16%nat)
  && bool_decide (bits_of_bytes m
                  = replicate (Z.to_nat n) true ++ replicate (128 - Z.to_nat n) false)
  && bool_decide (simpleMaskLength m = n)
  && bool_decide (simpleMaskLength (drop 12 m) = Z.max 0 (n - 96))
  && bool_decide (Forall (λ b, 0 ≤ b < 256) m).

Definition mask32_ok (n : Z) : bool :=
  let m := CIDRMask n 32 in
  bool_decide (Size m = (n, 32)) && bool_decide (length m = 4%nat)
  && bool_decide (CIDRMask (n + 96) 128 = replicate 12 0xff ++ m)
  && bool_decide (simpleMaskLength m = n)
  && bool_decide (Forall (λ b, 0 ≤ b < 256) m).

(** ** The hook and the table *)

(** The key that the hook makes of a parsed network. *)
Definition canonical_key (ipNet : IPNet) : string :=
  let '(ones, bits) := Size (ipnet_Mask ipNet) in
  if bits =? 32 then
    "::ffff:" +:+ IP_String (ipnet_IP ipNet) +:+ "/" +:+ uitoa (ones + 96)
  else IPNet_String ipNet.

(** The key of a map entry, out of its interface if it is in one. *)
Definition key_string (k : Value) : option string :=
  match (if bool_decide (kind k = Interface) then Elem k else k) with
  | VString s => Some s
  | _ => None
  end.

Section TableDefs.
Context {V : Type} `{!Decodable V}.

(** The entries stored in a table: the address of each node of its tree
    that has a tag (what [iter.Address()] returns there), and the tag. *)
Definition entries (sm : SubnetMap V) : list (patricia.IPv6Address * V) :=
  match tree sm with
  | None => []
  | Some t => map (λ '(p, v), (patricia.address_of p, v)) (patricia.nodes [] t)
  end.

(** The prefix [a] contains the address [ip]. *)
Definition contains (a : patricia.IPv6Address) (ip : IP) : Prop :=
  patricia.key_of a `prefix_of` patricia.bits_of_bytes (To16 ip).

(** The tree of the table, if it has one, has no node below the 128th bit. *)
Definition well_formed (sm : SubnetMap V) : bool :=
  match tree sm with
  | None => true
  | Some t => fits 128 t
  end.

(** The hook has decoded [from] into the table [sm]. *)
Definition decodes_to (from : Value) (sm : SubnetMap V) : Prop :=
  SubnetMapUnmarshallerHook from true = Some (ISubnetMap sm, None).
End TableDefs.

(** [ip] has the length of an IPv4 or of an IPv6 address. *)
Definition is_address (ip : IP) : Prop := length ip = 4%nat ∨ length ip = 16%nat.

(** The key that the hook makes of the key [k] of a map, [k] itself if
    it makes none. *)
Definition converted (k : string) : string :=
  match convert_key 0 (VString k) with
  | inl key => key
  | inr _ => k
  end.

Section MapDefs.
Context {V : Type} `{!Decodable V}.
(** A [map[string]V], as the value that the hook receives: its entries in
    the order [l] in which [MapRange] yields them. *)
Definition reflect_map (l : list (string * V)) : Value :=
  VMap (map (λ '(k, v), (VString k, encode v)) l).
End MapDefs.

(** The string of the address of the node at the end of a path. *)
Definition path_string (q : list bool) : string :=
  patricia.IPv6Address_String (patricia.address_of q).

(** The bits of the mask of [n] ones among 32. *)
Definition mask32_bits_ok (n : Z) : bool :=
  bool_decide (patricia.bits_of_bytes (CIDRMask n 32)
               = replicate (Z.to_nat n) true ++ replicate (32 - Z.to_nat n) false).

(** The characters that [ParseIP] looks for. *)
Definition is_sep (c : ascii) : bool := Ascii.eqb c "." || Ascii.eqb c ":".

(** ** The inputs of the tests *)

(** A [gin.H] (a [map[string]interface{}]) of strings, with its entries
    in the order [l]. *)
Definition gin_H (l : list (string * string)) : Value :=
  VMap (map (λ '(k, v), (VString k, VIface (VString v))) l).

(** The table that the hook makes of [from], for [V = string]; the table
    without a tree if it makes none. *)
Definition table_of (from : Value) : SubnetMap string :=
  match SubnetMapUnmarshallerHook from true with
  | Some (ISubnetMap sm, None) => sm
  | _ => mkSubnetMap None
  end.

(** A map with keys of the three kinds, the map [output] that the first
    loop makes of it, and its decoding. *)
Definition example_from : Value :=
  gin_H [("203.0.113.77/24", "a"); ("::ffff:203.0.113.0/120", "b");
         ("2001:db8::1/32", "c")]%string.
Definition example_output : gmap string Value :=
  match output_of (V:=string) example_from with Some (inl o) => o | _ => ∅ end.
Definition example_intermediate : gmap string string :=
  match decode_output (V:=string) example_output with Some m => m | None => ∅ end.

(** The keys of the test "Invalid subnet". *)
Definition invalid_keys : list string :=
  ["192.0.2.1/38"; "192.0.2.1/255.0.255.0"; "2001:db8::/1000"]%string.

(** ** The networks of the keys, and the migrations *)

(** The bits of the network of a parsed key, among the 128 bits of the
    addresses of the table: those of its address, in 16-byte form, that its
    mask keeps. *)
Definition network_bits (ipNet : IPNet) : list bool :=
  let '(ones, bits) := Size (ipnet_Mask ipNet) in
  take (Z.to_nat (ones + (128 - bits))) (bits_of_bytes (To16 (ipnet_IP ipNet))).

(** The characters of a host and of a port: no bracket in a host, and no
    colon either in a port. *)
Definition is_host_char (c : ascii) : bool := negb (Ascii.eqb c "[") && negb (Ascii.eqb c "]").
Definition is_port_char (c : ascii) : bool := is_host_char c && negb (Ascii.eqb c ":").

(** What a step leaves as it is in the component: everything but the
    counters of the applied and of the skipped steps, and the log. *)
Definition same_settings (c c' : clickhouse.Component) : Prop :=
  clickhouse.OrchestratorURL c' = clickhouse.OrchestratorURL c
  ∧ clickhouse.HTTP_Address c' = clickhouse.HTTP_Address c
  ∧ clickhouse.migrationsDone c' = clickhouse.migrationsDone c
  ∧ clickhouse.migrationsRunning c' = clickhouse.migrationsRunning c
  ∧ clickhouse.migrationsVersion c' = clickhouse.migrationsVersion c
  ∧ clickhouse.open_rows c' = clickhouse.open_rows c
  ∧ clickhouse.open_conns c' = clickhouse.open_conns c.

(** An outside for the examples. Its state is the list of the check
    queries of the steps that have been executed: the check of a step
    returns a row with 1 if the step has been executed and with 0 if not,
    and a step fails when the state holds "read only". The local address
    of every connection is 192.0.2.10. *)
Definition example_step (q : string) (_ : clickhouse.Component)
  : @clickhouse.migrationStep (list string) string :=
  clickhouse.mkMigrationStep q []
    (λ w, if bool_decide ("read only"%string ∈ w) then (w, Some "read only"%string)
          else (w ++ [q], None)).
Definition example_Outside : @clickhouse.Outside (list string) string := {|
  clickhouse.Query w q _ :=
    (w, inl (clickhouse.FirstRow (inl (if bool_decide (q ∈ w) then 1 else 0))));
  clickhouse.Dial w _ _ := (w, inl [192; 0; 2; 10]);
  clickhouse.migrateStepCreateFlowsTable := example_step "flows";
  clickhouse.migrateStepAddForwardingStatusFlowsTable := example_step "forwarding status";
  clickhouse.migrateStepCreateExportersView := example_step "exporters";
  clickhouse.migrateStepCreateProtocolsDictionary := example_step "protocols";
  clickhouse.migrateStepCreateASNsDictionary := example_step "asns";
  clickhouse.migrateStepCreateRawFlowsTable := example_step "raw flows";
  clickhouse.migrateStepCreateRawFlowsConsumerView := example_step "raw flows consumer";
  clickhouse.migrateStepAddExpirationFlowsTable := example_step "expiration";
  clickhouse.migrateStepDropSchemaMigrationsTable := example_step "schema migrations"
|}.
(** A component before its migrations, without a URL of the orchestrator
    in its configuration. *)
Definition example_Component : clickhouse.Component :=
  clickhouse.mkComponent "" "[::]:8080" false 1 0 0 0 [] 0 0.
(** The state in which the first three steps have been executed. *)
Definition example_partly : list string := ["flows"; "forwarding status"; "exporters"]%string.
(** The state in which every step has been executed. *)
Definition example_migrated : list string :=
  ["flows"; "forwarding status"; "exporters"; "protocols"; "asns"; "raw flows";
   "raw flows consumer"; "expiration"; "schema migrations"]%string.

(** * Facts about the embedded code *)

(** ** The prefix tree *)

Section TreeFacts.
Context {V : Type}.
Implicit Types (t : TreeV6 V) (p q : list bool) (v : V).

Lemma tag_at_Empty p : tag_at p (@Empty V) = None.
Proof. induction p as [|b p IH]; simpl; [done|]. done. Qed.

Lemma tag_at_set_key p q v t :
  tag_at q (set_key p v t) = if decide (p = q) then Some v else tag_at q t.
Proof.
  revert q t. induction p as [|b p IH]; intros q t.
  - destruct q as [|c q]; simpl; [done|]. by destruct c.
  - destruct q as [|c q]; simpl.
    + by destruct b.
    + destruct b, c; simpl; rewrite ?IH; repeat case_decide; congruence.
Qed.

Lemma find_key_best p t best :
  find_key p t best =
  match find_key p t None with Some v => Some v | None => best end.
Proof.
  revert t best. induction p as [|b p IH]; intros t best.
  - destruct t as [|[v|] l r]; simpl; done.
  - destruct t as [|[v|] l r]; simpl; [done| |].
    + rewrite (IH _ (Some v)). by destruct (find_key p _ None).
    + apply IH.
Qed.

(** The deepest tag on a path is the tag of a prefix of the path... *)
Lemma find_key_Some p t v :
  find_key p t None = Some v →
  ∃ q, q `prefix_of` p ∧ tag_at q t = Some v ∧
       ∀ q', q' `prefix_of` p → is_Some (tag_at q' t) → (length q' ≤ length q)%nat.
Proof.
  revert t v. induction p as [|b p IH]; intros t v.
  - destruct t as [|tag l r]; simpl; [done|].
    intros Ht. exists []. split; [done|]. split; [by destruct tag|].
    intros q' Hq' _. apply prefix_nil_inv in Hq'. by subst.
  - destruct t as [|tag l r]; simpl; [done|].
    rewrite find_key_best.
    destruct (find_key p (if b then r else l) None) as [w|] eqn:Hf.
    + intros [= ->]. destruct (IH _ _ Hf) as (q & Hq & Hqt & Hmax).
      exists (b :: q). split; [by apply prefix_cons|]. split; [done|].
      intros q' Hq' Hs. destruct q' as [|c q']; simpl; [lia|].
      pose proof (prefix_cons_inv_1 _ _ _ _ Hq') as ->.
      apply prefix_cons_inv_2 in Hq'. simpl in Hs.
      specialize (Hmax q' Hq' Hs). lia.
    + intros Ht. exists []. split; [apply prefix_nil|]. split; [by destruct tag|].
      intros q' Hq' Hs. destruct q' as [|c q']; simpl; [lia|]. exfalso.
      pose proof (prefix_cons_inv_1 _ _ _ _ Hq') as ->.
      apply prefix_cons_inv_2 in Hq'. simpl in Hs.
      clear -Hf Hq' Hs.
      set (u := if b then r else l) in *. clearbody u.
      revert u q' Hf Hq' Hs. induction p as [|c p IHp]; intros u q' Hf Hq' Hs.
      * apply prefix_nil_inv in Hq'. subst. simpl in Hs.
        destruct u as [|[x|] ? ?]; simpl in *; try done; by destruct Hs.
      * destruct q' as [|d q'].
        -- simpl in Hs. destruct u as [|[x|] ? ?]; simpl in *; try done; try by destruct Hs.
           rewrite find_key_best in Hf. by destruct (find_key p _ None).
        -- pose proof (prefix_cons_inv_1 _ _ _ _ Hq') as ->.
           apply prefix_cons_inv_2 in Hq'. simpl in Hs.
           destruct u as [|tg ul ur]; simpl in *.
           { rewrite tag_at_Empty in Hs. by destruct Hs. }
           rewrite find_key_best in Hf.
           destruct (find_key p (if c then ur else ul) None) eqn:E; [by destruct tg|].
           eapply IHp; eauto.
Qed.

Lemma find_key_None p t :
  find_key p t None = None → ∀ q, q `prefix_of` p → tag_at q t = None.
Proof.
  revert t. induction p as [|b p IH]; intros t Hf q Hq.
  - apply prefix_nil_inv in Hq. subst. destruct t as [|[x|] ? ?]; simpl in *; done.
  - destruct t as [|tg l r]; [by rewrite tag_at_Empty|]. simpl in Hf.
    rewrite find_key_best in Hf.
    destruct (find_key p (if b then r else l) None) eqn:E; [done|].
    destruct q as [|c q]; simpl; [by destruct tg|].
    pose proof (prefix_cons_inv_1 _ _ _ _ Hq) as ->.
    apply prefix_cons_inv_2 in Hq. by apply IH.
Qed.

(** Two trees with the same tags at the same paths answer alike. *)
Lemma find_key_ext p t1 t2 :
  (∀ q, q `prefix_of` p → tag_at q t1 = tag_at q t2) →
  find_key p t1 None = find_key p t2 None.
Proof.
  intros Heq.
  destruct (find_key p t1 None) as [v1|] eqn:H1, (find_key p t2 None) as [v2|] eqn:H2; [| | |done].
  - apply find_key_Some in H1 as (q1 & Hq1 & Ht1 & Hm1).
    apply find_key_Some in H2 as (q2 & Hq2 & Ht2 & Hm2).
    assert (length q1 = length q2) as Hlen.
    { apply Nat.le_antisymm.
      - apply Hm2; [done|]. rewrite <-Heq by done. by rewrite Ht1.
      - apply Hm1; [done|]. rewrite Heq by done. by rewrite Ht2. }
    assert (q1 = q2) as ->.
    { destruct Hq1 as [k1 E1], Hq2 as [k2 E2]. rewrite E1 in E2.
      by apply app_inj_1 in E2 as [? _]. }
    rewrite Heq in Ht1 by done. congruence.
  - apply find_key_Some in H1 as (q1 & Hq1 & Ht1 & _).
    rewrite Heq in Ht1 by done. by rewrite (find_key_None _ _ H2 _ Hq1) in Ht1.
  - apply find_key_Some in H2 as (q2 & Hq2 & Ht2 & _).
    rewrite <-Heq in Ht2 by done. by rewrite (find_key_None _ _ H1 _ Hq2) in Ht2.
Qed.

Lemma elem_of_nodes rp t q v :
  (q, v) ∈ nodes rp t ↔ ∃ q', q = rev rp ++ q' ∧ tag_at q' t = Some v.
Proof.
  revert rp. induction t as [|tg l IHl r IHr]; intros rp; simpl.
  - split; [by intros ?%elem_of_nil|]. intros (q' & _ & Hq). by rewrite tag_at_Empty in Hq.
  - rewrite !elem_of_app, IHl, IHr. split.
    + intros [Hh|[(q' & -> & Hq)|(q' & -> & Hq)]].
      * destruct tg as [w|]; [|by apply elem_of_nil in Hh].
        apply list_elem_of_singleton in Hh as [= -> ->]. exists []. by rewrite app_nil_r.
      * exists (false :: q'). simpl. by rewrite <-app_assoc.
      * exists (true :: q'). simpl. by rewrite <-app_assoc.
    + intros (q' & -> & Hq). destruct q' as [|[] q']; simpl in Hq.
      * left. rewrite Hq, app_nil_r. by apply list_elem_of_singleton.
      * right; right. exists q'. simpl. by rewrite <-app_assoc.
      * right; left. exists q'. simpl. by rewrite <-app_assoc.
Qed.

Lemma fits_tag_at n t q :
  fits n t = true → is_Some (tag_at q t) → (length q ≤ n)%nat.
Proof.
  revert t q. induction n as [|n IH]; intros t q Hf Hs.
  - destruct t as [|tg l r]; [rewrite tag_at_Empty in Hs; by destruct Hs|].
    simpl in Hf. apply andb_true_iff in Hf as [Hl Hr].
    destruct q as [|b q]; [done|]. simpl in Hs.
    destruct b, l, r; simpl in *; try done; rewrite tag_at_Empty in Hs; by destruct Hs.
  - destruct t as [|tg l r]; [rewrite tag_at_Empty in Hs; by destruct Hs|].
    simpl in Hf. apply andb_true_iff in Hf as [Hl Hr].
    destruct q as [|b q]; simpl; [lia|]. simpl in Hs.
    destruct b; [specialize (IH r q Hr Hs)|specialize (IH l q Hl Hs)]; lia.
Qed.

Lemma fits_Empty n : fits n (@Empty V) = true.
Proof. by destruct n. Qed.

Lemma fits_set_key n p v t :
  (length p ≤ n)%nat → fits n t = true → fits n (set_key p v t) = true.
Proof.
  revert p t. induction n as [|n IH]; intros p t Hp Hf.
  - destruct p; [|simpl in Hp; lia]. by destruct t.
  - destruct p as [|b p].
    + by destruct t.
    + simpl in Hp. assert (length p ≤ n)%nat as Hp' by lia.
      destruct t as [|tg l r].
      * destruct b; cbn [set_key tag_of child fits]; rewrite IH by (done || apply fits_Empty);
          by rewrite ?fits_Empty.
      * cbn [fits] in Hf. apply andb_true_iff in Hf as [Hl Hr].
        destruct b; cbn [set_key tag_of child fits]; rewrite IH by done; by rewrite ?Hl, ?Hr.
Qed.

End TreeFacts.

(** ** Bytes and bits *)

Lemma range_all_spec (P : Z → bool) (z : Z) (n : nat) :
  range_all P z n = true → ∀ x, z ≤ x < z + Z.of_nat n → P x = true.
Proof.
  revert z. induction n as [|n IH]; intros z H x Hx; [lia|].
  simpl in H. apply andb_true_iff in H as [Hz H].
  destruct (decide (x = z)) as [->|]; [done|]. apply (IH (z + 1)); [done|lia].
Qed.

Lemma forallb_below (P : Z → bool) (n : Z) :
  range_all P 0 (Z.to_nat n) = true → ∀ z, 0 ≤ z < n → P z = true.
Proof. intros H z Hz. apply (range_all_spec P 0 (Z.to_nat n)); [done|lia]. Qed.

Lemma length_byte_bits b : length (byte_bits b) = 8%nat.
Proof. done. Qed.

Lemma length_bits_of_bytes p : length (bits_of_bytes p) = (8 * length p)%nat.
Proof.
  unfold bits_of_bytes. induction p as [|b p IH]; [done|].
  cbn [map concat]. rewrite length_app, IH, length_byte_bits. simpl. lia.
Qed.

Lemma Z_of_byte_bits b : is_byte b → Z_of_bits (byte_bits b) 0 = b.
Proof.
  intros Hb. apply Z.eqb_eq.
  apply (forallb_below (λ b, Z_of_bits (byte_bits b) 0 =? b) 256); [by vm_compute|done].
Qed.

Lemma byte_bits_Z_of_bits bs : length bs = 8%nat → byte_bits (Z_of_bits bs 0) = bs.
Proof.
  intros H. do 8 (destruct bs as [|[] bs]; [done| |]); destruct bs; try done.
Qed.

Lemma is_byte_Z_of_bits bs : length bs = 8%nat → is_byte (Z_of_bits bs 0).
Proof.
  intros H. do 8 (destruct bs as [|[] bs]; [done| |]); destruct bs; try done; vm_compute; split; congruence.
Qed.

Lemma bytes_of_bits_of_bytes p :
  is_bytes p → bytes_of_bits (length p) (bits_of_bytes p) = p.
Proof.
  induction 1 as [|b p Hb Hp IH]; [done|].
  unfold bits_of_bytes. cbn [map concat length bytes_of_bits].
  rewrite take_app_length' by done. rewrite drop_app_length' by done.
  f_equal; [by apply Z_of_byte_bits|apply IH].
Qed.

Lemma bits_of_bytes_of_bits n bs :
  length bs = (8 * n)%nat → bits_of_bytes (bytes_of_bits n bs) = bs.
Proof.
  revert bs. induction n as [|n IH]; intros bs Hlen.
  - by destruct bs.
  - cbn [bytes_of_bits]. unfold bits_of_bytes in *. cbn [map concat].
    rewrite byte_bits_Z_of_bits by (rewrite length_take; lia).
    rewrite IH by (rewrite length_drop; lia). apply take_drop.
Qed.

Lemma is_bytes_bytes_of_bits n bs :
  length bs = (8 * n)%nat → is_bytes (bytes_of_bits n bs).
Proof.
  revert bs. induction n as [|n IH]; intros bs Hlen; cbn [bytes_of_bits].
  - constructor.
  - constructor; [apply is_byte_Z_of_bits; rewrite length_take; lia|].
    apply IH. rewrite length_drop; lia.
Qed.

Lemma length_bytes_of_bits n bs : length (bytes_of_bits n bs) = n.
Proof. revert bs. induction n; intros; simpl; by f_equal. Qed.

Lemma key_of_address_of q : (length q ≤ 128)%nat → key_of (address_of q) = q.
Proof.
  intros Hq. unfold key_of, address_of. cbn [Address Length].
  rewrite bits_of_bytes_of_bits by (rewrite length_app, length_replicate; lia).
  rewrite Nat2Z.id. by rewrite take_app_length.
Qed.

(** ** Numbers in text *)

Lemma app_nil_l_s (s : string) : "" +:+ s = s.
Proof. done. Qed.
Lemma app_cons_s c (s1 s2 : string) : String.String c s1 +:+ s2 = String.String c (s1 +:+ s2).
Proof. done. Qed.
Lemma app_assoc_s (s1 s2 s3 : string) : (s1 +:+ s2) +:+ s3 = s1 +:+ (s2 +:+ s3).
Proof. induction s1 as [|c s1 IH]; [done|]. rewrite !app_cons_s. by f_equal. Qed.
Lemma app_nil_r_s (s : string) : s +:+ "" = s.
Proof. induction s as [|c s IH]; [done|]. rewrite app_cons_s. by f_equal. Qed.
Lemma length_app_s (s1 s2 : string) :
  String.length (s1 +:+ s2) = (String.length s1 + String.length s2)%nat.
Proof. induction s1 as [|c s1 IH]; [done|]. rewrite app_cons_s. simpl. by f_equal. Qed.
Lemma drop_app_s (s1 s2 : string) : str.drop (String.length s1) (s1 +:+ s2) = s2.
Proof. induction s1 as [|c s1 IH]; [by destruct s2|]. by rewrite app_cons_s. Qed.
Lemma all_app P (s1 s2 : string) : all P (s1 +:+ s2) = all P s1 && all P s2.
Proof. induction s1 as [|c s1 IH]; [done|]. rewrite app_cons_s. simpl. rewrite IH. by destruct (P c). Qed.
Lemma all_drop P n s : all P s = true → all P (str.drop n s) = true.
Proof.
  revert s. induction n as [|n IH]; intros s; [by destruct s|].
  destruct s as [|c s]; [done|]. simpl. intros [_ ?]%andb_true_iff. by apply IH.
Qed.
Lemma all_impl (P Q : ascii → bool) s :
  (∀ c, P c = true → Q c = true) → all P s = true → all Q s = true.
Proof.
  intros HPQ. induction s as [|c s IH]; [done|]. simpl.
  intros [? ?]%andb_true_iff. rewrite HPQ, IH; done.
Qed.

Lemma dec_digit_bounds c : is_dec c = true → 0 ≤ str.code c - 48 ≤ 9.
Proof. unfold is_dec. intros [? ?]%andb_true_iff. lia. Qed.

Lemma hex_digit_bounds c : is_hex c = true → 0 ≤ hex_digit c ≤ 15.
Proof.
  unfold is_hex, hex_digit, is_dec, is_hex_lower, is_hex_upper.
  intros H. repeat case_match; lia.
Qed.

Lemma dec_val_ge s n : all is_dec s = true → 0 ≤ n → n ≤ dec_val s n.
Proof.
  revert n. induction s as [|c s IH]; intros n; simpl; [lia|].
  intros [Hc Hs]%andb_true_iff Hn. apply dec_digit_bounds in Hc.
  etrans; [|apply IH]; [lia|done|lia].
Qed.

Lemma hex_val_ge s n : all is_hex s = true → 0 ≤ n → n ≤ hex_val s n.
Proof.
  revert n. induction s as [|c s IH]; intros n; simpl; [lia|].
  intros [Hc Hs]%andb_true_iff Hn. apply hex_digit_bounds in Hc.
  etrans; [|apply IH]; [lia|done|lia].
Qed.

Lemma dtoi_from_stops rest n i :
  stops is_dec rest = true →
  dtoi_from rest n i = if (i =? 0)%nat then (0, 0%nat, false) else (n, i, true).
Proof. destruct rest as [|c rest]; simpl; [done|]. by intros ->%negb_true_iff. Qed.

Lemma dtoi_from_app s rest n i :
  all is_dec s = true → 0 ≤ n → dec_val s n < big →
  dtoi_from (s +:+ rest) n i = dtoi_from rest (dec_val s n) (i + String.length s).
Proof.
  revert n i. induction s as [|c s IH]; intros n i Hs Hn Hv.
  - simpl. by rewrite Nat.add_0_r.
  - rewrite app_cons_s. simpl in *. apply andb_true_iff in Hs as [Hc Hs].
    rewrite Hc. pose proof (dec_digit_bounds _ Hc).
    pose proof (dec_val_ge s (n * 10 + (str.code c - 48)) Hs ltac:(lia)).
    destruct (Z.leb_spec big (n * 10 + (str.code c - 48))); [unfold big in *; lia|].
    rewrite IH by (done || lia). f_equal. lia.
Qed.

Lemma dtoi_app s rest :
  s ≠ EmptyString → all is_dec s = true → dec_val s 0 < big → stops is_dec rest = true →
  dtoi (s +:+ rest) = (dec_val s 0, String.length s, true).
Proof.
  intros Hne Hs Hv Hr. unfold dtoi. rewrite dtoi_from_app by (done || lia).
  rewrite dtoi_from_stops by done. destruct s; [done|]. done.
Qed.

Lemma xtoi_from_stops rest n i :
  stops is_hex rest = true →
  xtoi_from rest n i = if (i =? 0)%nat then (0, i, false) else (n, i, true).
Proof.
  destruct rest as [|c rest]; simpl; [done|]. unfold is_hex.
  intros H%negb_true_iff. apply orb_false_iff in H as [H ?].
  apply orb_false_iff in H as [? ?]. by repeat case_match.
Qed.

Lemma xtoi_from_app s rest n i :
  all is_hex s = true → 0 ≤ n → hex_val s n < big →
  xtoi_from (s +:+ rest) n i = xtoi_from rest (hex_val s n) (i + String.length s).
Proof.
  revert n i. induction s as [|c s IH]; intros n i Hs Hn Hv.
  - simpl. by rewrite Nat.add_0_r.
  - rewrite app_cons_s. simpl in Hs, Hv. apply andb_true_iff in Hs as [Hc Hs].
    pose proof (hex_digit_bounds _ Hc).
    pose proof (hex_val_ge s (n * 16 + hex_digit c) Hs ltac:(lia)).
    cbn [xtoi_from].
    assert ((if is_dec c then Some (str.code c - 48)
             else if is_hex_lower c then Some (str.code c - 97 + 10)
             else if is_hex_upper c then Some (str.code c - 65 + 10) else None)
            = Some (hex_digit c)) as ->.
    { unfold is_hex, hex_digit in *. repeat case_match; done. }
    destruct (Z.leb_spec big (n * 16 + hex_digit c)); [unfold big in *; lia|].
    rewrite IH by (done || lia). cbn [hex_val String.length]. f_equal. lia.
Qed.

Lemma xtoi_app s rest :
  s ≠ EmptyString → all is_hex s = true → hex_val s 0 < big → stops is_hex rest = true →
  xtoi (s +:+ rest) = (hex_val s 0, String.length s, true).
Proof.
  intros Hne Hs Hv Hr. unfold xtoi. rewrite xtoi_from_app by (done || lia).
  rewrite xtoi_from_stops by done. destruct s; [done|]. done.
Qed.

Lemma ubtoa_ok v : is_byte v → dec_ok v (ubtoa v) = true.
Proof. apply (forallb_below (λ v, dec_ok v (ubtoa v)) 256). by vm_compute. Qed.

Lemma uitoa_ok v : 0 ≤ v < 256 → dec_ok v (uitoa v) = true.
Proof. apply (forallb_below (λ v, dec_ok v (uitoa v)) 256). by vm_compute. Qed.

Lemma appendHex_ok v : 0 ≤ v < 65536 → hex_ok v (appendHex v) = true.
Proof. apply (forallb_below (λ v, hex_ok v (appendHex v)) 65536). by vm_compute. Qed.

(** ** Dotted-decimal addresses *)

Lemma dec_ok_elim v s :
  dec_ok v s = true →
  s ≠ EmptyString ∧ all is_dec s = true ∧ dec_val s 0 = v
  ∧ ((1 <? String.length s)%nat && str.at_is s 0 "0") = false
  ∧ hex_val s 0 ≤ 0xFFFF ∧ (String.length s ≤ 3)%nat.
Proof.
  unfold dec_ok. rewrite !andb_true_iff, !negb_true_iff.
  intros [[[[[H1 H2] H3] H4] H5] H6]. repeat split; try done.
  - by intros ->.
  - lia.
  - lia.
  - by apply Nat.leb_le.
Qed.

Lemma length_0_app (s1 s2 : string) :
  s1 ≠ EmptyString → (String.length (s1 +:+ s2) =? 0)%nat = false.
Proof. by destruct s1. Qed.

Lemma at_is_0_app (s1 s2 : string) c :
  s1 ≠ EmptyString → str.at_is (s1 +:+ s2) 0 c = str.at_is s1 0 c.
Proof. by destruct s1. Qed.

Lemma is_dec_is_hex c : is_dec c = true → is_hex c = true.
Proof. unfold is_hex. by intros ->. Qed.

Lemma cut_app c (s1 s2 : string) :
  all (λ x, negb (Ascii.eqb x c)) s1 = true →
  str.cut c (s1 +:+ String.String c s2) = Some (s1, s2).
Proof.
  induction s1 as [|x s1 IH]; intros H.
  - simpl. by rewrite Ascii.eqb_refl.
  - rewrite app_cons_s. simpl in *. apply andb_true_iff in H as [Hx H].
    apply negb_true_iff in Hx. rewrite Hx, IH; done.
Qed.

Lemma parseIPv4_loop_first k v s rest :
  dec_ok v s = true → v ≤ 0xFF → stops is_dec rest = true →
  parseIPv4_loop (S k) (s +:+ rest) [] = parseIPv4_loop k rest [v].
Proof.
  intros (Hne & Hd & Hv & Hz & _ & Hl)%dec_ok_elim Hb Hr.
  cbn [parseIPv4_loop]. rewrite length_0_app by done.
  change (0 <? length (@nil Z))%nat with false. cbn [andb].
  rewrite dtoi_app; [|done|done| |done].
  2:{ rewrite Hv. unfold big. lia. }
  rewrite Hv. cbn [negb orb]. destruct (Z.ltb_spec 255 v); [lia|].
  rewrite at_is_0_app by done. rewrite Hz. by rewrite drop_app_s.
Qed.

Lemma parseIPv4_loop_next k v s rest p :
  p ≠ [] → dec_ok v s = true → v ≤ 0xFF → stops is_dec rest = true →
  parseIPv4_loop (S k) ("." +:+ s +:+ rest) p = parseIPv4_loop k rest (p ++ [v]).
Proof.
  intros Hp (Hne & Hd & Hv & Hz & _ & Hl)%dec_ok_elim Hb Hr.
  cbn [parseIPv4_loop]. rewrite length_0_app by done.
  assert ((0 <? length p)%nat = true) as -> by (destruct p; done).
  change (str.at_is ("." +:+ s +:+ rest) 0 ".") with true.
  change (str.drop 1 ("." +:+ s +:+ rest)) with (s +:+ rest). cbn [negb andb].
  rewrite dtoi_app; [|done|done| |done].
  2:{ rewrite Hv. unfold big. lia. }
  rewrite Hv. cbn [negb orb]. destruct (Z.ltb_spec 255 v); [lia|].
  rewrite at_is_0_app by done. rewrite Hz. by rewrite drop_app_s.
Qed.

Lemma parseIPv4_string4 a b c d :
  is_byte a → is_byte b → is_byte c → is_byte d →
  parseIPv4 (string4 [a; b; c; d]) = IPv4 a b c d.
Proof.
  intros Ha Hb Hc Hd. unfold parseIPv4, string4.
  change (at_ [a; b; c; d] 0) with a. change (at_ [a; b; c; d] 1) with b.
  change (at_ [a; b; c; d] 2) with c. change (at_ [a; b; c; d] 3) with d.
  rewrite (parseIPv4_loop_first _ a); [|by apply ubtoa_ok|unfold is_byte in *; lia|done].
  rewrite (parseIPv4_loop_next _ b); [|done|by apply ubtoa_ok|unfold is_byte in *; lia|done].
  rewrite (parseIPv4_loop_next _ c); [|done|by apply ubtoa_ok|unfold is_byte in *; lia|done].
  rewrite <-(app_nil_r_s (ubtoa d)).
  rewrite (parseIPv4_loop_next _ d); [|done|by apply ubtoa_ok|unfold is_byte in *; lia|done].
  done.
Qed.

(** A string without a dot is not an IPv4 address. *)
Lemma parseIPv4_no_dot s :
  all (λ c, negb (Ascii.eqb c ".")) s = true → parseIPv4 s = [].
Proof.
  intros Hs. unfold parseIPv4. cbn [parseIPv4_loop].
  destruct (String.length s =? 0)%nat; [done|].
  change (0 <? length (@nil Z))%nat with false. cbn [andb].
  destruct (dtoi s) as [[n c] ok]. destruct (negb ok || (255 <? n)); [done|].
  destruct ((1 <? c)%nat && str.at_is s 0 "0"); [done|].
  pose proof (all_drop _ c _ Hs) as Hd. destruct (str.drop c s) as [|x r]; [done|].
  simpl in Hd. apply andb_true_iff in Hd as [Hx _]. apply negb_true_iff in Hx.
  cbn [parseIPv4_loop String.length Nat.eqb].
  change (0 <? length ([] ++ [n]))%nat with true.
  unfold str.at_is. cbn [str.at_]. by rewrite Hx.
Qed.

(** ** IPv6 text: the printer and the parser, step by step *)

Ltac zlia := Z.div_mod_to_equations; lia.

Lemma print6_tail6 fuel p e0 e1 i b :
  print6 fuel p e0 e1 i b = b +:+ tail6 fuel p e0 e1 i.
Proof.
  revert i b. induction fuel as [|fuel IH]; intros i b; cbn [print6 tail6].
  - by rewrite app_nil_r_s.
  - destruct (negb (i <? Z.of_nat IPv6len)); [by rewrite app_nil_r_s|].
    destruct (i =? e0).
    + destruct (Z.of_nat IPv6len <=? e1); [by rewrite app_nil_r_s|].
      rewrite IH. fold (grp p e1). by rewrite !app_assoc_s.
    + rewrite IH. fold (grp p i). destruct (0 <? i); by rewrite ?app_assoc_s.
Qed.

Lemma zeros_end_spec fuel p j :
  0 ≤ j ≤ 16 → j mod 2 = 0 →
  let j' := zeros_end fuel p j in
  j ≤ j' ≤ 16 ∧ j' mod 2 = 0 ∧ ∀ k, j ≤ k < j' → at_ p k = 0.
Proof.
  revert j. induction fuel as [|fuel IH]; intros j Hj He; cbn [zeros_end].
  - repeat split; try lia.
  - destruct ((j <? Z.of_nat IPv6len) && (at_ p j =? 0) && (at_ p (j + 1) =? 0)) eqn:E.
    + apply andb_true_iff in E as [E E3]. apply andb_true_iff in E as [E1 E2].
      unfold IPv6len in E1. apply Z.ltb_lt in E1. apply Z.eqb_eq in E2, E3.
      destruct (IH (j + 2)) as (H1 & H2 & H3); [zlia|zlia|].
      repeat split; try lia. intros k Hk.
      destruct (decide (k = j)) as [->|]; [lia|].
      destruct (decide (k = j + 1)) as [->|]; [lia|]. apply H3. lia.
    + repeat split; try lia.
Qed.

Lemma longest_zeros_spec fuel p i e0 e1 :
  0 ≤ i → i mod 2 = 0 → zero_run p e0 e1 →
  zero_run p (longest_zeros fuel p i e0 e1).1 (longest_zeros fuel p i e0 e1).2.
Proof.
  revert i e0 e1. induction fuel as [|fuel IH]; intros i e0 e1 Hi He Hr; cbn [longest_zeros]; [done|].
  destruct (Z.ltb_spec i (Z.of_nat IPv6len)) as [Hlt|]; cbn [negb]; [|done].
  unfold IPv6len in Hlt.
  destruct (zeros_end_spec 8 p i) as (H1 & H2 & H3); [lia|done|].
  destruct ((i <? zeros_end 8 p i) && (e1 - e0 <? zeros_end 8 p i - i)) eqn:E.
  - apply andb_true_iff in E as [E1 E2]. apply Z.ltb_lt in E1. apply IH; [lia|zlia|].
    right. repeat split; try lia. done.
  - apply IH; [lia|zlia|done].
Qed.

Lemma grp_bytes a b :
  is_byte a → is_byte b →
  let g := Z.lor (Z.shiftl a 8) b in
  0 ≤ g < 65536 ∧ Z.shiftr g 8 mod 256 = a ∧ g mod 256 = b.
Proof.
  unfold is_byte. intros Ha Hb.
  assert (Z.land (Z.shiftl a 8) b = 0) as Hl.
  { apply Z.bits_inj'. intros n Hn. rewrite Z.land_spec, Z.bits_0.
    destruct (Z.lt_ge_cases n 8).
    - by rewrite Z.shiftl_spec_low.
    - rewrite (Z.bits_above_log2 b n); [by rewrite andb_false_r|lia|].
      destruct (decide (b = 0)) as [->|]; [simpl; lia|].
      apply Z.log2_lt_pow2; [lia|]. apply Z.lt_le_trans with (2 ^ 8); [lia|].
      apply Z.pow_le_mono_r; lia. }
  pose proof (Z.add_lor_land (Z.shiftl a 8) b) as Hs. rewrite Hl in Hs.
  pose proof (Z.shiftl_mul_pow2 a 8 ltac:(lia)) as Hsh. change (2 ^ 8) with 256 in Hsh.
  cbn zeta. rewrite Z.shiftr_div_pow2 by lia. change (2 ^ 8) with 256.
  assert (Z.lor (Z.shiftl a 8) b = a * 256 + b) as -> by lia.
  repeat split; try lia.
  - rewrite Z.div_add_l by lia. rewrite (Z.div_small b) by lia. rewrite Z.add_0_r.
    apply Z.mod_small. lia.
  - rewrite Z.add_comm, Z.mod_add by lia. apply Z.mod_small. lia.
Qed.

Lemma hex_ok_elim v s :
  hex_ok v s = true → s ≠ EmptyString ∧ all is_hexl s = true ∧ hex_val s 0 = v.
Proof.
  unfold hex_ok. rewrite !andb_true_iff, !negb_true_iff.
  intros [[H1 H2] H3]. repeat split; [by intros ->|done|lia].
Qed.

Lemma is_hexl_is_hex c : is_hexl c = true → is_hex c = true.
Proof. unfold is_hexl, is_hex. by intros ->. Qed.

Lemma hexl_head_not_colon s rest :
  s ≠ EmptyString → all is_hexl s = true → str.at_is (s +:+ rest) 0 ":" = false.
Proof.
  destruct s as [|c s]; [done|]. intros _ [Hc _]%andb_true_iff.
  rewrite app_cons_s. unfold str.at_is. cbn [str.at_].
  destruct (Ascii.eqb_spec c ":") as [->|]; done.
Qed.

Lemma at_is_app_length (s1 s2 : string) c :
  str.at_is (s1 +:+ s2) (String.length s1) c = str.at_is s2 0 c.
Proof. induction s1 as [|x s1 IH]; [done|]. rewrite app_cons_s. done. Qed.

(** One turn of the loop of [parseIPv6] on a group, and what follows it. *)
Section Step.
Context (fp : nat) (g : Z) (h : string) (e : Z) (ip : list Z).
Context (Hg : g ≤ 0xFFFF) (Hh : hex_ok g h = true) (Hip : (length ip < 16)%nat).

Let ip' := ip ++ [Z.shiftr g 8 mod 256; g mod 256].

Lemma step_head rest :
  stops is_hex rest = true → str.at_is rest 0 "." = false →
  parseIPv6_loop (S fp) (h +:+ rest) e ip =
  (if (String.length rest =? 0)%nat then Some (ip', rest, e)
   else if negb (str.at_is rest 0 ":") || (String.length rest =? 1)%nat then None
   else
     let s := str.drop 1 rest in
     if str.at_is s 0 ":" then
       if 0 <=? e then None
       else
         let ellipsis := Z.of_nat (length ip') in
         let s := str.drop 1 s in
         if (String.length s =? 0)%nat then Some (ip', s, ellipsis)
         else parseIPv6_loop fp s ellipsis ip'
     else parseIPv6_loop fp s e ip').
Proof using Hg Hh Hip.
  intros Hr Hdot. destruct (hex_ok_elim _ _ Hh) as (Hne & Hall & Hv).
  cbn [parseIPv6_loop].
  destruct (Z.ltb_spec (Z.of_nat (length ip)) (Z.of_nat IPv6len)) as [_|]; [|unfold IPv6len in *; lia].
  cbn [negb]. rewrite xtoi_app; [|done|by eapply all_impl; [apply is_hexl_is_hex|]| |done].
  2:{ rewrite Hv. unfold big. lia. }
  rewrite Hv. cbn [negb orb]. destruct (Z.ltb_spec 65535 g) as [|_]; [lia|].
  rewrite at_is_app_length, Hdot, andb_false_r. rewrite drop_app_s. done.
Qed.

Lemma step_end : parseIPv6_loop (S fp) h e ip = Some (ip', EmptyString, e).
Proof using Hg Hh Hip. rewrite <-(app_nil_r_s h) at 1. by rewrite step_head. Qed.

Lemma step_colon h' rest :
  h' ≠ EmptyString → all is_hexl h' = true →
  parseIPv6_loop (S fp) (h +:+ ":" +:+ h' +:+ rest) e ip = parseIPv6_loop fp (h' +:+ rest) e ip'.
Proof using Hg Hh Hip.
  intros Hne' Hall'. rewrite step_head by done.
  change (str.drop 1 (":" +:+ h' +:+ rest)) with (h' +:+ rest).
  change (String.length (":" +:+ h' +:+ rest)) with (S (String.length (h' +:+ rest))).
  cbn [String.length Nat.eqb]. change (str.at_is (":" +:+ h' +:+ rest) 0 ":") with true.
  cbn [negb orb]. rewrite length_0_app by done. cbv zeta.
  by rewrite hexl_head_not_colon.
Qed.

Lemma step_ellipsis_end :
  e < 0 →
  parseIPv6_loop (S fp) (h +:+ "::") e ip = Some (ip', EmptyString, Z.of_nat (length ip')).
Proof using Hg Hh Hip.
  intros He. rewrite step_head by done. cbn.
  destruct (Z.leb_spec 0 e); [lia|done].
Qed.

Lemma step_ellipsis h' rest :
  e < 0 → h' ≠ EmptyString → all is_hexl h' = true →
  parseIPv6_loop (S fp) (h +:+ "::" +:+ h' +:+ rest) e ip
  = parseIPv6_loop fp (h' +:+ rest) (Z.of_nat (length ip')) ip'.
Proof using Hg Hh Hip.
  intros He Hne' Hall'. rewrite step_head by done.
  change (str.drop 1 ("::" +:+ h' +:+ rest)) with (":" +:+ h' +:+ rest).
  change (String.length ("::" +:+ h' +:+ rest)) with (S (S (String.length (h' +:+ rest)))).
  cbn [String.length Nat.eqb]. change (str.at_is ("::" +:+ h' +:+ rest) 0 ":") with true.
  cbn [negb orb]. cbv zeta.
  change (str.at_is (":" +:+ h' +:+ rest) 0 ":") with true. cbv iota.
  destruct (Z.leb_spec 0 e); [lia|].
  change (str.drop 1 (":" +:+ h' +:+ rest)) with (h' +:+ rest).
  by rewrite length_0_app.
Qed.
End Step.

Lemma at_lookup (p : list Z) (i : nat) x : p !! i = Some x → at_ p (Z.of_nat i) = x.
Proof. intros H. unfold at_. rewrite Nat2Z.id, nth_lookup, H. done. Qed.

Lemma at_is_byte p i : is_bytes p → is_byte (at_ p i).
Proof.
  intros Hp. unfold at_. rewrite nth_lookup.
  destruct (p !! Z.to_nat i) as [x|] eqn:E; simpl.
  - by eapply (Forall_lookup_1 _ _ _ _ Hp).
  - unfold is_byte. lia.
Qed.

Lemma take_two (p : list Z) (i : Z) :
  0 ≤ i → i + 2 ≤ Z.of_nat (length p) →
  take (Z.to_nat (i + 2)) p = take (Z.to_nat i) p ++ [at_ p i; at_ p (i + 1)].
Proof.
  intros Hi Hl.
  replace (Z.to_nat (i + 2)) with (S (S (Z.to_nat i))) by lia.
  destruct (lookup_lt_is_Some_2 p (Z.to_nat i)) as [x Hx]; [lia|].
  destruct (lookup_lt_is_Some_2 p (S (Z.to_nat i))) as [y Hy]; [lia|].
  rewrite (take_S_r _ _ y) by done. rewrite (take_S_r _ _ x) by done.
  rewrite <-app_assoc. simpl. do 3 f_equal.
  - symmetry. rewrite <-(Z2Nat.id i) by lia. by apply at_lookup.
  - symmetry. replace (i + 1) with (Z.of_nat (S (Z.to_nat i))) by lia. by apply at_lookup.
Qed.

Lemma zeros_between (p : list Z) (a b : nat) :
  (a ≤ b ≤ length p)%nat →
  (∀ k, Z.of_nat a ≤ k < Z.of_nat b → at_ p k = 0) →
  take a p ++ replicate (b - a) 0 ++ drop b p = p.
Proof.
  intros Hab Hz. rewrite <-(take_drop a p) at 3. f_equal.
  rewrite <-(take_drop (b - a) (drop a p)). rewrite drop_drop.
  replace (a + (b - a))%nat with b by lia. f_equal.
  apply list_eq. intros i. destruct (decide (i < b - a)%nat) as [Hi|Hi].
  - rewrite lookup_replicate_2 by done. rewrite lookup_take_lt by done. rewrite lookup_drop.
    destruct (lookup_lt_is_Some_2 p (a + i)) as [x Hx]; [lia|]. rewrite Hx. f_equal.
    rewrite <-(at_lookup _ _ _ Hx). symmetry. apply Hz. lia.
  - rewrite lookup_ge_None_2 by (rewrite length_replicate; lia).
    symmetry. apply lookup_ge_None_2. rewrite length_take, length_drop. lia.
Qed.

Lemma grp_ok p i : is_bytes p → 0 ≤ grp p i ≤ 0xFFFF ∧ hex_ok (grp p i) (appendHex (grp p i)) = true
  ∧ Z.shiftr (grp p i) 8 mod 256 = at_ p i ∧ grp p i mod 256 = at_ p (i + 1).
Proof.
  intros Hp. destruct (grp_bytes (at_ p i) (at_ p (i + 1))) as (H1 & H2 & H3); [by apply at_is_byte..|].
  fold (grp p i) in H1, H2, H3 |- *. repeat split; try done; try lia. apply appendHex_ok. lia.
Qed.

Lemma sim_A p i :
  is_bytes p → length p = 16%nat → 0 ≤ i < 16 → i mod 2 = 0 →
  take (Z.to_nat i) p ++ [Z.shiftr (grp p i) 8 mod 256; grp p i mod 256]
  = take (Z.to_nat (i + 2)) p.
Proof.
  intros Hp Hlen Hi Hev. destruct (grp_ok p i Hp) as (_ & _ & -> & ->). rewrite take_two; [done|lia|zlia].
Qed.

Section Sim.
Context (p : list Z) (e0 e1 : Z).
Context (Hp : is_bytes p) (Hlen : length p = 16%nat).
Context (Hrun : (e0 = -1 ∧ e1 = -1) ∨
                (0 ≤ e0 ∧ e0 + 4 ≤ e1 ≤ 16 ∧ e0 mod 2 = 0 ∧ e1 mod 2 = 0)).

Lemma sim_B i :
  0 ≤ i < 16 → i mod 2 = 0 → 0 ≤ e1 ≤ i →
  (take (Z.to_nat e0) p ++ drop (Z.to_nat e1) (take (Z.to_nat i) p))
    ++ [Z.shiftr (grp p i) 8 mod 256; grp p i mod 256]
  = take (Z.to_nat e0) p ++ drop (Z.to_nat e1) (take (Z.to_nat (i + 2)) p).
Proof using All.
  intros Hi Hev He. rewrite <-sim_A by done.
  rewrite drop_app_le by (rewrite length_take; lia). by rewrite <-app_assoc.
Qed.

Lemma sim f : ∀ fp i e ip,
  0 ≤ i < 16 → i mod 2 = 0 → 16 - (i + 2) ≤ 2 * Z.of_nat f → 16 - i ≤ 2 * Z.of_nat fp →
  (e = -1 ∧ ip = take (Z.to_nat i) p ∧ (e0 = -1 ∨ i < e0))
  ∨ (e = e0 ∧ 0 ≤ e0 ∧ e1 ≤ i ∧ ip = take (Z.to_nat e0) p ++ drop (Z.to_nat e1) (take (Z.to_nat i) p)) →
  parseIPv6_loop fp (appendHex (grp p i) +:+ tail6 f p e0 e1 (i + 2)) e ip
  = Some (final6 p e0 e1, EmptyString, e0).
Proof using All.
  assert (∀ fp i e ip, i = 14 →
    (e = -1 ∧ ip = take (Z.to_nat i) p ∧ (e0 = -1 ∨ i < e0))
    ∨ (e = e0 ∧ 0 ≤ e0 ∧ e1 ≤ i ∧ ip = take (Z.to_nat e0) p ++ drop (Z.to_nat e1) (take (Z.to_nat i) p)) →
    parseIPv6_loop (S fp) (appendHex (grp p i)) e ip = Some (final6 p e0 e1, EmptyString, e0)) as Hlast.
  { intros fp i e ip -> Hst. destruct (grp_ok p 14 Hp) as (Hg & Hh & Hhi & Hlo).
    unfold final6. destruct Hst as [(-> & -> & He)|(-> & ? & ? & ->)].
    - rewrite (step_end _ (grp p 14)) by (done || rewrite ?length_take; lia). rewrite sim_A by done.
      assert (e0 = -1) as -> by lia. do 3 f_equal. rewrite take_ge; [done|lia].
    - rewrite (step_end _ (grp p 14)) by (done || rewrite ?length_app, ?length_drop, ?length_take; lia).
      rewrite sim_B by (done || lia).
      destruct (Z.ltb_spec e0 0); [lia|]. do 4 f_equal. rewrite take_ge; [done|lia]. }
  induction f as [|f IH]; intros fp i e ip Hi Hev Hf Hfp Hst.
  all: destruct fp as [|fp]; [lia|].
  - cbn [tail6]. rewrite app_nil_r_s. apply Hlast; [zlia|done].
  - cbn [tail6]. destruct (Z.ltb_spec (i + 2) (Z.of_nat IPv6len)) as [Hlt|Hge]; cbn [negb].
    2:{ rewrite app_nil_r_s. apply Hlast; [unfold IPv6len in *; zlia|done]. }
    unfold IPv6len in Hlt.
    destruct (grp_ok p i Hp) as (Hg & Hh & Hhi & Hlo).
    assert (length ip < 16)%nat as Hip
      by (destruct Hst as [(_ & -> & _)|(_ & ? & ? & ->)];
          rewrite ?length_app, ?length_drop, ?length_take; lia).
    destruct (Z.eqb_spec (i + 2) e0) as [Heq|Hne].
    + (* the ellipsis follows *)
      destruct Hst as [(-> & -> & He)|(-> & ? & ? & ->)]; [|lia].
      destruct Hrun as [[? ?]|(Hr1 & Hr2 & Hr3 & Hr4)]; [lia|].
      destruct (Z.leb_spec (Z.of_nat IPv6len) e1) as [Hge|Hlt1]; unfold IPv6len in *.
      * change ("::" +:+ "") with "::"%string.
        rewrite (step_ellipsis_end _ (grp p i)) by (done || lia). rewrite sim_A by done.
        rewrite length_take, Hlen. unfold final6.
        destruct (Z.ltb_spec e0 0); [lia|]. rewrite drop_ge by lia. rewrite app_nil_r.
        rewrite Heq. do 2 f_equal. lia.
      * destruct (grp_ok p e1 Hp) as (Hg1 & Hh1 & _).
        destruct (hex_ok_elim _ _ Hh1) as (Hne1 & Hall1 & _).
        rewrite (step_ellipsis _ (grp p i)) by (done || lia). rewrite sim_A by done.
        rewrite length_take, Hlen.
        replace (Z.of_nat (Z.to_nat (i + 2) `min` 16)) with e0 by lia.
        apply IH; [lia|done|lia|lia|]. right. repeat split; try lia.
        rewrite Heq. rewrite drop_ge by (rewrite length_take; lia). by rewrite app_nil_r.
    + destruct (Z.ltb_spec 0 (i + 2)) as [_|]; [|lia].
      destruct (grp_ok p (i + 2) Hp) as (Hg1 & Hh1 & _).
      destruct (hex_ok_elim _ _ Hh1) as (Hne1 & Hall1 & _).
      rewrite (step_colon _ (grp p i)) by (done || lia).
      replace (i + 2 + 2) with ((i + 2) + 2) by lia.
      apply IH; [lia|zlia|lia|lia|].
      destruct Hst as [(-> & -> & He)|(-> & ? & ? & ->)].
      * left. rewrite sim_A by done. repeat split; try done.
        destruct Hrun as [[? ?]|(Hr1 & Hr2 & Hr3 & Hr4)]; [by left|].
        right. destruct He; [lia|]. zlia.
      * right. rewrite sim_B by (done || lia). repeat split; try done; lia.
Qed.
End Sim.

Lemma string6_tail6 p : string6 p = tail6 8 p (run6 p).1 (run6 p).2 0.
Proof.
  unfold string6, run6. destruct (longest_zeros 8 p 0 (-1) (-1)) as [e0 e1].
  destruct (e1 - e0 <=? 2); by rewrite print6_tail6.
Qed.

Lemma run6_spec p :
  let '(e0, e1) := run6 p in
  (e0 = -1 ∧ e1 = -1) ∨
  (0 ≤ e0 ∧ e0 + 4 ≤ e1 ≤ 16 ∧ e0 mod 2 = 0 ∧ e1 mod 2 = 0
   ∧ ∀ k, e0 ≤ k < e1 → at_ p k = 0).
Proof.
  unfold run6. pose proof (longest_zeros_spec 8 p 0 (-1) (-1)) as H.
  destruct (longest_zeros 8 p 0 (-1) (-1)) as [e0 e1]. simpl in H.
  destruct H as [[-> ->]|(H1 & H2 & H3 & H4 & H5)]; [lia|done|by left| |].
  - by left.
  - destruct (Z.leb_spec (e1 - e0) 2); [by left|]. right. repeat split; try done; try lia. zlia.
Qed.

Lemma all_tail6 fuel p e0 e1 i :
  is_bytes p → all is_hexcolon (tail6 fuel p e0 e1 i) = true.
Proof.
  intros Hp. revert i. induction fuel as [|fuel IH]; intros i; cbn [tail6]; [done|].
  assert (∀ j, all is_hexcolon (appendHex (grp p j)) = true) as Hgrp.
  { intros j. destruct (grp_ok p j Hp) as (_ & (_ & H & _)%hex_ok_elim & _).
    eapply all_impl; [|done]. intros c Hc. unfold is_hexcolon. by rewrite Hc. }
  destruct (negb (i <? Z.of_nat IPv6len)); [done|]. destruct (i =? e0).
  - rewrite all_app. cbn [all]. change (is_hexcolon ":") with true. cbn [andb].
    destruct (Z.of_nat IPv6len <=? e1); [done|]. by rewrite all_app, Hgrp, IH.
  - rewrite !all_app, Hgrp, IH. by destruct (0 <? i).
Qed.

Lemma all_string6 p : is_bytes p → all is_hexcolon (string6 p) = true.
Proof. intros. rewrite string6_tail6. by apply all_tail6. Qed.

Lemma all_string4 p : is_bytes p → all is_decdot (string4 p) = true.
Proof.
  intros Hp. unfold string4.
  assert (∀ j, all is_decdot (ubtoa (at_ p j)) = true) as H.
  { intros j. destruct (dec_ok_elim _ _ (ubtoa_ok _ (at_is_byte p j Hp))) as (_ & H & _).
    eapply all_impl; [|done]. intros c Hc. unfold is_decdot. by rewrite Hc. }
  by rewrite !all_app, !H.
Qed.

Lemma is_hexcolon_not x :
  is_hexcolon x = false → ∀ c', is_hexcolon c' = true → negb (Ascii.eqb c' x) = true.
Proof. intros Hx c' Hc'. destruct (Ascii.eqb_spec c' x) as [->|]; [congruence|done]. Qed.

Lemma is_decdot_not x :
  is_decdot x = false → ∀ c', is_decdot c' = true → negb (Ascii.eqb c' x) = true.
Proof. intros Hx c' Hc'. destruct (Ascii.eqb_spec c' x) as [->|]; [congruence|done]. Qed.

Lemma tail6_S fuel p e0 e1 i :
  tail6 (S fuel) p e0 e1 i =
  if negb (i <? Z.of_nat IPv6len) then EmptyString
  else if i =? e0 then
    "::" +:+ (if Z.of_nat IPv6len <=? e1 then EmptyString
              else appendHex (grp p e1) +:+ tail6 fuel p e0 e1 (e1 + 2))
  else
    (if 0 <? i then ":" else "") +:+ appendHex (grp p i) +:+ tail6 fuel p e0 e1 (i + 2).
Proof. done. Qed.

(** Printing a 16-byte address in IPv6 form and parsing it gives it back. *)
Lemma parseIPv6_string6 p :
  is_bytes p → length p = 16%nat → parseIPv6 (string6 p) = p.
Proof.
  intros Hp Hlen. rewrite string6_tail6. pose proof (run6_spec p) as Hrun.
  destruct (run6 p) as [e0 e1]. cbn [fst snd].
  assert ((e0 = -1 ∧ e1 = -1) ∨ (0 ≤ e0 ∧ e0 + 4 ≤ e1 ≤ 16 ∧ e0 mod 2 = 0 ∧ e1 mod 2 = 0)) as Hrun'
    by (destruct Hrun as [?|(?&?&?&?&?)]; [by left|by right]).
  rewrite (tail6_S 7). change (negb (0 <? Z.of_nat IPv6len)) with false. cbv iota.
  destruct (Z.eqb_spec 0 e0) as [<-|Hne].
  - (* leading ellipsis *)
    destruct Hrun as [[? ?]|(_ & He1 & _ & Hev & Hz)]; [lia|].
    destruct (Z.leb_spec (Z.of_nat IPv6len) e1) as [Hge|Hlt]; unfold IPv6len in *.
    + change (parseIPv6 ("::" +:+ "")) with (replicate 16 0).
      etrans; [|apply (zeros_between p 0 16); [lia|intros k Hk; apply Hz; lia]].
      rewrite drop_ge by lia. by rewrite app_nil_r.
    + destruct (grp_ok p e1 Hp) as (Hg1 & Hh1 & _).
      destruct (hex_ok_elim _ _ Hh1) as (Hne1 & Hall1 & _).
      unfold parseIPv6.
      set (s := appendHex (grp p e1) +:+ tail6 7 p 0 e1 (e1 + 2)).
      change (str.at_is ("::" +:+ s) 0 ":") with true.
      change (str.at_is ("::" +:+ s) 1 ":") with true.
      change (2 <=? String.length ("::" +:+ s))%nat with true.
      cbn [andb]. change (str.drop 2 ("::" +:+ s)) with s.
      unfold s at 1. rewrite length_0_app by done. unfold s.
      rewrite (sim p 0 e1 Hp Hlen Hrun'); [|lia|done|lia|lia|].
      2:{ right. repeat split; try lia. by rewrite drop_ge by (rewrite length_take; lia). }
      unfold final6. cbn [String.length Nat.eqb negb Z.ltb Z.compare Z.to_nat take app].
      change (Z.to_nat 0) with 0%nat. rewrite !take_0, !drop_0, !app_nil_l. rewrite length_drop, Hlen.
      destruct (Nat.ltb_spec (16 - Z.to_nat e1) IPv6len) as [_|]; [|unfold IPv6len in *; lia].
      unfold IPv6len.
      replace (16 - (16 - Z.to_nat e1))%nat with (Z.to_nat e1 - 0)%nat by lia.
      etrans; [|apply (zeros_between p 0 (Z.to_nat e1)); [lia|intros k Hk; apply Hz; lia]].
      by rewrite take_0.
  - destruct (grp_ok p 0 Hp) as (Hg1 & Hh1 & _).
    destruct (hex_ok_elim _ _ Hh1) as (Hne1 & Hall1 & _).
    change (0 <? 0) with false. cbv iota. rewrite app_nil_l_s.
    unfold parseIPv6.
    rewrite hexl_head_not_colon by done. rewrite andb_false_r. cbn [andb].
    rewrite (sim p e0 e1 Hp Hlen Hrun'); [|lia|done|lia|lia|].
    2:{ left. repeat split; try done. destruct Hrun' as [[? ?]|(?&?&?&?)]; [by left|right; lia]. }
    unfold final6. cbn [String.length Nat.eqb negb].
    destruct Hrun as [[-> ->]|(He0 & He1 & _ & Hev & Hz)].
    + cbn [Z.ltb Z.compare]. rewrite Hlen. done.
    + destruct (Z.ltb_spec e0 0); [lia|]. rewrite length_app, length_take, length_drop, Hlen.
      destruct (Nat.ltb_spec (Z.to_nat e0 `min` 16 + (16 - Z.to_nat e1)) IPv6len) as [_|];
        [|unfold IPv6len in *; lia].
      destruct (Z.ltb_spec e0 0); [lia|].
      rewrite take_app_length' by (rewrite length_take; lia).
      rewrite drop_app_length' by (rewrite length_take; lia).
      unfold IPv6len.
      replace (16 - (Z.to_nat e0 `min` 16 + (16 - Z.to_nat e1)))%nat
        with (Z.to_nat e1 - Z.to_nat e0)%nat by lia.
      apply zeros_between; [lia|]. intros k Hk. apply Hz. lia.
Qed.

(** An address in IPv6 form is not read as an IPv4 one. *)
Lemma parseIPv4_string6 p : is_bytes p → parseIPv4 (string6 p) = [].
Proof.
  intros Hp. apply parseIPv4_no_dot. eapply all_impl; [|by apply all_string6].
  by apply is_hexcolon_not.
Qed.

(** "::ffff:" followed by a dotted IPv4 address is the mapped address. *)
Lemma parseIPv6_ffff h rest v ip4 :
  dec_ok v h = true → parseIPv4 (h +:+ "." +:+ rest) = ip4 → ip4 ≠ [] →
  parseIPv6 ("::ffff:" +:+ h +:+ "." +:+ rest)
  = replicate 10 0 ++ [255; 255; at_ ip4 12; at_ ip4 13; at_ ip4 14; at_ ip4 15].
Proof.
  intros (Hne & Hall & Hv & _ & Hx & Hl)%dec_ok_elim H4 Hip4.
  unfold parseIPv6.
  change (str.at_is ("::ffff:" +:+ h +:+ "." +:+ rest) 0 ":") with true.
  change (str.at_is ("::ffff:" +:+ h +:+ "." +:+ rest) 1 ":") with true.
  change (2 <=? String.length ("::ffff:" +:+ h +:+ "." +:+ rest))%nat with true.
  cbn [andb].
  change (str.drop 2 ("::ffff:" +:+ h +:+ "." +:+ rest)) with ("ffff:" +:+ h +:+ "." +:+ rest).
  change (String.length ("ffff:" +:+ h +:+ "." +:+ rest) =? 0)%nat with false. cbv iota.
  change (parseIPv6_loop 8 ("ffff:" +:+ h +:+ "." +:+ rest) 0 []) with
    (if (String.length (h +:+ "." +:+ rest) =? 0)%nat then None
     else if str.at_is (h +:+ "." +:+ rest) 0 ":" then None
          else parseIPv6_loop 7 (h +:+ "." +:+ rest) 0 [255; 255]).
  rewrite length_0_app by done. rewrite at_is_0_app by done.
  assert (str.at_is h 0 ":" = false) as ->.
  { destruct h as [|x r]; [done|]. simpl in Hall. apply andb_true_iff in Hall as [Hx' _].
    unfold str.at_is. cbn [str.at_]. destruct (Ascii.eqb_spec x ":") as [->|]; done. }
  cbn [parseIPv6_loop]. change (negb (Z.of_nat (length [255; 255]) <? Z.of_nat IPv6len)) with false.
  cbv iota.
  rewrite xtoi_app; [|done|by eapply all_impl; [apply is_dec_is_hex|]|unfold big; lia|done].
  cbn [negb orb]. destruct (Z.ltb_spec 65535 (hex_val h 0)) as [|_]; [lia|].
  rewrite length_app_s, at_is_app_length.
  change (str.at_is ("." +:+ rest) 0 ".") with true.
  assert ((String.length h <? String.length h + String.length ("." +:+ rest))%nat = true) as ->.
  { apply Nat.ltb_lt. change (String.length ("." +:+ rest)) with (S (String.length rest)). lia. }
  cbn [andb]. change (0 <? 0) with false. cbn [andb].
  change (Z.of_nat IPv6len <? Z.of_nat (length [255; 255]) + Z.of_nat IPv4len) with false.
  cbv iota. rewrite H4. rewrite bool_decide_eq_false_2 by done. done.
Qed.

Lemma parseIPv6_mapped a b c d :
  is_byte a → is_byte b → is_byte c → is_byte d →
  parseIPv6 ("::ffff:" +:+ string4 [a; b; c; d]) = IPv4 a b c d.
Proof.
  intros Ha Hb Hc Hd.
  pose proof (parseIPv4_string4 a b c d Ha Hb Hc Hd) as H4.
  unfold string4 in *.
  change (at_ [a; b; c; d] 0) with a in *. change (at_ [a; b; c; d] 1) with b in *.
  change (at_ [a; b; c; d] 2) with c in *. change (at_ [a; b; c; d] 3) with d in *.
  by rewrite (parseIPv6_ffff _ _ a (IPv4 a b c d)); [|apply ubtoa_ok|..].
Qed.

(** ** Masks *)

Lemma mask128_spec n :
  0 ≤ n ≤ 128 →
  let m := CIDRMask n 128 in
  Size m = (n, 128) ∧ length m = 16%nat
  ∧ bits_of_bytes m = replicate (Z.to_nat n) true ++ replicate (128 - Z.to_nat n) false
  ∧ simpleMaskLength m = n ∧ simpleMaskLength (drop 12 m) = Z.max 0 (n - 96)
  ∧ is_bytes m.
Proof.
  intros Hn. pose proof (forallb_below mask128_ok 129 ltac:(by vm_compute) n ltac:(lia)) as H.
  unfold mask128_ok in H. rewrite !andb_true_iff in H.
  destruct H as [[[[[H1%bool_decide_eq_true_1 H2%bool_decide_eq_true_1] H3%bool_decide_eq_true_1]
    H4%bool_decide_eq_true_1] H5%bool_decide_eq_true_1] H6%bool_decide_eq_true_1]. done.
Qed.

Lemma mask32_spec n :
  0 ≤ n ≤ 32 →
  let m := CIDRMask n 32 in
  Size m = (n, 32) ∧ length m = 4%nat
  ∧ CIDRMask (n + 96) 128 = replicate 12 0xff ++ m
  ∧ simpleMaskLength m = n ∧ is_bytes m.
Proof.
  intros Hn. pose proof (forallb_below mask32_ok 33 ltac:(by vm_compute) n ltac:(lia)) as H.
  unfold mask32_ok in H. rewrite !andb_true_iff in H.
  destruct H as [[[[H1%bool_decide_eq_true_1 H2%bool_decide_eq_true_1] H3%bool_decide_eq_true_1]
    H4%bool_decide_eq_true_1] H5%bool_decide_eq_true_1]. done.
Qed.

Lemma land_byte a b : is_byte a → is_byte (Z.land a b).
Proof.
  unfold is_byte. intros Ha.
  assert (Z.land a b = Z.land (Z.land a b) (Z.ones 8)) as ->.
  { rewrite <-Z.land_assoc, (Z.land_comm b), Z.land_assoc.
    rewrite (Z.land_ones a 8) by lia. by rewrite Z.mod_small by (change (2 ^ 8) with 256; lia). }
  rewrite Z.land_ones by lia. apply Z.mod_pos_bound. lia.
Qed.

Lemma is_bytes_zip_land p m : is_bytes p → is_bytes (zip_with Z.land p m).
Proof.
  intros Hp. revert m. induction Hp as [|a p Ha Hp IH]; intros [|b m]; simpl; try constructor.
  - by apply land_byte.
  - apply IH.
Qed.

Lemma byte_bits_land a b : byte_bits (Z.land a b) = zip_with andb (byte_bits a) (byte_bits b).
Proof. unfold byte_bits. cbn [map zip_with]. by rewrite !Z.land_spec. Qed.

Lemma bits_of_bytes_zip_land p m :
  length p = length m →
  bits_of_bytes (zip_with Z.land p m) = zip_with andb (bits_of_bytes p) (bits_of_bytes m).
Proof.
  revert m. induction p as [|a p IH]; intros [|b m] Hlen; simpl in Hlen; try done.
  unfold bits_of_bytes in *. cbn [zip_with map concat].
  rewrite byte_bits_land, IH by lia. by rewrite zip_with_app by done.
Qed.

Lemma zip_andb_mask (bs : list bool) n k :
  length bs = (n + k)%nat →
  zip_with andb bs (replicate n true ++ replicate k false) = take n bs ++ replicate k false.
Proof.
  revert bs. induction n as [|n IH]; intros bs Hlen.
  - cbn [replicate app take]. rewrite ?take_0. cbn [app]. revert bs Hlen. induction k as [|k IHk]; intros [|b bs] H; simpl in *; try done.
    rewrite andb_false_r. f_equal. apply IHk. lia.
  - destruct bs as [|b bs]; [done|]. simpl. rewrite andb_true_r. f_equal. apply IH. simpl in Hlen. lia.
Qed.

Lemma Mask_16 p m :
  length p = 16%nat → length m = 16%nat → Mask p m = zip_with Z.land p m.
Proof.
  intros Hp Hm. unfold Mask, IPv4len, IPv6len. rewrite Hp, Hm. cbn [Nat.eqb andb].
  rewrite Hm. cbn [Nat.eqb andb]. rewrite Hp. done.
Qed.

Lemma bits_Mask p n :
  length p = 16%nat → 0 ≤ n ≤ 128 →
  bits_of_bytes (Mask p (CIDRMask n 128))
  = take (Z.to_nat n) (bits_of_bytes p) ++ replicate (128 - Z.to_nat n) false.
Proof.
  intros Hp Hn. destruct (mask128_spec n Hn) as (_ & Hl & Hb & _).
  rewrite Mask_16 by done. rewrite bits_of_bytes_zip_land by lia. rewrite Hb.
  apply zip_andb_mask. rewrite length_bits_of_bytes. lia.
Qed.

Lemma is_bytes_Mask p n : is_bytes p → length p = 16%nat → 0 ≤ n ≤ 128 →
  is_bytes (Mask p (CIDRMask n 128)) ∧ length (Mask p (CIDRMask n 128)) = 16%nat.
Proof.
  intros Hp Hl Hn. destruct (mask128_spec n Hn) as (_ & Hlm & _).
  rewrite Mask_16 by done. split; [by apply is_bytes_zip_land|].
  rewrite length_zip_with. lia.
Qed.

(** Bytes are determined by their bits. *)
Lemma bits_of_bytes_inj p1 p2 :
  is_bytes p1 → is_bytes p2 → length p1 = length p2 →
  bits_of_bytes p1 = bits_of_bytes p2 → p1 = p2.
Proof.
  intros H1 H2 Hl Hb. rewrite <-(bytes_of_bits_of_bytes p1), <-(bytes_of_bits_of_bytes p2) by done.
  by rewrite Hl, Hb.
Qed.

(** Masking twice is masking once. *)
Lemma Mask_idemp p n : is_bytes p → length p = 16%nat → 0 ≤ n ≤ 128 →
  Mask (Mask p (CIDRMask n 128)) (CIDRMask n 128) = Mask p (CIDRMask n 128).
Proof.
  intros Hp Hl Hn. destruct (is_bytes_Mask p n Hp Hl Hn) as [Hb1 Hl1].
  destruct (is_bytes_Mask _ n Hb1 Hl1 Hn) as [Hb2 Hl2].
  apply bits_of_bytes_inj; [done|done|lia|].
  rewrite (bits_Mask (Mask _ _)) by done. rewrite bits_Mask by done.
  rewrite take_app_length' by (rewrite length_take, length_bits_of_bytes; lia). done.
Qed.

(** ** Parsed addresses are well formed *)

Lemma dtoi_from_nonneg s n i : 0 ≤ n → 0 ≤ (dtoi_from s n i).1.1.
Proof.
  revert n i. induction s as [|c s IH]; intros n i Hn; cbn [dtoi_from].
  - by destruct (i =? 0)%nat.
  - destruct (is_dec c) eqn:Hc; [|by destruct (i =? 0)%nat].
    apply dec_digit_bounds in Hc. destruct (big <=? _); [done|]. apply IH. lia.
Qed.

Lemma dtoi_nonneg s : 0 ≤ (dtoi s).1.1.
Proof. by apply dtoi_from_nonneg. Qed.

Lemma is_bytes_IPv4 a b c d :
  is_byte a → is_byte b → is_byte c → is_byte d → is_bytes (IPv4 a b c d).
Proof.
  intros. unfold IPv4, v4InV6Prefix, is_bytes. cbn [app].
  repeat (apply Forall_cons; split; [unfold is_byte in *; lia|]). constructor.
Qed.

Lemma parseIPv4_loop_wf k s p :
  is_bytes p → parseIPv4_loop k s p = [] ∨
  ∃ a b c d, is_byte a ∧ is_byte b ∧ is_byte c ∧ is_byte d ∧ parseIPv4_loop k s p = IPv4 a b c d.
Proof.
  revert s p. induction k as [|k IH]; intros s p Hp; cbn [parseIPv4_loop].
  - destruct (String.length s =? 0)%nat; [|by left]. right.
    exists (at_ p 0), (at_ p 1), (at_ p 2), (at_ p 3). repeat split; by try apply at_is_byte.
  - destruct (String.length s =? 0)%nat; [by left|].
    destruct ((0 <? length p)%nat && negb (str.at_is s 0 ".")); [by left|].
    set (s' := if (0 <? length p)%nat then str.drop 1 s else s).
    pose proof (dtoi_nonneg s') as Hn. destruct (dtoi s') as [[n c] ok]. simpl in Hn.
    destruct ok; cbn [negb orb]; [|by left].
    destruct (Z.ltb_spec 255 n); [by left|].
    destruct ((1 <? c)%nat && str.at_is s' 0 "0"); [by left|].
    apply IH. apply Forall_app. split; [done|].
    apply Forall_cons; split; [unfold is_byte; lia|]. constructor.
Qed.

(** What [parseIPv4] returns is [nil] or the 16-byte form of an address. *)
Lemma parseIPv4_wf s :
  parseIPv4 s = [] ∨
  ∃ a b c d, is_byte a ∧ is_byte b ∧ is_byte c ∧ is_byte d ∧ parseIPv4 s = IPv4 a b c d.
Proof. apply parseIPv4_loop_wf. constructor. Qed.

Lemma parseIPv6_loop_wf fuel s e ip ip' s' e' :
  is_bytes ip → (length ip ≤ 16)%nat → Z.of_nat (length ip) mod 2 = 0 →
  parseIPv6_loop fuel s e ip = Some (ip', s', e') →
  is_bytes ip' ∧ (length ip' ≤ 16)%nat.
Proof.
  revert s e ip. induction fuel as [|fuel IH]; intros s e ip Hb Hl Hev; cbn [parseIPv6_loop].
  - by intros [= <- <- <-].
  - destruct (Z.ltb_spec (Z.of_nat (length ip)) (Z.of_nat IPv6len)) as [Hlt|]; cbn [negb];
      [|by intros [= <- <- <-]].
    unfold IPv6len in Hlt.
    destruct (xtoi s) as [[n c] ok]. destruct (negb ok || (65535 <? n)); [done|].
    destruct ((c <? String.length s)%nat && str.at_is s c ".").
    + destruct ((e <? 0) && _); [done|].
      destruct (Z.ltb_spec (Z.of_nat IPv6len) (Z.of_nat (length ip) + Z.of_nat IPv4len)) as [|Hroom]; [done|].
      unfold IPv6len, IPv4len in Hroom.
      destruct (parseIPv4_wf s) as [->|(a & b & c' & d & Ha & Hb' & Hc & Hd & ->)]; [done|].
      rewrite bool_decide_eq_false_2 by done. intros [= <- <- <-]. split.
      * apply Forall_app. split; [done|].
        change (at_ (IPv4 a b c' d) 12) with a. change (at_ (IPv4 a b c' d) 13) with b.
        change (at_ (IPv4 a b c' d) 14) with c'. change (at_ (IPv4 a b c' d) 15) with d.
        repeat (apply Forall_cons; split; [done|]). constructor.
      * rewrite length_app. simpl. lia.
    + set (ip1 := ip ++ [Z.shiftr n 8 mod 256; n mod 256]).
      assert (is_bytes ip1) as Hb1.
      { apply Forall_app. split; [done|].
        repeat (apply Forall_cons; split; [apply Z.mod_pos_bound; lia|]). constructor. }
      assert (length ip1 ≤ 16)%nat as Hl1 by (unfold ip1; rewrite length_app; simpl; zlia).
      assert (Z.of_nat (length ip1) mod 2 = 0) as Hev1
        by (unfold ip1; rewrite length_app; simpl; zlia).
      destruct (String.length (str.drop c s) =? 0)%nat; [by intros [= <- <- <-]|].
      destruct (negb (str.at_is (str.drop c s) 0 ":") || _); [done|].
      destruct (str.at_is (str.drop 1 (str.drop c s)) 0 ":").
      * destruct (0 <=? e); [done|].
        destruct (String.length (str.drop 1 (str.drop 1 (str.drop c s))) =? 0)%nat;
          [by intros [= <- <- <-]|].
        by apply IH.
      * by apply IH.
Qed.

(** What [parseIPv6] returns is [nil] or 16 bytes. *)
Lemma parseIPv6_wf s :
  parseIPv6 s = [] ∨ (is_bytes (parseIPv6 s) ∧ length (parseIPv6 s) = 16%nat).
Proof.
  unfold parseIPv6.
  set (lead := (2 <=? String.length s)%nat && str.at_is s 0 ":" && str.at_is s 1 ":").
  destruct (lead && _).
  { right. split; [|done]. unfold IPv6len. repeat constructor; lia. }
  destruct (parseIPv6_loop 8 _ _ []) as [[[ip s'] e]|] eqn:E; [|by left].
  apply parseIPv6_loop_wf in E as [Hb Hl]; [|constructor|simpl; lia|done].
  destruct (negb _); [by left|].
  destruct (Nat.ltb_spec (length ip) IPv6len) as [Hlt|Hge]; unfold IPv6len in *.
  - destruct (e <? 0); [by left|]. right. split.
    + apply Forall_app. split; [by apply Forall_take|]. apply Forall_app. split; [|by apply Forall_drop].
      apply Forall_replicate. unfold is_byte. lia.
    + rewrite !length_app, length_take, length_replicate, length_drop. lia.
  - destruct (0 <=? e); [by left|]. right. split; [done|lia].
Qed.

Lemma parseIPv4_nonnil_length s : parseIPv4 s ≠ [] → is_bytes (parseIPv4 s) ∧ length (parseIPv4 s) = 16%nat.
Proof.
  destruct (parseIPv4_wf s) as [->|(a & b & c & d & Ha & Hb & Hc & Hd & ->)]; [done|].
  intros _. split; [by apply is_bytes_IPv4|done].
Qed.

(** ** ParseCIDR on printed prefixes *)

Lemma dtoi_uitoa n : 0 ≤ n < 256 → dtoi (uitoa n) = (n, String.length (uitoa n), true).
Proof.
  intros Hn. destruct (dec_ok_elim _ _ (uitoa_ok n Hn)) as (Hne & Hall & Hv & _).
  rewrite <-(app_nil_r_s (uitoa n)) at 1. rewrite dtoi_app; [by rewrite Hv|done|done| |done].
  rewrite Hv. unfold big. lia.
Qed.

Lemma all_uitoa n : 0 ≤ n < 256 → all is_dec (uitoa n) = true.
Proof. intros Hn. by destruct (dec_ok_elim _ _ (uitoa_ok n Hn)) as (_ & ? & _). Qed.

(** [ParseCIDR] on an address without '/' followed by '/' and a number. *)
Lemma ParseCIDR_app addr n :
  all (λ c, negb (Ascii.eqb c "/")) addr = true → 0 ≤ n < 256 →
  ParseCIDR (addr +:+ "/" +:+ uitoa n) =
  let ip4 := parseIPv4 addr in
  let iplen := if bool_decide (ip4 = []) then IPv6len else IPv4len in
  let ip := if bool_decide (ip4 = []) then parseIPv6 addr else ip4 in
  if bool_decide (ip = []) || (8 * Z.of_nat iplen <? n)
  then inr (mkParseError "CIDR address" (addr +:+ "/" +:+ uitoa n))
  else inl (ip, mkIPNet (Mask ip (CIDRMask n (8 * Z.of_nat iplen)))
                        (CIDRMask n (8 * Z.of_nat iplen))).
Proof.
  intros Haddr Hn. unfold ParseCIDR.
  change ("/" +:+ uitoa n) with (String.String "/" (uitoa n)).
  rewrite cut_app by done. rewrite dtoi_uitoa by done. cbv zeta.
  rewrite Nat.eqb_refl. cbn [negb]. destruct (Z.ltb_spec n 0); [lia|].
  by rewrite !orb_false_r.
Qed.

Lemma no_slash_string4 p : is_bytes p → all (λ c, negb (Ascii.eqb c "/")) (string4 p) = true.
Proof. intros. eapply all_impl; [|by apply all_string4]. by apply is_decdot_not. Qed.

Lemma no_slash_string6 p : is_bytes p → all (λ c, negb (Ascii.eqb c "/")) (string6 p) = true.
Proof. intros. eapply all_impl; [|by apply all_string6]. by apply is_hexcolon_not. Qed.

(** The three shapes of keys, read back. *)
Lemma ParseCIDR_v4 a b c d n :
  is_byte a → is_byte b → is_byte c → is_byte d → 0 ≤ n ≤ 32 →
  ParseCIDR (string4 [a; b; c; d] +:+ "/" +:+ uitoa n)
  = inl (IPv4 a b c d, mkIPNet (zip_with Z.land [a; b; c; d] (CIDRMask n 32)) (CIDRMask n 32)).
Proof.
  intros Ha Hb Hc Hd Hn.
  rewrite ParseCIDR_app; [|apply no_slash_string4; repeat (apply Forall_cons; split; [done|]); constructor|lia].
  rewrite parseIPv4_string4 by done. cbv zeta.
  rewrite !(bool_decide_eq_false_2 (IPv4 a b c d = [])) by done.
  change (8 * Z.of_nat IPv4len) with 32. destruct (Z.ltb_spec 32 n); [lia|]. cbn [orb].
  destruct (mask32_spec n Hn) as (_ & Hl & _).
  do 3 f_equal. unfold Mask, IPv4len, IPv6len. rewrite Hl. cbn [Nat.eqb andb].
  change (length (IPv4 a b c d)) with 16%nat. cbn [Nat.eqb andb]. rewrite Hl.
  change (take 12 (IPv4 a b c d)) with v4InV6Prefix.
  rewrite bool_decide_eq_true_2 by done. done.
Qed.

Lemma ParseCIDR_mapped a b c d n :
  is_byte a → is_byte b → is_byte c → is_byte d → 0 ≤ n ≤ 128 →
  ParseCIDR ("::ffff:" +:+ string4 [a; b; c; d] +:+ "/" +:+ uitoa n)
  = inl (IPv4 a b c d, mkIPNet (Mask (IPv4 a b c d) (CIDRMask n 128)) (CIDRMask n 128)).
Proof.
  intros Ha Hb Hc Hd Hn.
  rewrite <-app_assoc_s.
  rewrite ParseCIDR_app; [| |lia].
  2:{ rewrite all_app. apply andb_true_iff. split; [done|].
      apply no_slash_string4; repeat (apply Forall_cons; split; [done|]); constructor. }
  change (parseIPv4 ("::ffff:" +:+ string4 [a; b; c; d])) with (@nil Z).
  cbv zeta. rewrite !(bool_decide_eq_true_2 ([] = [])) by done.
  rewrite parseIPv6_mapped by done.
  rewrite !(bool_decide_eq_false_2 (IPv4 a b c d = [])) by done.
  change (8 * Z.of_nat IPv6len) with 128. destruct (Z.ltb_spec 128 n); [lia|]. done.
Qed.

Lemma ParseCIDR_v6 p n :
  is_bytes p → length p = 16%nat → 0 ≤ n ≤ 128 →
  ParseCIDR (string6 p +:+ "/" +:+ uitoa n)
  = inl (p, mkIPNet (Mask p (CIDRMask n 128)) (CIDRMask n 128)).
Proof.
  intros Hp Hl Hn.
  rewrite ParseCIDR_app; [|by apply no_slash_string6|lia].
  rewrite parseIPv4_string6 by done. cbv zeta.
  rewrite !(bool_decide_eq_true_2 ([] = [])) by done.
  rewrite parseIPv6_string6 by done.
  rewrite !bool_decide_eq_false_2 by (intros ->; done).
  change (8 * Z.of_nat IPv6len) with 128. destruct (Z.ltb_spec 128 n); [lia|]. done.
Qed.

(** What [ParseCIDR] returns. *)
Lemma ParseCIDR_inl s ip ipNet :
  ParseCIDR s = inl (ip, ipNet) →
  (∃ a b c d n, is_byte a ∧ is_byte b ∧ is_byte c ∧ is_byte d ∧ 0 ≤ n ≤ 32 ∧
     ip = IPv4 a b c d ∧
     ipNet = mkIPNet (zip_with Z.land [a; b; c; d] (CIDRMask n 32)) (CIDRMask n 32))
  ∨ (∃ n, is_bytes ip ∧ length ip = 16%nat ∧ 0 ≤ n ≤ 128 ∧
     ipNet = mkIPNet (Mask ip (CIDRMask n 128)) (CIDRMask n 128)).
Proof.
  unfold ParseCIDR. destruct (str.cut "/" s) as [[addr mask]|]; [|done].
  pose proof (dtoi_nonneg mask) as Hn0.
  destruct (dtoi mask) as [[n i] ok]. simpl in Hn0.
  destruct (parseIPv4_wf addr) as [->|(a & b & c & d & Ha & Hb & Hc & Hd & ->)].
  - rewrite !(bool_decide_eq_true_2 ([] = [])) by done.
    destruct (parseIPv6_wf addr) as [->|[Hb Hl]]; [done|].
    destruct (bool_decide (parseIPv6 addr = [])); [done|]. cbn [orb].
    destruct ok; [|done]. cbn [negb orb]. destruct (negb (i =? _)%nat); [done|]. cbn [orb].
    destruct (n <? 0); [done|]. cbn [orb].
    change (8 * Z.of_nat IPv6len) with 128. destruct (Z.ltb_spec 128 n); [done|].
    intros [= <- <-]. right. exists n. repeat split; try done; lia.
  - rewrite !(bool_decide_eq_false_2 (IPv4 a b c d = [])) by done. cbn [orb].
    destruct ok; [|done]. cbn [negb orb]. destruct (negb (i =? _)%nat); [done|]. cbn [orb].
    destruct (n <? 0); [done|]. cbn [orb].
    change (8 * Z.of_nat IPv4len) with 32. destruct (Z.ltb_spec 32 n); [done|].
    intros [= <- <-]. left. exists a, b, c, d, n.
    split; [done|]. split; [done|]. split; [done|]. split; [done|]. split; [lia|]. split; [done|].
    destruct (mask32_spec n ltac:(lia)) as (_ & Hl & _).
    f_equal. unfold Mask, IPv4len, IPv6len. rewrite Hl. cbn [Nat.eqb andb].
    change (length (IPv4 a b c d)) with 16%nat. cbn [Nat.eqb andb]. rewrite Hl.
    change (take 12 (IPv4 a b c d)) with v4InV6Prefix.
    rewrite bool_decide_eq_true_2 by done. done.
Qed.

(** A 16-byte address is an IPv4-mapped one or has no 4-byte form. *)
Lemma To4_16 p :
  length p = 16%nat →
  (To4 p = [] ∧ ∀ a b c d, p ≠ IPv4 a b c d) ∨ ∃ a b c d, p = IPv4 a b c d ∧ To4 p = [a; b; c; d].
Proof.
  intros Hl. do 16 (destruct p as [|? p]; [done|]). destruct p; [|done].
  unfold To4, at_. change (Z.to_nat 10) with 10%nat. change (Z.to_nat 11) with 11%nat.
  cbn [length Nat.eqb IPv4len IPv6len take drop isZeros forallb andb nth].
  repeat match goal with
  | |- context [0 =? ?x] => destruct (Z.eqb_spec 0 x) as [<-|]; cbn [andb];
      [|left; split; [done|intros ???? [=]; congruence]]
  end.
  destruct (Z.eqb_spec z9 255) as [->|]; cbn [andb]; [|left; split; [done|intros ???? [=]; congruence]].
  destruct (Z.eqb_spec z10 255) as [->|]; cbn [andb]; [|left; split; [done|intros ???? [=]; congruence]].
  right. by eexists _, _, _, _.
Qed.

(** ** The keys of the hook *)

Lemma IP_String_4 a b c d : IP_String [a; b; c; d] = string4 [a; b; c; d].
Proof. done. Qed.

Lemma To16_4 a b c d : To16 [a; b; c; d] = IPv4 a b c d.
Proof. done. Qed.

Lemma To16_16 p : length p = 16%nat → To16 p = p.
Proof. intros H. unfold To16. by rewrite H. Qed.

Lemma NewIPv6Address_16 p n :
  length p = 16%nat → patricia.NewIPv6Address p n = Some (patricia.mkIPv6Address p n).
Proof.
  intros H. unfold patricia.NewIPv6Address. rewrite H. cbn [Nat.ltb Nat.leb].
  by rewrite take_ge by lia.
Qed.

Lemma IP_String_16 p :
  length p = 16%nat → To4 p = [] → IP_String p = string6 p.
Proof. intros Hl H4. unfold IP_String. by rewrite Hl, H4. Qed.

Lemma IPNet_String_v6 p n :
  length p = 16%nat → To4 p = [] → 0 ≤ n ≤ 128 →
  IPNet_String (mkIPNet p (CIDRMask n 128)) = string6 p +:+ "/" +:+ uitoa n.
Proof.
  intros Hl H4 Hn. destruct (mask128_spec n Hn) as (_ & Hlm & _ & Hs & _).
  unfold IPNet_String, networkNumberAndMask. cbn [ipnet_IP ipnet_Mask].
  rewrite H4. rewrite !(bool_decide_eq_true_2 ([] = [])) by done. rewrite Hl, Hlm.
  cbn [Nat.eqb IPv6len IPv4len negb andb].
  rewrite !bool_decide_eq_false_2 by (intros E; by rewrite E in *).
  cbn [orb]. rewrite Hs. destruct (Z.eqb_spec n (-1)); [lia|].
  by rewrite IP_String_16.
Qed.

Lemma IPNet_String_mapped a b c d n :
  0 ≤ n ≤ 128 →
  IPNet_String (mkIPNet (IPv4 a b c d) (CIDRMask n 128))
  = string4 [a; b; c; d] +:+ "/" +:+ uitoa (Z.max 0 (n - 96)).
Proof.
  intros Hn. destruct (mask128_spec n Hn) as (_ & Hlm & _ & _ & Hs & _).
  unfold IPNet_String, networkNumberAndMask. cbn [ipnet_IP ipnet_Mask].
  change (To4 (IPv4 a b c d)) with [a; b; c; d].
  rewrite Hlm. rewrite !(bool_decide_eq_false_2 ([a; b; c; d] = [])) by done.
  cbn [length Nat.eqb IPv6len IPv4len negb andb orb].
  rewrite !bool_decide_eq_false_2
    by (intros E; pose proof (f_equal length E) as E'; rewrite ?length_drop, ?Hlm in E'; done).
  cbn [orb]. rewrite Hs. destruct (Z.eqb_spec (Z.max 0 (n - 96)) (-1)); [lia|]. done.
Qed.

Lemma canonical_key_v4 x n :
  0 ≤ n ≤ 32 →
  canonical_key (mkIPNet x (CIDRMask n 32))
  = "::ffff:" +:+ IP_String x +:+ "/" +:+ uitoa (n + 96).
Proof.
  intros Hn. destruct (mask32_spec n Hn) as (Hs & _).
  unfold canonical_key. cbn [ipnet_IP ipnet_Mask]. by rewrite Hs.
Qed.

Lemma canonical_key_v6 x n :
  0 ≤ n ≤ 128 →
  canonical_key (mkIPNet x (CIDRMask n 128)) = IPNet_String (mkIPNet x (CIDRMask n 128)).
Proof.
  intros Hn. destruct (mask128_spec n Hn) as (Hs & _).
  unfold canonical_key. cbn [ipnet_IP ipnet_Mask]. by rewrite Hs.
Qed.

(** The hook stores an element under the canonical key of its network. *)
Lemma convert_key_spec i k :
  convert_key i k =
  match key_string k with
  | Some s =>
      match ParseCIDR s with
      | inr err => inr (ErrParseCIDR err)
      | inl (_, ipNet) => inl (canonical_key ipNet)
      end
  | None => inr (ErrKeyNotString i (kind (if bool_decide (kind k = Interface) then Elem k else k)))
  end.
Proof.
  unfold convert_key, key_string.
  destruct (if bool_decide (kind k = Interface) then Elem k else k); try done.
  destruct (ParseCIDR s) as [[ip ipNet]|err] eqn:E; [|done].
  unfold canonical_key.
  apply ParseCIDR_inl in E as [(a & b & c & d & n & _ & _ & _ & _ & Hn & _ & ->)|(n & _ & _ & Hn & ->)];
    cbn [ipnet_IP ipnet_Mask].
  - destruct (mask32_spec n Hn) as (-> & _). done.
  - destruct (mask128_spec n Hn) as (-> & _). done.
Qed.

Lemma zip_land_idemp (x m : list Z) :
  zip_with Z.land (zip_with Z.land x m) m = zip_with Z.land x m.
Proof.
  revert m. induction x as [|a x IH]; intros [|b m]; simpl; try done.
  rewrite IH. f_equal. by rewrite <-Z.land_assoc, Z.land_diag.
Qed.

Lemma Mask_mapped a b c d n :
  0 ≤ n ≤ 32 →
  Mask (IPv4 a b c d) (CIDRMask (n + 96) 128)
  = v4InV6Prefix ++ zip_with Z.land [a; b; c; d] (CIDRMask n 32).
Proof.
  intros Hn. destruct (mask32_spec n Hn) as (_ & Hl & Hm & _).
  rewrite Mask_16; [|done|by rewrite Hm, length_app, Hl].
  rewrite Hm. unfold IPv4. by rewrite zip_with_app by done.
Qed.

Lemma zip_land_4 (x m : list Z) :
  length x = 4%nat → length m = 4%nat →
  ∃ a b c d, zip_with Z.land x m = [a; b; c; d].
Proof.
  intros Hx Hm. do 4 (destruct x as [|? x]; [done|]). destruct x; [|done].
  do 4 (destruct m as [|? m]; [done|]). destruct m; [|done]. by eexists _, _, _, _.
Qed.

(** The address under which the hook stores a network, from the key it
    made of it. *)
Lemma address_of_canonical_key_v4 a b c d n :
  is_byte a → is_byte b → is_byte c → is_byte d → 0 ≤ n ≤ 32 →
  let x := zip_with Z.land [a; b; c; d] (CIDRMask n 32) in
  address_of_key (canonical_key (mkIPNet x (CIDRMask n 32)))
  = Some (inl (patricia.mkIPv6Address (v4InV6Prefix ++ x) (n + 96))).
Proof.
  intros Ha Hb Hc Hd Hn x. rewrite canonical_key_v4 by done.
  destruct (mask32_spec n Hn) as (_ & Hl & Hm & _ & Hbm).
  destruct (zip_land_4 [a; b; c; d] (CIDRMask n 32)) as (a' & b' & c' & d' & Hx); [done|done|].
  assert (is_bytes x) as Hbx.
  { apply is_bytes_zip_land. repeat (apply Forall_cons; split; [done|]). constructor. }
  subst x. rewrite Hx in *.
  apply Forall_cons in Hbx as [Ha' Hbx]. apply Forall_cons in Hbx as [Hb' Hbx].
  apply Forall_cons in Hbx as [Hc' Hbx]. apply Forall_cons in Hbx as [Hd' _].
  unfold address_of_key. rewrite IP_String_4.
  rewrite ParseCIDR_mapped by (done || lia).
  cbn [ipnet_IP ipnet_Mask].
  destruct (mask128_spec (n + 96) ltac:(lia)) as (-> & _).
  rewrite Mask_mapped by done. rewrite <-Hx, zip_land_idemp, Hx.
  rewrite To16_16 by done. by rewrite NewIPv6Address_16.
Qed.

Lemma address_of_canonical_key_v6 p n :
  is_bytes p → length p = 16%nat → 0 ≤ n ≤ 128 →
  let x := Mask p (CIDRMask n 128) in
  address_of_key (canonical_key (mkIPNet x (CIDRMask n 128)))
  = Some (inl
      match To4 x with
      | [] => patricia.mkIPv6Address x n
      | x4 => patricia.mkIPv6Address
                (v4InV6Prefix ++ zip_with Z.land x4 (CIDRMask (Z.max 0 (n - 96)) 32))
                (Z.max 0 (n - 96))
      end).
Proof.
  intros Hp Hl Hn x. rewrite canonical_key_v6 by done.
  destruct (is_bytes_Mask p n Hp Hl Hn) as [Hbx Hlx]. fold x in Hbx, Hlx.
  destruct (To4_16 x Hlx) as [[H4 _]|(a & b & c & d & Hx & H4)]; rewrite H4.
  - rewrite IPNet_String_v6 by done. unfold address_of_key.
    rewrite ParseCIDR_v6 by done. cbn [ipnet_IP ipnet_Mask].
    destruct (mask128_spec n Hn) as (-> & _).
    unfold x. rewrite Mask_idemp by done. fold x.
    rewrite To16_16 by done. by rewrite NewIPv6Address_16.
  - rewrite Hx in Hbx |- *. rewrite IPNet_String_mapped by done.
    unfold IPv4, v4InV6Prefix in Hbx. cbn [app] in Hbx.
    do 12 (apply Forall_cons in Hbx as [_ Hbx]).
    apply Forall_cons in Hbx as [Ha Hbx]. apply Forall_cons in Hbx as [Hb Hbx].
    apply Forall_cons in Hbx as [Hc Hbx]. apply Forall_cons in Hbx as [Hd _].
    set (l := Z.max 0 (n - 96)). assert (0 ≤ l ≤ 32) as Hll by lia.
    unfold address_of_key. rewrite ParseCIDR_v4 by done. cbn [ipnet_IP ipnet_Mask].
    destruct (mask32_spec l Hll) as (-> & Hlm & _).
    destruct (zip_land_4 [a; b; c; d] (CIDRMask l 32)) as (a' & b' & c' & d' & Hz); [done|done|].
    rewrite Hz. rewrite To16_4. by rewrite NewIPv6Address_16.
Qed.

(** Re-parsing a key that the hook has made never fails. *)
Lemma address_of_converted_key i k key :
  convert_key i k = inl key → ∃ a, address_of_key key = Some (inl a).
Proof.
  rewrite convert_key_spec. destruct (key_string k) as [s|]; [|done].
  destruct (ParseCIDR s) as [[ip ipNet]|err] eqn:E; [|done]. intros [= <-].
  apply ParseCIDR_inl in E as [(a & b & c & d & n & Ha & Hb & Hc & Hd & Hn & _ & ->)|(n & Hb & Hl & Hn & ->)].
  - eexists. by apply address_of_canonical_key_v4.
  - eexists. by apply address_of_canonical_key_v6.
Qed.

(** ** The loops of the hook *)

Section HookFacts.
Context {V : Type} `{!Decodable V}.
Implicit Types (output : gmap string Value) (t : patricia.TreeV6 V).

Lemma convert_entries_inr entries i output k v :
  (k, v) ∈ entries → (∀ j, ∃ err, convert_key j k = inr err) →
  ∃ err, convert_entries entries i output = inr err.
Proof.
  intros Hin Hk. revert i output. induction entries as [|[k' v'] entries IH]; intros i output.
  - by apply elem_of_nil in Hin.
  - cbn [convert_entries]. destruct (convert_key i k') as [key|err] eqn:E; [|by eexists].
    apply elem_of_cons in Hin as [[= <- <-]|Hin].
    + destruct (Hk i) as [err Herr]. congruence.
    + by apply IH.
Qed.

(** The keys of [output] are keys that it had or keys made by [convert_key]. *)
Lemma convert_entries_keys entries i output output' key :
  convert_entries entries i output = inl output' → is_Some (output' !! key) →
  is_Some (output !! key) ∨ ∃ j k, convert_key j k = inl key.
Proof.
  revert i output. induction entries as [|[k v] entries IH]; intros i output; cbn [convert_entries].
  - intros [= <-]. by left.
  - destruct (convert_key i k) as [key'|err] eqn:E; [|done]. intros Hc Hs.
    destruct (IH _ _ Hc Hs) as [Hs'|?]; [|by right].
    destruct (decide (key' = key)) as [<-|Hne]; [right; eauto|].
    left. by rewrite lookup_insert_ne in Hs'.
Qed.

Lemma decode_output_Some output intermediate :
  decode_output output = Some intermediate → ∀ k, intermediate !! k = output !! k ≫= decode.
Proof.
  unfold decode_output. case_bool_decide; [|done]. intros [= <-] k. by rewrite lookup_omap.
Qed.

Lemma decode_output_is_Some output :
  (∀ k x, output !! k = Some x → is_Some (decode x)) → is_Some (decode_output output).
Proof.
  intros H. unfold decode_output. rewrite bool_decide_eq_true_2; [done|].
  intros k x Hk. by eapply H.
Qed.

Lemma fill_app l1 l2 t :
  fill (l1 ++ l2) t = match fill l1 t with
                      | Some (inl t') => fill l2 t'
                      | r => r
                      end.
Proof.
  revert t. induction l1 as [|[k v] l1 IH]; intros t; [done|]. cbn [app fill].
  destruct (address_of_key k) as [[a|err]|]; [apply IH|done|done].
Qed.

(** The loop does not fail on keys that can be parsed again. *)
Lemma fill_is_inl (l : list (string * V)) t :
  (∀ k v, (k, v) ∈ l → ∃ a, address_of_key k = Some (inl a)) →
  ∃ t', fill l t = Some (inl t').
Proof.
  revert t. induction l as [|[k v] l IH]; intros t Hl; [by eexists|]. cbn [fill].
  destruct (Hl k v) as [a ->]; [by left|]. apply IH. intros k' v' Hin. apply (Hl k' v'). by right.
Qed.

(** The tag at a path after the loop: the one of an entry stored at this
    path, or the previous one if there is no such entry. *)
Lemma fill_tag_at (l : list (string * V)) t t' q :
  fill l t = Some (inl t') →
  (tag_at q t' = tag_at q t ∧
   ∀ k v a, (k, v) ∈ l → address_of_key k = Some (inl a) → patricia.key_of a ≠ q)
  ∨ ∃ k v a, (k, v) ∈ l ∧ address_of_key k = Some (inl a) ∧ patricia.key_of a = q
             ∧ tag_at q t' = Some v.
Proof.
  revert t. induction l as [|[k v] l IH]; intros t; cbn [fill].
  - intros [= <-]. left. split; [done|]. intros k v a Hin. by apply elem_of_nil in Hin.
  - destruct (address_of_key k) as [[a|err]|] eqn:Ea; [|done|done]. intros Hf.
    destruct (IH _ Hf) as [[Ht Hno]|(k' & v' & a' & Hin & Ha' & Hq & Ht)].
    + unfold patricia.Set_ in Ht. rewrite tag_at_set_key in Ht.
      case_decide as Hd.
      * right. exists k, v, a. split; [by left|]. done.
      * left. split; [done|]. intros k' v' a' [[= -> ->]|Hin]%elem_of_cons Ha'.
        -- congruence.
        -- by eapply Hno.
    + right. exists k', v', a'. split; [by right|]. done.
Qed.

Lemma fill_fits (l : list (string * V)) t t' :
  fill l t = Some (inl t') → fits 128 t = true → fits 128 t' = true.
Proof.
  revert t. induction l as [|[k v] l IH]; intros t; cbn [fill].
  - by intros [= <-].
  - destruct (address_of_key k) as [[a|err]|] eqn:Ea; [|done|done]. intros Hf Ht.
    apply (IH _ Hf). apply fits_set_key; [|done].
    unfold address_of_key in Ea. destruct (ParseCIDR k) as [[ip ipNet]|]; [|done].
    destruct (Size _) as [plen bits].
    unfold patricia.NewIPv6Address in Ea.
    destruct (Nat.ltb_spec (length (To16 (ipnet_IP ipNet))) 16); [done|].
    injection Ea as <-. unfold patricia.key_of. cbn [patricia.Address patricia.Length].
    rewrite length_take, length_bits_of_bytes, length_take. lia.
Qed.

End HookFacts.

(** ** Lookup *)

Section LookupFacts.
Context {V : Type} `{!Decodable V}.
Implicit Types (sm : SubnetMap V) (t : patricia.TreeV6 V).

Lemma length_To16 ip : is_address ip → length (To16 ip) = 16%nat.
Proof.
  intros [H|H]; unfold To16; rewrite H; [done|]. done.
Qed.

Lemma Lookup_tree t ip :
  is_address ip →
  Lookup (mkSubnetMap (Some t)) ip =
  Some match patricia.find_key (patricia.bits_of_bytes (To16 ip)) t None with
       | Some v => (v, true)
       | None => (zero, false)
       end.
Proof.
  intros Hip. unfold Lookup. cbn [tree].
  rewrite NewIPv6Address_16 by by apply length_To16.
  unfold patricia.FindDeepestTag, patricia.key_of. cbn [patricia.Address patricia.Length].
  rewrite take_ge by (rewrite length_bits_of_bytes, length_To16; [simpl; lia|done]).
  by destruct (patricia.find_key _ _ _).
Qed.

Lemma elem_of_entries t a v :
  (a, v) ∈ entries (mkSubnetMap (Some t)) ↔ ∃ q, a = patricia.address_of q ∧ tag_at q t = Some v.
Proof.
  unfold entries. cbn [tree]. rewrite list_elem_of_fmap. split.
  - intros ([q v'] & [= -> ->] & Hin). apply elem_of_nodes in Hin as (q' & -> & Hq). by exists q'.
  - intros (q & -> & Hq). exists (q, v). split; [done|]. apply elem_of_nodes. by exists q.
Qed.

Lemma Length_address_of q : patricia.Length (patricia.address_of q) = Z.of_nat (length q).
Proof. done. Qed.

Lemma prefix_of_bits_length q ip :
  is_address ip → q `prefix_of` patricia.bits_of_bytes (To16 ip) → (length q ≤ 128)%nat.
Proof.
  intros Hip Hq. apply prefix_length in Hq.
  rewrite length_bits_of_bytes, length_To16 in Hq by done. lia.
Qed.

Lemma Lookup_found sm ip :
  well_formed sm = true → is_address ip →
  ∀ a0 v0, (a0, v0) ∈ entries sm → contains a0 ip →
  ∃ a v, (a, v) ∈ entries sm ∧ contains a ip
    ∧ (∀ a' v', (a', v') ∈ entries sm → contains a' ip → patricia.Length a' ≤ patricia.Length a)
    ∧ Lookup sm ip = Some (v, true).
Proof.
  destruct sm as [[t|]]; unfold well_formed; cbn [tree]; intros Hwf Hip a0 v0 Hin Hc.
  2:{ by apply elem_of_nil in Hin. }
  apply elem_of_entries in Hin as (q0 & -> & Hq0).
  assert (length q0 ≤ 128)%nat as Hl0 by (eapply fits_tag_at; [done|by rewrite Hq0]).
  unfold contains in Hc. rewrite key_of_address_of in Hc by done.
  rewrite Lookup_tree by done.
  destruct (patricia.find_key _ t None) as [v|] eqn:Hf.
  - apply find_key_Some in Hf as (q & Hq & Ht & Hmax).
    assert (length q ≤ 128)%nat as Hl by (by eapply prefix_of_bits_length).
    exists (patricia.address_of q), v. split; [apply elem_of_entries; by exists q|].
    split; [unfold contains; by rewrite key_of_address_of|]. split; [|done].
    intros a' v' (q' & -> & Hq')%elem_of_entries Hc'.
    assert (length q' ≤ 128)%nat as Hl' by (eapply fits_tag_at; [done|by rewrite Hq']).
    unfold contains in Hc'. rewrite key_of_address_of in Hc' by done.
    rewrite !Length_address_of. apply inj_le. apply Hmax; [done|by rewrite Hq'].
  - rewrite (find_key_None _ _ Hf q0 Hc) in Hq0. done.
Qed.

Lemma Lookup_not_found sm ip :
  is_address ip → (∀ a v, (a, v) ∈ entries sm → ¬ contains a ip) →
  Lookup sm ip = Some (zero, false).
Proof.
  destruct sm as [[t|]]; [|done]. intros Hip Hno. rewrite Lookup_tree by done.
  destruct (patricia.find_key _ t None) as [v|] eqn:Hf; [|done].
  apply find_key_Some in Hf as (q & Hq & Ht & _). exfalso.
  apply (Hno (patricia.address_of q) v); [apply elem_of_entries; by exists q|].
  unfold contains. rewrite key_of_address_of; [done|]. by eapply prefix_of_bits_length.
Qed.

Lemma Lookup_total sm ip : is_address ip → ∃ v found, Lookup sm ip = Some (v, found).
Proof.
  destruct sm as [[t|]]; [|by eexists _, _]. intros Hip. rewrite Lookup_tree by done.
  destruct (patricia.find_key _ t None); by eexists _, _.
Qed.

Lemma Lookup_nil_tree ip : Lookup (mkSubnetMap None) ip = Some (zero, false).
Proof. done. Qed.

(** Tables whose trees have the same tags at the same paths answer alike. *)
Lemma Lookup_ext t1 t2 ip :
  (∀ q, (length q ≤ 128)%nat → tag_at q t1 = tag_at q t2) →
  Lookup (mkSubnetMap (Some t1)) ip = Lookup (mkSubnetMap (Some t2)) ip.
Proof.
  intros Heq. unfold Lookup. cbn [tree].
  destruct (patricia.NewIPv6Address (To16 ip) 128) as [a|] eqn:Ea; [|done].
  unfold patricia.FindDeepestTag.
  rewrite (find_key_ext (patricia.key_of a) t1 t2); [done|].
  intros q Hq. apply Heq. apply prefix_length in Hq.
  unfold patricia.NewIPv6Address in Ea. destruct (_ <? _)%nat; [done|]. injection Ea as <-.
  unfold patricia.key_of in Hq. cbn [patricia.Address patricia.Length] in Hq.
  rewrite length_take in Hq. lia.
Qed.

Lemma decodes_to_well_formed from sm : decodes_to from sm → well_formed sm = true.
Proof.
  unfold decodes_to, SubnetMapUnmarshallerHook. cbn [negb].
  destruct (output_of from) as [[output|err]|]; [|done|done].
  unfold to_SubnetMap. destruct (decode_output output) as [intermediate|]; [|done].
  destruct (fill _ _) as [[t|err]|] eqn:Hf; [|done|done].
  intros [= <-]. unfold well_formed. cbn [tree]. by eapply fill_fits.
Qed.

End LookupFacts.

(** ** Keys round trip *)

Section FoldInsert.
Context {A B : Type} (f : A → string) (g : A → B).

Lemma foldl_insert_lookup (l : list A) (m : gmap string B) k x :
  foldl (λ m a, <[f a := g a]> m) m l !! k = Some x →
  (∃ a, a ∈ l ∧ f a = k ∧ g a = x) ∨ m !! k = Some x.
Proof.
  revert m. induction l as [|a l IH]; intros m; cbn [foldl]; [by right|].
  intros [(a' & Hin & ? & ?)|Hm]%IH.
  - left. exists a'. split; [by right|done].
  - destruct (decide (f a = k)) as [<-|Hne].
    + rewrite lookup_insert_eq in Hm. injection Hm as <-. left. exists a. split; [by left|done].
    + rewrite lookup_insert_ne in Hm by done. by right.
Qed.

Lemma foldl_insert_is_Some (l : list A) (m : gmap string B) k :
  is_Some (m !! k) → is_Some (foldl (λ m a, <[f a := g a]> m) m l !! k).
Proof.
  revert m. induction l as [|a l IH]; intros m Hm; cbn [foldl]; [done|].
  apply IH. destruct (decide (f a = k)) as [<-|Hne].
  - by rewrite lookup_insert_eq.
  - by rewrite lookup_insert_ne.
Qed.

Lemma foldl_insert_elem (l : list A) (m : gmap string B) a :
  a ∈ l → (∀ a', a' ∈ l → f a' = f a → g a' = g a) →
  foldl (λ m a, <[f a := g a]> m) m l !! f a = Some (g a).
Proof.
  revert m. induction l as [|a0 l IH]; intros m Hin Hfun; [by apply elem_of_nil in Hin|].
  cbn [foldl]. apply elem_of_cons in Hin as [->|Hl].
  2:{ apply IH; [done|]. intros a' Ha'. apply Hfun. by right. }
  - destruct (foldl_insert_is_Some l (<[f a0 := g a0]> m) (f a0)) as [x Hx];
      [by rewrite lookup_insert_eq|].
    rewrite Hx. f_equal.
    apply foldl_insert_lookup in Hx as [(a' & Hin' & Hf & <-)|E].
    + apply Hfun; [by right|done].
    + rewrite lookup_insert_eq in E. congruence.
Qed.
End FoldInsert.

Lemma key_string_VString s : key_string (VString s) = Some s.
Proof. done. Qed.

Lemma address_of_facts q :
  (length q ≤ 128)%nat →
  let A := patricia.Address (patricia.address_of q) in
  is_bytes A ∧ length A = 16%nat
  ∧ patricia.bits_of_bytes A = q ++ replicate (128 - length q) false
  ∧ Mask A (CIDRMask (Z.of_nat (length q)) 128) = A.
Proof.
  intros Hq A.
  assert (length (q ++ replicate (128 - length q) false) = (8 * 16)%nat) as Hlen
    by (rewrite length_app, length_replicate; lia).
  assert (is_bytes A) as Hb by (by apply is_bytes_bytes_of_bits).
  assert (length A = 16%nat) as Hl by apply length_bytes_of_bits.
  assert (patricia.bits_of_bytes A = q ++ replicate (128 - length q) false) as Hbits
    by (by apply bits_of_bytes_of_bits).
  repeat split; try done.
  destruct (is_bytes_Mask A (Z.of_nat (length q)) Hb Hl ltac:(lia)) as [Hb' Hl'].
  apply bits_of_bytes_inj; [done|done|lia|].
  rewrite bits_Mask by (done || lia). rewrite Hbits, Nat2Z.id.
  by rewrite take_app_length.
Qed.

(** An IPv4-mapped address at the end of a path: the path has 96 bits or more. *)
Lemma mapped_path_length q a b c d :
  (length q ≤ 128)%nat →
  patricia.Address (patricia.address_of q) = IPv4 a b c d → (96 ≤ length q)%nat.
Proof.
  intros Hq HA. destruct (address_of_facts q Hq) as (_ & _ & Hbits & _).
  rewrite HA in Hbits. destruct (decide (96 ≤ length q)%nat) as [|Hlt]; [done|]. exfalso.
  assert (patricia.bits_of_bytes (IPv4 a b c d) !! 95%nat = Some true) as H1 by done.
  rewrite Hbits in H1. rewrite lookup_app_r in H1 by lia.
  apply lookup_replicate in H1 as [? _]. done.
Qed.

(** The string of the address of a path, through the two loops of the
    hook, is stored at this path. *)
Lemma key_roundtrip q :
  (length q ≤ 128)%nat →
  ∃ a, address_of_key (converted (patricia.IPv6Address_String (patricia.address_of q)))
       = Some (inl a)
       ∧ patricia.key_of a = q
       ∧ ∀ i, convert_key i (VString (patricia.IPv6Address_String (patricia.address_of q)))
              = inl (converted (patricia.IPv6Address_String (patricia.address_of q))).
Proof.
  intros Hq. destruct (address_of_facts q Hq) as (Hb & Hl & Hbits & Hm).
  unfold patricia.IPv6Address_String. rewrite Length_address_of.
  set (A := patricia.Address (patricia.address_of q)) in *.
  set (L := Z.of_nat (length q)) in *. assert (0 ≤ L ≤ 128) as HL by lia.
  destruct (To4_16 A Hl) as [[H4 _]|(a & b & c & d & HA & H4)].
  - (* an IPv6 prefix *)
    rewrite IPNet_String_v6 by done.
    assert (∀ i, convert_key i (VString (string6 A +:+ "/" +:+ uitoa L))
                 = inl (string6 A +:+ "/" +:+ uitoa L)) as Hc.
    { intros i. rewrite convert_key_spec, key_string_VString.
      rewrite ParseCIDR_v6 by done. rewrite Hm, canonical_key_v6 by done.
      by rewrite IPNet_String_v6. }
    unfold converted. rewrite Hc.
    exists (patricia.mkIPv6Address A L). split; [|split; [|done]].
    + rewrite <-(IPNet_String_v6 A L) by done. rewrite <-canonical_key_v6 by done.
      rewrite <-Hm at 1. rewrite address_of_canonical_key_v6 by done. by rewrite Hm, H4.
    + unfold patricia.key_of. cbn [patricia.Address patricia.Length].
      rewrite Hbits. unfold L. rewrite Nat2Z.id. by rewrite take_app_length.
  - (* an IPv4 prefix *)
    assert (96 ≤ length q)%nat as H96 by (by eapply mapped_path_length).
    rewrite HA in Hb. unfold IPv4, v4InV6Prefix in Hb. cbn [app] in Hb.
    do 12 (apply Forall_cons in Hb as [_ Hb]).
    apply Forall_cons in Hb as [Ha Hb]. apply Forall_cons in Hb as [Hb' Hb].
    apply Forall_cons in Hb as [Hc Hb]. apply Forall_cons in Hb as [Hd _].
    rewrite HA. rewrite IPNet_String_mapped by done.
    replace (Z.max 0 (L - 96)) with (L - 96) by lia.
    assert (0 ≤ L - 96 ≤ 32) as Hn by lia.
    assert (zip_with Z.land [a; b; c; d] (CIDRMask (L - 96) 32) = [a; b; c; d]) as Hz.
    { pose proof (Mask_mapped a b c d (L - 96) Hn) as HM.
      replace (L - 96 + 96) with L in HM by lia. rewrite <-HA, Hm, HA in HM.
      unfold IPv4 in HM. by apply app_inv_head in HM. }
    assert (∀ i, convert_key i (VString (string4 [a; b; c; d] +:+ "/" +:+ uitoa (L - 96)))
                 = inl (canonical_key (mkIPNet [a; b; c; d] (CIDRMask (L - 96) 32)))) as Hck.
    { intros i. rewrite convert_key_spec, key_string_VString.
      rewrite ParseCIDR_v4 by done. by rewrite Hz. }
    unfold converted. rewrite Hck.
    exists (patricia.mkIPv6Address (IPv4 a b c d) L). split; [|split; [|done]].
    + rewrite <-Hz at 1. rewrite address_of_canonical_key_v4 by done.
      rewrite Hz. do 3 f_equal. lia.
    + unfold patricia.key_of. cbn [patricia.Address patricia.Length].
      rewrite <-HA. fold A. rewrite Hbits. unfold L. rewrite Nat2Z.id. by rewrite take_app_length.
Qed.

Lemma IPv6Address_String_inj q1 q2 :
  (length q1 ≤ 128)%nat → (length q2 ≤ 128)%nat →
  converted (patricia.IPv6Address_String (patricia.address_of q1))
  = converted (patricia.IPv6Address_String (patricia.address_of q2)) →
  q1 = q2.
Proof.
  intros H1 H2 Heq.
  destruct (key_roundtrip q1 H1) as (a1 & Ha1 & <- & _).
  destruct (key_roundtrip q2 H2) as (a2 & Ha2 & <- & _).
  rewrite Heq in Ha1. congruence.
Qed.

(** ** Marshalling and decoding again *)

Section RoundTrip.
Context {V : Type} `{!Decodable V}.
Implicit Types (sm : SubnetMap V) (t : patricia.TreeV6 V).

Lemma MarshalYAML_fold t :
  (MarshalYAML (mkSubnetMap (Some t))).1
  = foldl (λ m (a : list bool * V), <[path_string a.1 := a.2]> m) ∅ (patricia.nodes [] t).
Proof.
  unfold MarshalYAML, patricia.Iterate. cbn [tree fst].
  generalize (∅ : gmap string V). induction (patricia.nodes [] t) as [|[q v] l IH]; intros m; [done|].
  cbn [map foldl]. apply IH.
Qed.

Lemma MarshalYAML_lookup t k v :
  fits 128 t = true →
  (MarshalYAML (mkSubnetMap (Some t))).1 !! k = Some v
  ↔ ∃ q, tag_at q t = Some v ∧ path_string q = k.
Proof.
  intros Hfit. rewrite MarshalYAML_fold. split.
  - intros [([q v'] & Hin & Hk & Hv)|?]%foldl_insert_lookup; [|done].
    cbn [fst snd] in *. subst. apply elem_of_nodes in Hin as (q' & -> & Hq). by exists q'.
  - intros (q & Hq & <-).
    apply (foldl_insert_elem (λ a : list bool * V, path_string a.1) snd _ _ (q, v)).
    + apply elem_of_nodes. by exists q.
    + intros [q' v'] (q'' & -> & Hq')%elem_of_nodes Heq. cbn [fst snd] in *.
      assert (q'' = q) as ->; [|congruence].
      apply IPv6Address_String_inj.
      * eapply fits_tag_at; [done|by rewrite Hq'].
      * eapply fits_tag_at; [done|by rewrite Hq].
      * unfold path_string in Heq. cbn [rev app] in Heq. by rewrite Heq.
Qed.

Lemma convert_entries_reflect (l : list (string * V)) i output :
  (∀ k v, (k, v) ∈ l → ∀ j, convert_key j (VString k) = inl (converted k)) →
  convert_entries (map (λ '(k, v), (VString k, encode v)) l) i output
  = inl (foldl (λ m (a : string * V), <[converted a.1 := encode a.2]> m) output l).
Proof.
  revert i output. induction l as [|[k v] l IH]; intros i output Hl; [done|].
  cbn [map convert_entries foldl fst snd]. rewrite (Hl k v) by by left.
  rewrite Interface_encode. apply IH. intros k' v' Hin. apply (Hl k' v'). by right.
Qed.

(** Decoding the mapping that [MarshalYAML] gives, whatever the order of its
    entries, builds a tree with the same tags at the same paths. *)
Lemma roundtrip_tree t (l : list (string * V)) :
  fits 128 t = true → l ≡ₚ map_to_list (MarshalYAML (mkSubnetMap (Some t))).1 →
  ∃ t', SubnetMapUnmarshallerHook (reflect_map l) true
        = Some (ISubnetMap (mkSubnetMap (Some t')), None)
        ∧ ∀ q, (length q ≤ 128)%nat → tag_at q t' = tag_at q t.
Proof.
  intros Hfit Hperm.
  assert (∀ k v, (k, v) ∈ l ↔ ∃ q, tag_at q t = Some v ∧ path_string q = k) as Hl.
  { intros k v. rewrite Hperm, elem_of_map_to_list. by apply MarshalYAML_lookup. }
  assert (∀ q v, tag_at q t = Some v → (length q ≤ 128)%nat) as Hlen.
  { intros q v Hq. eapply fits_tag_at; [done|by rewrite Hq]. }
  (* the first loop *)
  assert (∀ k v, (k, v) ∈ l → ∀ j, convert_key j (VString k) = inl (converted k)) as Hconv.
  { intros k v (q & Hq & <-)%Hl j. by destruct (key_roundtrip q (Hlen _ _ Hq)) as (_ & _ & _ & ?). }
  unfold SubnetMapUnmarshallerHook, output_of, reflect_map. cbn [negb kind MapRange].
  rewrite bool_decide_eq_true_2 by done. rewrite convert_entries_reflect by done.
  set (output := foldl _ ∅ l).
  assert (∀ key x, output !! key = Some x ↔ ∃ q v, tag_at q t = Some v
            ∧ converted (path_string q) = key ∧ x = encode v) as Hout.
  { intros key x. split.
    - intros [([k v] & Hin & Hk & Hx)|?]%foldl_insert_lookup; [|done]. cbn [fst snd] in *.
      apply Hl in Hin as (q & Hq & <-). by exists q, v.
    - intros (q & v & Hq & <- & ->).
      apply (foldl_insert_elem (λ a : string * V, converted a.1) (λ a, encode a.2) _ _
               (path_string q, v)).
      + apply Hl. by exists q.
      + intros [k' v'] (q' & Hq' & <-)%Hl Heq. cbn [fst snd] in *.
        assert (q' = q) as ->; [|congruence].
        apply IPv6Address_String_inj; [by eapply Hlen|by eapply Hlen|done]. }
  (* the sub-decoder *)
  unfold to_SubnetMap.
  destruct (decode_output_is_Some output) as [intermediate Hdec].
  { intros key x (q & v & _ & _ & ->)%Hout. by rewrite decode_encode. }
  rewrite Hdec.
  assert (∀ key v, intermediate !! key = Some v ↔ ∃ q, tag_at q t = Some v
            ∧ converted (path_string q) = key) as Hint.
  { intros key v. rewrite (decode_output_Some _ _ Hdec). split.
    - destruct (output !! key) as [x|] eqn:E; [|done]. cbn.
      apply Hout in E as (q & v' & Hq & <- & ->). rewrite decode_encode. intros [= <-]. by exists q.
    - intros (q & Hq & <-).
      assert (output !! converted (path_string q) = Some (encode v)) as -> by (apply Hout; by exists q, v).
      cbn. by apply decode_encode. }
  (* the second loop *)
  destruct (fill_is_inl (map_to_list intermediate) patricia.NewTreeV6) as [t' Hfill].
  { intros key v (q & Hq & <-)%elem_of_map_to_list%Hint.
    destruct (key_roundtrip q (Hlen _ _ Hq)) as (a & Ha & _). by exists a. }
  rewrite Hfill. exists t'. split; [done|]. intros q Hq.
  destruct (fill_tag_at _ _ _ q Hfill) as [[Ht Hno]|(key & v & a & Hin & Ha & Hk & Ht)].
  - rewrite Ht. unfold patricia.NewTreeV6. rewrite tag_at_Empty.
    destruct (tag_at q t) as [v|] eqn:E; [|done]. exfalso.
    destruct (key_roundtrip q Hq) as (a & Ha & Hk & _).
    apply (Hno (converted (path_string q)) v a); [|done|done].
    apply elem_of_map_to_list, Hint. by exists q.
  - rewrite Ht. apply elem_of_map_to_list, Hint in Hin as (q' & Hq' & <-).
    destruct (key_roundtrip q' (Hlen _ _ Hq')) as (a' & Ha' & Hk' & _).
    unfold path_string in Ha. rewrite Ha' in Ha. injection Ha as ->. congruence.
Qed.

End RoundTrip.

(** ** A single entry *)

Lemma mask32_bits n :
  0 ≤ n ≤ 32 →
  patricia.bits_of_bytes (CIDRMask n 32)
  = replicate (Z.to_nat n) true ++ replicate (32 - Z.to_nat n) false.
Proof.
  intros Hn.
  pose proof (forallb_below mask32_bits_ok 33 ltac:(by vm_compute) n ltac:(lia)) as H.
  by apply bool_decide_eq_true_1 in H.
Qed.

Lemma bits_of_bytes_app p1 p2 :
  patricia.bits_of_bytes (p1 ++ p2) = patricia.bits_of_bytes p1 ++ patricia.bits_of_bytes p2.
Proof. unfold patricia.bits_of_bytes. by rewrite map_app, concat_app. Qed.

(** The first [n + 96] bits of the mapped form of a masked IPv4 address
    are those of the address. *)
Lemma key_of_mapped a b c d n :
  0 ≤ n ≤ 32 →
  patricia.key_of (patricia.mkIPv6Address
    (v4InV6Prefix ++ zip_with Z.land [a; b; c; d] (CIDRMask n 32)) (n + 96))
  = take (Z.to_nat (n + 96)) (patricia.bits_of_bytes (IPv4 a b c d)).
Proof.
  intros Hn. destruct (mask32_spec n Hn) as (_ & Hl & _).
  unfold patricia.key_of, IPv4. cbn [patricia.Address patricia.Length].
  rewrite !bits_of_bytes_app.
  assert (length (patricia.bits_of_bytes v4InV6Prefix) = 96%nat) as H96 by done.
  replace (Z.to_nat (n + 96)) with (96 + Z.to_nat n)%nat by lia.
  rewrite !take_app_add' by done. f_equal.
  rewrite bits_of_bytes_zip_land by (by rewrite Hl). rewrite mask32_bits by done.
  rewrite zip_andb_mask by (rewrite length_bits_of_bytes; simpl; lia).
  rewrite take_app_length' by (rewrite length_take, length_bits_of_bytes; simpl; lia). done.
Qed.

Lemma first_sep_app s1 c s2 :
  all (λ x, negb (is_sep x)) s1 = true → is_sep c = true →
  first_sep (s1 +:+ String.String c s2) = Some c.
Proof.
  intros H1 Hc. induction s1 as [|x s1 IH].
  - rewrite app_nil_l_s. cbn [first_sep]. unfold is_sep in Hc.
    destruct (Ascii.eqb c "."); [done|]. by destruct (Ascii.eqb c ":").
  - rewrite app_cons_s. simpl in H1. apply andb_true_iff in H1 as [Hx H1].
    cbn [first_sep]. unfold is_sep in Hx. apply negb_true_iff, orb_false_iff in Hx as [-> ->].
    by apply IH.
Qed.

Lemma ParseIP_string4 a b c d :
  is_byte a → is_byte b → is_byte c → is_byte d →
  ParseIP (string4 [a; b; c; d]) = IPv4 a b c d.
Proof.
  intros Ha Hb Hc Hd. unfold ParseIP.
  assert (first_sep (string4 [a; b; c; d]) = Some "."%char) as ->.
  { unfold string4. change (at_ [a; b; c; d] 0) with a.
    change ("." +:+ ?s) with (String.String "." s).
    apply first_sep_app; [|done].
    destruct (dec_ok_elim _ _ (ubtoa_ok a Ha)) as (_ & Hall & _).
    eapply all_impl; [|done]. intros x Hx. unfold is_sep.
    destruct (Ascii.eqb_spec x ".") as [->|]; [done|].
    destruct (Ascii.eqb_spec x ":") as [->|]; done. }
  by apply parseIPv4_string4.
Qed.

Lemma ParseIP_mapped a b c d :
  is_byte a → is_byte b → is_byte c → is_byte d →
  ParseIP ("::ffff:" +:+ string4 [a; b; c; d]) = IPv4 a b c d.
Proof. intros Ha Hb Hc Hd. unfold ParseIP. cbn [first_sep]. by apply parseIPv6_mapped. Qed.

Section SingleFacts.
Context {V : Type} `{!Decodable V}.

Lemma find_key_Empty q (best : option V) : patricia.find_key q patricia.Empty best = best.
Proof. by destruct q. Qed.

Lemma find_key_single p q (v : V) :
  patricia.find_key q (patricia.set_key p v patricia.Empty) None
  = if bool_decide (p `prefix_of` q) then Some v else None.
Proof.
  revert q. induction p as [|b p IH]; intros q.
  - rewrite bool_decide_eq_true_2 by apply prefix_nil.
    destruct q as [|[] q]; cbn; by rewrite ?find_key_Empty.
  - destruct q as [|c q].
    + rewrite bool_decide_eq_false_2 by (intros ?%prefix_nil_inv; done). by destruct b.
    + cbn [patricia.set_key patricia.tag_of patricia.child].
      destruct b, c; cbn [patricia.find_key]; rewrite ?IH, ?find_key_Empty.
      * by rewrite (bool_decide_ext (true :: p `prefix_of` true :: q) (p `prefix_of` q))
          by (split; [apply prefix_cons_inv_2|apply prefix_cons]).
      * rewrite bool_decide_eq_false_2; [done|]. by intros ?%prefix_cons_inv_1.
      * rewrite bool_decide_eq_false_2; [done|]. by intros ?%prefix_cons_inv_1.
      * by rewrite (bool_decide_ext (false :: p `prefix_of` false :: q) (p `prefix_of` q))
          by (split; [apply prefix_cons_inv_2|apply prefix_cons]).
Qed.

Lemma decode_output_singleton key x (v : V) :
  decode x = Some v → decode_output {[ key := x ]} = Some {[ key := v ]}.
Proof.
  intros Hx. unfold decode_output. rewrite bool_decide_eq_true_2.
  - f_equal. by apply omap_singleton_Some.
  - apply map_Forall_singleton. by rewrite Hx.
Qed.

(** The hook on a map of one entry. *)
Lemma hook_single_entry k raw key (v : V) a :
  (∀ i, convert_key i k = inl key) → decode (Interface_ raw) = Some v →
  address_of_key key = Some (inl a) →
  SubnetMapUnmarshallerHook (VMap [(k, raw)]) true
  = Some (ISubnetMap (mkSubnetMap (Some (patricia.set_key (patricia.key_of a) v patricia.Empty))), None).
Proof.
  intros Hk Hraw Ha. unfold SubnetMapUnmarshallerHook, output_of. cbn [negb kind MapRange].
  rewrite bool_decide_eq_true_2 by done. cbn [convert_entries]. rewrite Hk.
  rewrite insert_empty. unfold to_SubnetMap. rewrite (decode_output_singleton _ _ v) by done.
  rewrite map_to_list_singleton. cbn [fill]. by rewrite Ha.
Qed.

End SingleFacts.

(** * The properties of the specification *)

(** C1. For every table and every address, [Lookup] returns the value of
    the stored entry whose prefix contains the address and is the longest
    such prefix. The tables that the hook builds are well formed. The
    table built from 10.0.0.0/8: X and 10.0.0.0/16: Y, in any order of the
    two entries, answers Y for 10.0.0.1 and X for 10.1.0.1. *)
Theorem lookup_most_specific :
  (∀ (V : Type) (D : Decodable V) (sm : SubnetMap V) (ip : IP) a0 v0,
     well_formed sm = true → is_address ip →
     (a0, v0) ∈ entries sm → contains a0 ip →
     ∃ a v, (a, v) ∈ entries sm ∧ contains a ip
       ∧ (∀ a' v', (a', v') ∈ entries sm → contains a' ip →
                   patricia.Length a' ≤ patricia.Length a)
       ∧ Lookup sm ip = Some (v, true))
  ∧ (∀ (V : Type) (D : Decodable V) from (sm : SubnetMap V),
       decodes_to from sm → well_formed sm = true)
  ∧ (∀ from,
       from ∈ [gin_H [("10.0.0.0/8", "X"); ("10.0.0.0/16", "Y")];
               gin_H [("10.0.0.0/16", "Y"); ("10.0.0.0/8", "X")]]%string →
       ∃ sm : SubnetMap string, decodes_to from sm
         ∧ Lookup sm (ParseIP "10.0.0.1") = Some ("Y"%string, true)
         ∧ Lookup sm (ParseIP "10.1.0.1") = Some ("X"%string, true)).
Proof.
  split; [|split].
  - intros V D sm ip a0 v0 Hwf Hip Hin Hc. by eapply Lookup_found.
  - intros V D from sm. apply decodes_to_well_formed.
  - intros from [->|[->|[]%elem_of_nil]%elem_of_cons]%elem_of_cons.
    + eexists. split; [by vm_compute|]. split; by vm_compute.
    + eexists. split; [by vm_compute|]. split; by vm_compute.
Qed.

Lemma lookup_most_specific_witness :
  let sm := table_of (gin_H [("10.0.0.0/8", "X"); ("10.0.0.0/16", "Y")]%string) in
  let ip := ParseIP "10.0.0.1" in
  ∃ a v, (a, v) ∈ entries sm ∧ contains a ip
    ∧ (∀ a' v', (a', v') ∈ entries sm → contains a' ip →
                patricia.Length a' ≤ patricia.Length a)
    ∧ Lookup sm ip = Some (v, true).
Proof.
  intros sm ip.
  apply (proj1 lookup_most_specific string _ sm ip
           (patricia.address_of (take 104 (patricia.bits_of_bytes (IPv4 10 0 0 0)))) "X"%string).
  - by vm_compute.
  - right. by vm_compute.
  - vm_compute. left.
  - exists (drop 104 (patricia.bits_of_bytes (IPv4 10 0 0 1))). by vm_compute.
Defined.

(** C2. For every table that the hook has decoded, decoding the mapping
    that [MarshalYAML] gives for it, whatever the order of its entries,
    succeeds, and the table obtained answers every lookup as the first
    one does. *)
Theorem marshal_decode_roundtrip (V : Type) (D : Decodable V)
    (from : Value) (sm : SubnetMap V) (l : list (string * V)) :
  decodes_to from sm → l ≡ₚ map_to_list (MarshalYAML sm).1 →
  ∃ sm', decodes_to (reflect_map l) sm' ∧ ∀ ip, Lookup sm' ip = Lookup sm ip.
Proof.
  intros Hdec Hperm. pose proof (decodes_to_well_formed _ _ Hdec) as Hwf.
  assert (∃ t, sm = mkSubnetMap (Some t)) as [t ->].
  { unfold decodes_to, SubnetMapUnmarshallerHook in Hdec. cbn [negb] in Hdec.
    destruct (output_of from) as [[output|err]|]; [|done|done].
    unfold to_SubnetMap in Hdec. destruct (decode_output output); [|done].
    destruct (fill _ _) as [[t|err]|]; [|done|done]. injection Hdec as <-. by exists t. }
  destruct (roundtrip_tree t l Hwf Hperm) as (t' & Hhook & Htags).
  exists (mkSubnetMap (Some t')). split; [done|]. intros ip. by apply Lookup_ext.
Qed.

Lemma marshal_decode_roundtrip_witness :
  let from := gin_H [("203.0.113.0/24", "customer1"); ("2001:db8:1::/64", "customer2")]%string in
  ∃ sm', decodes_to (reflect_map (map_to_list (MarshalYAML (table_of from)).1)) sm'
         ∧ ∀ ip, Lookup sm' ip = Lookup (table_of from) ip.
Proof.
  intros from.
  apply (marshal_decode_roundtrip string _ from (table_of from)
           (map_to_list (MarshalYAML (table_of from)).1)).
  - by vm_compute.
  - reflexivity.
Defined.

(** C4. Decoding a mapping that has one of the keys 192.0.2.1/38,
    192.0.2.1/255.0.255.0 and 2001:db8::/1000 returns an error and no
    table, whatever the other entries are. *)
Theorem invalid_keys_rejected (V : Type) (D : Decodable V)
    (from k v : Value) (bad : string) :
  kind from = Map → (k, v) ∈ MapRange from →
  key_string k = Some bad → bad ∈ invalid_keys →
  ∃ err, SubnetMapUnmarshallerHook (V:=V) from true = Some (INil, Some err).
Proof.
  intros Hkind Hin Hk Hbad.
  assert (∀ j, ∃ err, convert_key j k = inr err) as Hconv.
  { intros j. rewrite convert_key_spec, Hk.
    unfold invalid_keys in Hbad.
    repeat (apply elem_of_cons in Hbad as [->|Hbad]; [by eexists|]).
    by apply elem_of_nil in Hbad. }
  destruct (convert_entries_inr (MapRange from) 0 ∅ k v Hin Hconv) as [err Herr].
  exists err. unfold SubnetMapUnmarshallerHook, output_of. cbn [negb].
  rewrite bool_decide_eq_true_2 by done. by rewrite Herr.
Qed.

Lemma invalid_keys_rejected_witness :
  ∃ err, SubnetMapUnmarshallerHook (V:=string)
           (gin_H [("203.0.113.0/24", "customer1"); ("192.0.2.1/38", "customer")]%string) true
         = Some (INil, Some err).
Proof.
  apply (invalid_keys_rejected string _ _
           (VString "192.0.2.1/38") (VIface (VString "customer")) "192.0.2.1/38"%string).
  - reflexivity.
  - cbn. right. left.
  - reflexivity.
  - left.
Defined.




(** C6. When the target type is not [SubnetMap[V]], or when the input is
    neither a map nor a value that is or converts to a [V], the hook
    returns its input ([from.Interface()]) with a nil error. *)
Theorem hook_declines (V : Type) (D : Decodable V) (from : Value) (to_is_SubnetMap : bool) :
  to_is_SubnetMap = false
  ∨ (kind from ≠ Map ∧ is_V from = false ∧ convertible_to_V from = false) →
  SubnetMapUnmarshallerHook (V:=V) from to_is_SubnetMap = Some (IValue (Interface_ from), None)
  ∧ (kind from ≠ Interface → Interface_ from = from).
Proof.
  intros H. split.
  - unfold SubnetMapUnmarshallerHook. destruct H as [->|(Hk & H1 & H2)]; [done|].
    destruct to_is_SubnetMap; [|done]. cbn [negb]. unfold output_of.
    rewrite bool_decide_eq_false_2 by done. by rewrite H1, H2.
  - by destruct from.
Qed.

Lemma hook_declines_witness :
  SubnetMapUnmarshallerHook (V:=string) (VBool true) true
  = Some (IValue (Interface_ (VBool true)), None)
  ∧ (kind (VBool true) ≠ Interface → Interface_ (VBool true) = VBool true).
Proof.
  apply (hook_declines string _ (VBool true) true).
  right. split; [discriminate|]. split; reflexivity.
Defined.

(** C7. The table decoded from a nil map or from an empty mapping answers
    the zero value and false for every address, and its mapping form is
    empty. So does any table for an address that no stored entry contains.
    [Lookup] returns a value and a boolean for every address, and for
    every slice when the table has no tree. *)
Theorem lookup_miss :
  (∀ (V : Type) (D : Decodable V) from, from = VNilMap ∨ from = VMap [] →
     ∃ sm : SubnetMap V, decodes_to from sm
       ∧ (∀ ip, is_address ip → Lookup sm ip = Some (zero, false))
       ∧ MarshalYAML sm = (∅, None))
  ∧ (∀ (V : Type) (D : Decodable V) (sm : SubnetMap V) ip,
       is_address ip → (∀ a v, (a, v) ∈ entries sm → ¬ contains a ip) →
       Lookup sm ip = Some (zero, false))
  ∧ (∀ (V : Type) (D : Decodable V) (sm : SubnetMap V) ip,
       is_address ip → ∃ v found, Lookup sm ip = Some (v, found))
  ∧ (∀ (V : Type) (D : Decodable V) ip,
       Lookup (V:=V) (mkSubnetMap None) ip = Some (zero, false)).
Proof.
  split; [|split; [|split]].
  - intros V D from Hfrom. exists (mkSubnetMap (Some patricia.Empty)). split; [|split].
    + unfold decodes_to, SubnetMapUnmarshallerHook, output_of, to_SubnetMap.
      destruct Hfrom as [-> | ->]; cbn [negb kind MapRange convert_entries];
        rewrite bool_decide_eq_true_2 by done; cbn [convert_entries];
        unfold decode_output; rewrite bool_decide_eq_true_2 by apply map_Forall_empty;
        by rewrite omap_empty, map_to_list_empty.
    + intros ip Hip. by rewrite Lookup_tree, find_key_Empty.
    + done.
  - intros V D sm ip. apply Lookup_not_found.
  - intros V D sm ip. apply Lookup_total.
  - done.
Qed.

Lemma lookup_miss_witness :
  ∃ sm : SubnetMap string, decodes_to VNilMap sm
    ∧ (∀ ip, is_address ip → Lookup sm ip = Some (zero, false))
    ∧ MarshalYAML sm = (∅, None).
Proof.
  apply (proj1 lookup_miss string _ VNilMap). by left.
Defined.

(** C8. [Lookup] answers alike for the 4-byte form of an IPv4 address and
    for its 16-byte, IPv4-mapped form; [ParseIP] reads the dotted spelling
    a.b.c.d and the spelling ::ffff:a.b.c.d as the same 16 bytes. The
    table built from 203.0.113.0/24: A answers A for ::ffff:203.0.113.18
    and for 203.0.113.16, and misses 203.0.1.1. *)
Theorem lookup_IPv4_mapped :
  (∀ (V : Type) (D : Decodable V) (sm : SubnetMap V) a b c d,
     Lookup sm [a; b; c; d] = Lookup sm (IPv4 a b c d))
  ∧ (∀ a b c d, is_byte a → is_byte b → is_byte c → is_byte d →
       ParseIP (string4 [a; b; c; d]) = IPv4 a b c d
       ∧ ParseIP ("::ffff:" +:+ string4 [a; b; c; d]) = IPv4 a b c d)
  ∧ (∃ sm : SubnetMap string,
       decodes_to (gin_H [("203.0.113.0/24", "A")]%string) sm
       ∧ Lookup sm (ParseIP "::ffff:203.0.113.18") = Some ("A"%string, true)
       ∧ Lookup sm (ParseIP "203.0.113.16") = Some ("A"%string, true)
       ∧ Lookup sm (ParseIP "203.0.1.1") = Some (""%string, false)).
Proof.
  split; [|split].
  - intros V D sm a b c d. unfold Lookup. destruct (tree sm); [|done].
    by rewrite To16_4, To16_16.
  - intros a b c d Ha Hb Hc Hd. split; [by apply ParseIP_string4|by apply ParseIP_mapped].
  - eexists. split; [by vm_compute|]. repeat split; by vm_compute.
Qed.

Lemma lookup_IPv4_mapped_witness :
  ParseIP (string4 [203; 0; 113; 18]) = IPv4 203 0 113 18
  ∧ ParseIP ("::ffff:" +:+ string4 [203; 0; 113; 18]) = IPv4 203 0 113 18.
Proof.
  apply (proj1 (proj2 lookup_IPv4_mapped)); unfold is_byte; lia.
Defined.

(** C9. In the loop that fills the tree, parsing a key of the decoded map
    again never fails, and the address made of it never makes
    [NewIPv6Address] panic: every key that the first loop makes, and the
    key "::/0" of the single value, is read back by [ParseCIDR]. So the
    loop returns a tree. *)
Theorem reparse_never_fails (V : Type) (D : Decodable V)
    (from : Value) (output : gmap string Value) (intermediate : gmap string V) :
  output_of from = Some (inl output) → decode_output output = Some intermediate →
  (∀ key, is_Some (intermediate !! key) → ∃ a, address_of_key key = Some (inl a))
  ∧ ∃ trie, fill (map_to_list intermediate) patricia.NewTreeV6 = Some (inl trie).
Proof.
  intros Hout Hdec.
  assert (∀ key, is_Some (intermediate !! key) → ∃ a, address_of_key key = Some (inl a)) as Hkeys.
  { intros key [v Hv]. rewrite (decode_output_Some _ _ Hdec) in Hv.
    destruct (output !! key) as [x|] eqn:Hx; [|done].
    unfold output_of in Hout. case_bool_decide.
    - injection Hout as Hout.
      destruct (convert_entries_keys _ _ _ _ key Hout) as [[? H0]|(j & k & Hk)]; [by rewrite Hx| |].
      + by rewrite lookup_empty in H0.
      + by eapply address_of_converted_key.
    - destruct (is_V from || convertible_to_V from); [|done]. injection Hout as <-.
      apply lookup_singleton_Some in Hx as [<- _]. by eexists. }
  split; [done|]. apply fill_is_inl. intros key v Hin%elem_of_map_to_list.
  apply Hkeys. by rewrite Hin.
Qed.

Lemma reparse_never_fails_witness :
  (∀ key, is_Some (example_intermediate !! key) → ∃ a, address_of_key key = Some (inl a))
  ∧ ∃ trie, fill (map_to_list example_intermediate) patricia.NewTreeV6 = Some (inl trie).
Proof.
  apply (reparse_never_fails string _ example_from example_output example_intermediate);
    reflexivity.
Defined.

(** C10. A key whose address has bits set beyond its prefix length is
    accepted: the hook only uses the network that [ParseCIDR] returns, in
    which these bits are masked, so two keys of the same network give the
    same result. An IPv4 key a.b.c.d/n and an IPv6 key are read as the
    same network as the spelling of their network address. The hook
    decodes 192.0.2.1/24 as it decodes 192.0.2.0/24, into a table. *)
Theorem host_bits_masked :
  (∀ (V : Type) (D : Decodable V) k1 k2 ip1 ip2 ipNet (v : Value),
     ParseCIDR k1 = inl (ip1, ipNet) → ParseCIDR k2 = inl (ip2, ipNet) →
     SubnetMapUnmarshallerHook (V:=V) (VMap [(VString k1, v)]) true
     = SubnetMapUnmarshallerHook (VMap [(VString k2, v)]) true
     ∧ ∃ key, ∀ i, convert_key i (VString k1) = inl key)
  ∧ (∀ a b c d n, is_byte a → is_byte b → is_byte c → is_byte d → 0 ≤ n ≤ 32 →
       ∃ ip1 ip2 ipNet,
         ParseCIDR (string4 [a; b; c; d] +:+ "/" +:+ uitoa n) = inl (ip1, ipNet)
         ∧ ParseCIDR (string4 (zip_with Z.land [a; b; c; d] (CIDRMask n 32)) +:+ "/" +:+ uitoa n)
           = inl (ip2, ipNet))
  ∧ (∀ p n, is_bytes p → length p = 16%nat → 0 ≤ n ≤ 128 →
       ∃ ip1 ip2 ipNet,
         ParseCIDR (string6 p +:+ "/" +:+ uitoa n) = inl (ip1, ipNet)
         ∧ ParseCIDR (string6 (Mask p (CIDRMask n 128)) +:+ "/" +:+ uitoa n) = inl (ip2, ipNet))
  ∧ (∃ sm : SubnetMap string,
       decodes_to (gin_H [("192.0.2.1/24", "c")]%string) sm
       ∧ decodes_to (gin_H [("192.0.2.0/24", "c")]%string) sm).
Proof.
  split; [|split; [|split]].
  - intros V D k1 k2 ip1 ip2 ipNet v H1 H2. split.
    + unfold SubnetMapUnmarshallerHook, output_of. cbn [negb kind MapRange convert_entries].
      by rewrite !convert_key_spec, !key_string_VString, H1, H2.
    + exists (canonical_key ipNet). intros i. by rewrite convert_key_spec, key_string_VString, H1.
  - intros a b c d n Ha Hb Hc Hd Hn.
    destruct (mask32_spec n Hn) as (_ & Hl & _).
    destruct (zip_land_4 [a; b; c; d] (CIDRMask n 32)) as (a' & b' & c' & d' & Hx); [done|done|].
    assert (is_bytes (zip_with Z.land [a; b; c; d] (CIDRMask n 32))) as Hbx.
    { apply is_bytes_zip_land. repeat (apply Forall_cons; split; [done|]). constructor. }
    pose proof (zip_land_idemp [a; b; c; d] (CIDRMask n 32)) as Hid.
    rewrite Hx in Hbx, Hid |- *.
    apply Forall_cons in Hbx as [Ha' Hbx]. apply Forall_cons in Hbx as [Hb' Hbx].
    apply Forall_cons in Hbx as [Hc' Hbx]. apply Forall_cons in Hbx as [Hd' _].
    eexists _, _, _. split; [by apply ParseCIDR_v4|].
    rewrite ParseCIDR_v4 by done. by rewrite Hid, Hx.
  - intros p n Hp Hl Hn. destruct (is_bytes_Mask p n Hp Hl Hn) as [Hb' Hl'].
    eexists _, _, _. split; [by apply ParseCIDR_v6|].
    rewrite ParseCIDR_v6 by done. by rewrite Mask_idemp.
  - eexists. split; by vm_compute.
Qed.

Lemma host_bits_masked_witness :
  SubnetMapUnmarshallerHook (V:=string) (VMap [(VString "2001:db8::1/32", VString "c")]) true
  = SubnetMapUnmarshallerHook (VMap [(VString "2001:db8::/32", VString "c")]) true
  ∧ ∃ key, ∀ i, convert_key i (VString "2001:db8::1/32") = inl key.
Proof.
  apply (proj1 host_bits_masked string _ "2001:db8::1/32"%string "2001:db8::/32"%string
           (ParseIP "2001:db8::1") (ParseIP "2001:db8::")
           (mkIPNet (ParseIP "2001:db8::") (CIDRMask 32 128))); by vm_compute.
Defined.

(** C3, as the code has it. A key that a dotted-decimal mask follows is
    not read: the hook returns the error of [ParseCIDR]. The key
    ::ffff:203.0.113.0/120 is stored under 203.0.113.0/24, and the tables
    decoded from 203.0.113.0/24 and from ::ffff:203.0.113.0/120 do not
    answer alike for 10.0.0.1. *)
Lemma keys_converted_counterexample :
  convert_key 0 (VString "192.0.2.0/255.255.255.0")
  = inr (ErrParseCIDR (mkParseError "CIDR address" "192.0.2.0/255.255.255.0"))
  ∧ convert_key 0 (VString "::ffff:203.0.113.0/120") = inl "203.0.113.0/24"%string
  ∧ ∃ sm4 sm6 : SubnetMap string,
      decodes_to (gin_H [("203.0.113.0/24", "A")]%string) sm4
      ∧ decodes_to (gin_H [("::ffff:203.0.113.0/120", "A")]%string) sm6
      ∧ Lookup sm4 (ParseIP "10.0.0.1") = Some (""%string, false)
      ∧ Lookup sm6 (ParseIP "10.0.0.1") = Some ("A"%string, true).
Proof.
  split; [by vm_compute|]. split; [by vm_compute|].
  eexists _, _. split; [by vm_compute|]. split; [by vm_compute|]. split; by vm_compute.
Qed.

(** C3, amended. A key of a map is stored if [ParseCIDR] reads it, under
    "::ffff:" followed by the network address and by the number of ones
    plus 96 if its mask has 32 bits, and under [ipNet.String()]
    if its mask has 128 bits; the latter is the IPv6 notation of the
    network, which is read back as the same network, if its address is
    not an IPv4-mapped one. The table decoded from an IPv4 subnet
    a.b.c.d/n has one entry, at the first n + 96 bits of ::ffff:a.b.c.d:
    it answers its value exactly for the addresses that share these bits. *)
Theorem keys_converted_to_IPv6 :
  (∀ i k key, convert_key i k = inl key →
     ∃ s ip ipNet ones bits,
       key_string k = Some s ∧ ParseCIDR s = inl (ip, ipNet)
       ∧ Size (ipnet_Mask ipNet) = (ones, bits)
       ∧ ((bits = 32
           ∧ key = "::ffff:" +:+ IP_String (ipnet_IP ipNet) +:+ "/" +:+ uitoa (ones + 96))
          ∨ (bits = 128 ∧ key = IPNet_String ipNet
             ∧ (To4 (ipnet_IP ipNet) = [] →
                key = string6 (ipnet_IP ipNet) +:+ "/" +:+ uitoa ones
                ∧ ParseCIDR key = inl (ipnet_IP ipNet, ipNet)))))
  ∧ (∀ (V : Type) (D : Decodable V) a b c d n raw (v : V),
       is_byte a → is_byte b → is_byte c → is_byte d → 0 ≤ n ≤ 32 →
       decode (Interface_ raw) = Some v →
       let p := take (Z.to_nat (n + 96)) (patricia.bits_of_bytes (IPv4 a b c d)) in
       let sm := mkSubnetMap (Some (patricia.set_key p v patricia.Empty)) in
       (∀ i, convert_key i (VString (string4 [a; b; c; d] +:+ "/" +:+ uitoa n))
             = inl ("::ffff:" +:+ string4 (zip_with Z.land [a; b; c; d] (CIDRMask n 32))
                    +:+ "/" +:+ uitoa (n + 96)))
       ∧ decodes_to (VMap [(VString (string4 [a; b; c; d] +:+ "/" +:+ uitoa n), raw)]) sm
       ∧ ∀ ip, is_address ip →
           Lookup sm ip
           = Some (if bool_decide (p `prefix_of` patricia.bits_of_bytes (To16 ip))
                   then (v, true) else (zero, false))).
Proof.
  split.
  - intros i k key. rewrite convert_key_spec. destruct (key_string k) as [s|]; [|done].
    destruct (ParseCIDR s) as [[ip ipNet]|err] eqn:E; [|done]. intros [= <-].
    pose proof E as E'.
    apply ParseCIDR_inl in E' as [(a & b & c & d & n & Ha & Hb & Hc & Hd & Hn & _ & ->)|(n & Hb & Hl & Hn & ->)].
    + destruct (mask32_spec n Hn) as (Hs & _).
      eexists s, ip, _, n, 32. repeat split; try done. left. split; [done|].
      by apply canonical_key_v4.
    + destruct (mask128_spec n Hn) as (Hs & _).
      eexists s, ip, _, n, 128. repeat split; try done. right. split; [done|].
      split; [by apply canonical_key_v6|]. cbn [ipnet_IP]. intros H4.
      destruct (is_bytes_Mask ip n Hb Hl Hn) as [Hb' Hl'].
      rewrite canonical_key_v6, IPNet_String_v6 by done. split; [done|].
      rewrite ParseCIDR_v6 by done. by rewrite Mask_idemp.
  - intros V D a b c d n raw v Ha Hb Hc Hd Hn Hdec p sm.
    assert (∀ i, convert_key i (VString (string4 [a; b; c; d] +:+ "/" +:+ uitoa n))
                 = inl (canonical_key (mkIPNet (zip_with Z.land [a; b; c; d] (CIDRMask n 32))
                                               (CIDRMask n 32)))) as Hck.
    { intros i. rewrite convert_key_spec, key_string_VString. by rewrite ParseCIDR_v4. }
    destruct (mask32_spec n Hn) as (_ & Hl & _).
    destruct (zip_land_4 [a; b; c; d] (CIDRMask n 32)) as (a' & b' & c' & d' & Hx); [done|done|].
    split; [|split].
    + intros i. rewrite Hck, canonical_key_v4 by done. by rewrite Hx, IP_String_4.
    + unfold decodes_to, sm, p. rewrite <-key_of_mapped by done.
      eapply hook_single_entry; [done|done|]. by apply address_of_canonical_key_v4.
    + intros ip Hip. unfold sm. rewrite Lookup_tree by done. rewrite find_key_single.
      by case_bool_decide.
Qed.

Lemma keys_converted_to_IPv6_witness :
  let p := take (Z.to_nat (24 + 96)) (patricia.bits_of_bytes (IPv4 203 0 113 77)) in
  let sm := mkSubnetMap (Some (patricia.set_key p "A"%string patricia.Empty)) in
  (∀ i, convert_key i (VString (string4 [203; 0; 113; 77] +:+ "/" +:+ uitoa 24))
        = inl ("::ffff:" +:+ string4 (zip_with Z.land [203; 0; 113; 77] (CIDRMask 24 32))
               +:+ "/" +:+ uitoa (24 + 96)))
  ∧ decodes_to (VMap [(VString (string4 [203; 0; 113; 77] +:+ "/" +:+ uitoa 24),
                       VIface (VString "A"))]) sm
  ∧ ∀ ip, is_address ip →
      Lookup sm ip
      = Some (if bool_decide (p `prefix_of` patricia.bits_of_bytes (To16 ip))
              then ("A"%string, true) else (zero, false)).
Proof.
  apply (proj2 keys_converted_to_IPv6 string _ 203 0 113 77 24 (VIface (VString "A")) "A"%string);
    unfold is_byte; (lia || reflexivity).
Defined.

(** * Further properties of the code *)

(** ** The hook, entry by entry *)

Section HookEntries.
Context {V : Type} `{!Decodable V}.
Implicit Types (output : gmap string Value) (t : TreeV6 V) (sm : SubnetMap V).

Lemma convert_entries_app l1 l2 i output :
  convert_entries (l1 ++ l2) i output =
  match convert_entries l1 i output with
  | inl o => convert_entries l2 (i + length l1) o
  | inr e => inr e
  end.
Proof.
  revert i output. induction l1 as [|[k v] l1 IH]; intros i output; cbn [app convert_entries length].
  - by rewrite Nat.add_0_r.
  - destruct (convert_key i k) as [key|err]; [|done]. rewrite IH. by rewrite Nat.add_succ_r.
Qed.

Lemma convert_entries_is_inl l i output :
  (∀ j k v, l !! j = Some (k, v) → ∃ key, convert_key (i + j) k = inl key) →
  ∃ o, convert_entries l i output = inl o.
Proof.
  revert i output. induction l as [|[k v] l IH]; intros i output Hl; cbn [convert_entries].
  - by eexists.
  - destruct (Hl 0%nat k v eq_refl) as [key Hkey]. rewrite Nat.add_0_r in Hkey. rewrite Hkey.
    apply IH. intros j k' v' Hj. rewrite Nat.add_succ_l, <-Nat.add_succ_r. by apply (Hl (S j) k' v').
Qed.

(** The error of the first loop is the error of a key. *)
Lemma convert_entries_error l i output err :
  convert_entries l i output = inr err → ∃ j k, convert_key j k = inr err.
Proof.
  revert i output. induction l as [|[k v] l IH]; intros i output; cbn [convert_entries]; [done|].
  destruct (convert_key i k) as [key|err'] eqn:E; [apply IH|]. intros [= <-]. eauto.
Qed.

(** An element of [output] was there or is the element of an entry. *)
Lemma convert_entries_lookup l i output output' key x :
  convert_entries l i output = inl output' → output' !! key = Some x →
  output !! key = Some x
  ∨ ∃ k raw, (k, raw) ∈ l ∧ (∀ j, convert_key j k = inl key) ∧ x = Interface_ raw.
Proof.
  revert i output. induction l as [|[k v] l IH]; intros i output; cbn [convert_entries].
  - intros [= <-]. by left.
  - destruct (convert_key i k) as [key'|err] eqn:E; [|done]. intros Hc Hx.
    destruct (IH _ _ Hc Hx) as [Hin|(k' & raw & Hin & Hk' & ->)].
    + destruct (decide (key' = key)) as [->|Hne].
      * rewrite lookup_insert_eq in Hin. injection Hin as <-. right. exists k, v.
        split; [by left|]. split; [|done]. intros j.
        rewrite convert_key_spec in E |- *. destruct (key_string k); [|done].
        by destruct (ParseCIDR s) as [[??]|].
      * rewrite lookup_insert_ne in Hin by done. by left.
    + right. exists k', raw. split; [by right|done].
Qed.

Lemma convert_entries_mono l i output output' key :
  convert_entries l i output = inl output' → is_Some (output !! key) → is_Some (output' !! key).
Proof.
  revert i output. induction l as [|[k v] l IH]; intros i output; cbn [convert_entries].
  - by intros [= <-].
  - destruct (convert_key i k) as [key'|err]; [|done]. intros Hc Hs. apply (IH _ _ Hc).
    destruct (decide (key' = key)) as [->|Hne];
      [by rewrite lookup_insert_eq|by rewrite lookup_insert_ne].
Qed.

(** Every entry of the map has its converted key in [output]. *)
Lemma convert_entries_dom l i output output' k raw :
  convert_entries l i output = inl output' → (k, raw) ∈ l →
  ∃ key, (∀ j, convert_key j k = inl key) ∧ is_Some (output' !! key).
Proof.
  revert i output. induction l as [|[k' v'] l IH]; intros i output; cbn [convert_entries].
  - intros _ Hin. by apply elem_of_nil in Hin.
  - destruct (convert_key i k') as [key'|err] eqn:E; [|done]. intros Hc Hin.
    apply elem_of_cons in Hin as [[= <- <-]|Hin]; [|by eapply IH].
    exists key'. split.
    + intros j. rewrite convert_key_spec in E |- *. destruct (key_string k); [|done].
      by destruct (ParseCIDR s) as [[??]|].
    + apply (convert_entries_mono _ _ _ _ _ Hc). by rewrite lookup_insert_eq.
Qed.

(** What a successful decoding went through. *)
Lemma decodes_to_inv from sm :
  decodes_to from sm →
  ∃ output intermediate t,
    output_of from = Some (inl output) ∧ decode_output output = Some intermediate
    ∧ fill (map_to_list intermediate) NewTreeV6 = Some (inl t)
    ∧ sm = mkSubnetMap (Some t).
Proof.
  unfold decodes_to, SubnetMapUnmarshallerHook. cbn [negb].
  destruct (output_of from) as [[output|err]|]; [|done|done].
  unfold to_SubnetMap. destruct (decode_output output) as [intermediate|] eqn:Hd; [|done].
  destruct (fill _ _) as [[t|err]|] eqn:Hf; [|done|done].
  intros [= <-]. by exists output, intermediate, t.
Qed.

(** The keys of [output] are read back by the last loop. *)
Lemma output_keys_parse from output key :
  output_of from = Some (inl output) → is_Some (output !! key) →
  ∃ a, address_of_key key = Some (inl a).
Proof.
  unfold output_of. case_bool_decide.
  - intros [= Hout] Hs.
    destruct (convert_entries_keys _ _ _ _ key Hout Hs) as [[? H0]|(j & k & Hk)].
    + by rewrite lookup_empty in H0.
    + by eapply address_of_converted_key.
  - destruct (is_V from || convertible_to_V from); [|done]. intros [= <-] [x Hx].
    apply lookup_singleton_Some in Hx as [<- _]. by eexists.
Qed.

Lemma fill_output_is_inl from output intermediate :
  output_of from = Some (inl output) → decode_output output = Some intermediate →
  ∃ t, fill (map_to_list intermediate) NewTreeV6 = Some (inl t).
Proof.
  intros Hout Hdec. apply fill_is_inl. intros key v Hin%elem_of_map_to_list.
  apply (output_keys_parse from output); [done|].
  rewrite (decode_output_Some _ _ Hdec) in Hin. by destruct (output !! key).
Qed.

(** After the last loop there is a tag at the path of every key. *)
Lemma fill_tag_is_Some (intermediate : gmap string V) t key a :
  fill (map_to_list intermediate) NewTreeV6 = Some (inl t) →
  is_Some (intermediate !! key) → address_of_key key = Some (inl a) →
  is_Some (tag_at (key_of a) t).
Proof.
  intros Hf [v Hv] Ha.
  destruct (fill_tag_at _ _ _ (key_of a) Hf) as [[_ Hno]|(k' & v' & a' & _ & _ & _ & ->)]; [|done].
  exfalso. apply (Hno key v a); [by apply elem_of_map_to_list|done|done].
Qed.

(** A tag of the tree is the decoding of an element of [output]. *)
Lemma fill_tag_from (intermediate : gmap string V) t q v :
  fill (map_to_list intermediate) NewTreeV6 = Some (inl t) → tag_at q t = Some v →
  ∃ key, intermediate !! key = Some v.
Proof.
  intros Hf Hq.
  destruct (fill_tag_at _ _ _ q Hf) as [[Heq _]|(k' & v' & a' & Hin & _ & _ & Hq')].
  - unfold NewTreeV6 in Heq. rewrite tag_at_Empty in Heq. congruence.
  - exists k'. apply elem_of_map_to_list in Hin. congruence.
Qed.

End HookEntries.

(** X1. The entries of a map are examined in the order of the iteration,
    and the first key that is rejected stops the hook: its error is
    returned, with no table, whatever the entries after it are. *)
Theorem hook_first_error (V : Type) (D : Decodable V)
    (l1 l2 : list (Value * Value)) (k v : Value) (err : error) :
  (∀ j k' v', l1 !! j = Some (k', v') → ∃ key, convert_key j k' = inl key) →
  convert_key (length l1) k = inr err →
  SubnetMapUnmarshallerHook (V:=V) (VMap (l1 ++ (k, v) :: l2)) true = Some (INil, Some err).
Proof.
  intros Hl1 Hk. unfold SubnetMapUnmarshallerHook, output_of. cbn [negb kind MapRange].
  rewrite bool_decide_eq_true_2 by done. rewrite convert_entries_app.
  destruct (convert_entries_is_inl l1 0 ∅) as [o ->]; [done|].
  cbn [convert_entries]. rewrite Nat.add_0_l. by rewrite Hk.
Qed.

Lemma hook_first_error_witness :
  SubnetMapUnmarshallerHook (V:=string)
    (VMap ([(VString "203.0.113.0/24", VString "a")]
           ++ (VInt 5, VString "b") :: [(VString "no subnet", VString "c")])) true
  = Some (INil, Some (ErrKeyNotString 1 Int)).
Proof.
  apply (hook_first_error string _ [(VString "203.0.113.0/24", VString "a")]
           [(VString "no subnet", VString "c")] (VInt 5) (VString "b")).
  - intros [|[|j]] k' v' Hj; [|done|done]. injection Hj as <- <-. eexists. reflexivity.
  - reflexivity.
Defined.

(** X2. The error "key %d has an invalid netmask" is never returned: a key
    is rejected either because it is not a string or because
    [net.ParseCIDR] rejects it, and the mask of a key that [net.ParseCIDR]
    reads has 32 or 128 bits. *)
Theorem invalid_netmask_unreachable :
  (∀ i k err, convert_key i k = inr err →
     (key_string k = None ∧ ∃ kd, kd ≠ String ∧ err = ErrKeyNotString i kd)
     ∨ (∃ s e, key_string k = Some s ∧ ParseCIDR s = inr e ∧ err = ErrParseCIDR e))
  ∧ (∀ s ip ipNet, ParseCIDR s = inl (ip, ipNet) →
       ∃ ones, (Size (ipnet_Mask ipNet) = (ones, 32) ∧ 0 ≤ ones ≤ 32)
               ∨ (Size (ipnet_Mask ipNet) = (ones, 128) ∧ 0 ≤ ones ≤ 128))
  ∧ (∀ (V : Type) (D : Decodable V) from to_is_SubnetMap r err i,
       SubnetMapUnmarshallerHook (V:=V) from to_is_SubnetMap = Some (r, Some err) →
       err ≠ ErrInvalidNetmask i).
Proof.
  assert (∀ i k err, convert_key i k = inr err →
     (key_string k = None ∧ ∃ kd, kd ≠ String ∧ err = ErrKeyNotString i kd)
     ∨ (∃ s e, key_string k = Some s ∧ ParseCIDR s = inr e ∧ err = ErrParseCIDR e)) as Hkey.
  { intros i k err. rewrite convert_key_spec. destruct (key_string k) as [s|] eqn:Hs.
    - destruct (ParseCIDR s) as [[ip ipNet]|e] eqn:E; [done|]. intros [= <-]. right. by exists s, e.
    - intros [= <-]. left. split; [done|]. eexists. split; [|done].
      unfold key_string in Hs. by destruct (if bool_decide _ then _ else _). }
  split; [done|]. split.
  - intros s ip ipNet E.
    apply ParseCIDR_inl in E as [(a & b & c & d & n & _ & _ & _ & _ & Hn & _ & ->)|(n & _ & _ & Hn & ->)].
    + destruct (mask32_spec n Hn) as (Hs & _). exists n. left. by split.
    + destruct (mask128_spec n Hn) as (Hs & _). exists n. right. by split.
  - intros V D from b r err i. unfold SubnetMapUnmarshallerHook.
    destruct b; cbn [negb]; [|done].
    destruct (output_of from) as [[output|e]|] eqn:Hout; [| |done].
    + unfold to_SubnetMap. destruct (decode_output output) as [intermediate|] eqn:Hd.
      * destruct (fill_output_is_inl from output intermediate Hout Hd) as [t ->]. done.
      * by intros [= <- <-].
    + intros [= <- <-]. unfold output_of in Hout. case_bool_decide.
      * injection Hout as Hout. apply convert_entries_error in Hout as (j & k & Hk).
        apply Hkey in Hk as [(_ & kd & _ & ->)|(s & e' & _ & _ & ->)]; done.
      * by destruct (is_V from || convertible_to_V from).
Qed.

Lemma invalid_netmask_unreachable_witness :
  (key_string (VInt 5) = None ∧ ∃ kd, kd ≠ String ∧ ErrKeyNotString 3 Int = ErrKeyNotString 3 kd)
  ∨ (∃ s e, key_string (VInt 5) = Some s ∧ ParseCIDR s = inr e
            ∧ ErrKeyNotString 3 Int = ErrParseCIDR e).
Proof.
  apply (proj1 invalid_netmask_unreachable 3%nat (VInt 5) (ErrKeyNotString 3 Int)). reflexivity.
Defined.

(** X3. When two keys of a map denote the same network, the first loop
    stores their elements under one key of [output], and the entry that
    the iteration yields last replaces the other one there: [output] is
    what it is for the map without the first of the two, and it holds the
    element of the second under the key of the network. *)
Theorem same_network_last_wins (V : Type) (D : Decodable V)
    (l : list (Value * Value)) (k1 k2 : string) (v1 v2 : Value) (ip1 ip2 : IP) (ipNet : IPNet) :
  ParseCIDR k1 = inl (ip1, ipNet) → ParseCIDR k2 = inl (ip2, ipNet) →
  output_of (V:=V) (VMap (l ++ [(VString k1, v1); (VString k2, v2)]))
  = output_of (VMap (l ++ [(VString k2, v2)]))
  ∧ ∀ output, output_of (V:=V) (VMap (l ++ [(VString k1, v1); (VString k2, v2)]))
               = Some (inl output) →
      output !! canonical_key ipNet = Some (Interface_ v2).
Proof.
  intros H1 H2. unfold output_of. cbn [kind MapRange].
  rewrite !bool_decide_eq_true_2 by done. rewrite !convert_entries_app.
  destruct (convert_entries l 0 ∅) as [o|e]; [|done]. cbn [convert_entries].
  rewrite !convert_key_spec, !key_string_VString, H1, H2. rewrite insert_insert_eq.
  split; [done|]. intros output [= <-]. by rewrite lookup_insert_eq.
Qed.

Lemma same_network_last_wins_witness :
  let l := [(VString "10.0.0.0/8", VString "X")] in
  output_of (V:=string)
    (VMap (l ++ [(VString "192.0.2.1/24", VString "a"); (VString "192.0.2.0/24", VString "b")]))
  = output_of (VMap (l ++ [(VString "192.0.2.0/24", VString "b")]))
  ∧ ∀ output, output_of (V:=string)
                (VMap (l ++ [(VString "192.0.2.1/24", VString "a");
                             (VString "192.0.2.0/24", VString "b")]))
               = Some (inl output) →
      output !! canonical_key (mkIPNet [192; 0; 2; 0] (CIDRMask 24 32))
      = Some (Interface_ (VString "b")).
Proof.
  intros l.
  apply (same_network_last_wins string _ l "192.0.2.1/24" "192.0.2.0/24" (VString "a") (VString "b")
           (ParseIP "192.0.2.1") (ParseIP "192.0.2.0")
           (mkIPNet [192; 0; 2; 0] (CIDRMask 24 32))); reflexivity.
Defined.

(** X4. When the sub-decoder refuses an element of [output], the hook
    returns the error "unable to decode" and no table. So a single value
    that converts to a [V] but that the sub-decoder refuses is an error,
    not a value that the hook declines. *)
Theorem undecodable_value_is_error (V : Type) (D : Decodable V) (from : Value) :
  (∀ output key x,
     output_of from = Some (inl output) → output !! key = Some x → decode x = None →
     SubnetMapUnmarshallerHook (V:=V) from true = Some (INil, Some ErrUnableToDecode))
  ∧ (kind from ≠ Map → is_V from || convertible_to_V from = true →
     decode (Interface_ from) = None →
     SubnetMapUnmarshallerHook (V:=V) from true = Some (INil, Some ErrUnableToDecode)).
Proof.
  assert (∀ output key x,
     output_of from = Some (inl output) → output !! key = Some x → decode x = None →
     SubnetMapUnmarshallerHook (V:=V) from true = Some (INil, Some ErrUnableToDecode)) as Hgen.
  { intros output key x Hout Hx Hd. unfold SubnetMapUnmarshallerHook. cbn [negb]. rewrite Hout.
    unfold to_SubnetMap, decode_output. rewrite bool_decide_eq_false_2; [done|].
    intros Hall. specialize (Hall key x Hx). cbn in Hall. rewrite Hd in Hall. by destruct Hall. }
  split; [done|]. intros Hk Hv Hd.
  apply (Hgen {[ "::/0"%string := Interface_ from ]} "::/0"%string (Interface_ from)); [|by rewrite lookup_singleton_eq|done].
  unfold output_of. rewrite bool_decide_eq_false_2 by done. by rewrite Hv.
Qed.

Lemma undecodable_value_is_error_witness :
  SubnetMapUnmarshallerHook (V:=string) (VInt 5) true = Some (INil, Some ErrUnableToDecode).
Proof.
  apply (proj2 (undecodable_value_is_error string _ (VInt 5))); [discriminate|reflexivity|reflexivity].
Defined.

(** ** The networks of the keys *)

Lemma bits_v4InV6Prefix :
  bits_of_bytes v4InV6Prefix = replicate 80 false ++ replicate 16 true.
Proof. reflexivity. Qed.

Lemma take_bits_IPv4 m a b c d :
  (m ≤ 80)%nat → take m (bits_of_bytes (IPv4 a b c d)) = replicate m false.
Proof.
  intros Hm. unfold IPv4. rewrite bits_of_bytes_app, bits_v4InV6Prefix, <-app_assoc.
  rewrite take_app_le by (rewrite length_replicate; lia).
  rewrite take_replicate. f_equal. lia.
Qed.

(** The path under which the last loop stores a key is a prefix of the bits
    of the network that the first loop read. *)
Lemma stored_path_prefix s ip ipNet :
  ParseCIDR s = inl (ip, ipNet) →
  ∃ a, address_of_key (canonical_key ipNet) = Some (inl a)
       ∧ key_of a `prefix_of` network_bits ipNet
       ∧ (length (key_of a) ≤ 128)%nat.
Proof.
  intros E.
  apply ParseCIDR_inl in E as [(a & b & c & d & n & Ha & Hb & Hc & Hd & Hn & _ & ->)|(n & Hb & Hl & Hn & ->)].
  - destruct (mask32_spec n Hn) as (Hs & Hlm & _).
    eexists. split; [by apply address_of_canonical_key_v4|].
    destruct (zip_land_4 [a; b; c; d] (CIDRMask n 32)) as (a' & b' & c' & d' & Hx); [done|done|].
    pose proof (zip_land_idemp [a; b; c; d] (CIDRMask n 32)) as Hid.
    unfold network_bits. cbn [ipnet_Mask ipnet_IP]. rewrite Hs.
    replace (n + (128 - 32)) with (n + 96) by lia.
    assert (To16 (zip_with Z.land [a; b; c; d] (CIDRMask n 32)) = IPv4 a' b' c' d') as ->
      by (rewrite Hx; apply To16_4).
    rewrite <-(key_of_mapped a' b' c' d' n) by done.
    assert (zip_with Z.land [a'; b'; c'; d'] (CIDRMask n 32)
            = zip_with Z.land [a; b; c; d] (CIDRMask n 32)) as -> by (by rewrite <-Hx).
    split; [done|]. rewrite key_of_mapped by done. rewrite length_take. lia.
  - destruct (mask128_spec n Hn) as (Hs & _).
    destruct (is_bytes_Mask ip n Hb Hl Hn) as [Hb' Hl'].
    eexists. split; [by apply address_of_canonical_key_v6|].
    unfold network_bits. cbn [ipnet_Mask ipnet_IP]. rewrite Hs, To16_16 by done.
    replace (n + (128 - 128)) with n by lia.
    set (x := Mask ip (CIDRMask n 128)) in *.
    destruct (To4_16 x Hl') as [[-> _]|(a & b & c & d & Hx & ->)].
    + unfold key_of. cbn [Address Length]. split; [done|]. rewrite length_take. lia.
    + set (m := Z.max 0 (n - 96)). assert (0 ≤ m ≤ 32) as Hm by lia.
      destruct (mask32_spec m Hm) as (_ & Hlm & _).
      destruct (zip_land_4 [a; b; c; d] (CIDRMask m 32)) as (a' & b' & c' & d' & Hy); [done|done|].
      rewrite Hy. change (v4InV6Prefix ++ [a'; b'; c'; d']) with (IPv4 a' b' c' d').
      unfold key_of. cbn [Address Length]. rewrite Hx.
      rewrite !take_bits_IPv4 by lia. split.
      * rewrite <-(take_bits_IPv4 (Z.to_nat m) a b c d) by lia.
        replace (Z.to_nat m) with (Z.to_nat m `min` Z.to_nat n)%nat by lia.
        rewrite <-take_take. apply prefix_take.
      * rewrite length_replicate. lia.
Qed.

Section Coverage.
Context {V : Type} `{!Decodable V}.
Implicit Types (output : gmap string Value) (t : TreeV6 V) (sm : SubnetMap V).

(** The tree of a decoded table has a tag on the way to every address of
    the network of every key. *)
Lemma decoded_key_tag from sm k raw s ip ipNet :
  decodes_to from sm → (k, raw) ∈ MapRange from →
  key_string k = Some s → ParseCIDR s = inl (ip, ipNet) →
  ∃ t q, sm = mkSubnetMap (Some t) ∧ q `prefix_of` network_bits ipNet
         ∧ (length q ≤ 128)%nat ∧ is_Some (tag_at q t).
Proof.
  intros Hdec Hin Hs E.
  destruct (decodes_to_inv _ _ Hdec) as (output & intermediate & t & Hout & Hd & Hf & ->).
  destruct (stored_path_prefix s ip ipNet E) as (a & Ha & Hpre & Hlen).
  exists t, (key_of a). split; [done|]. split; [done|]. split; [done|].
  apply (fill_tag_is_Some intermediate t (canonical_key ipNet)); [done| |done].
  unfold output_of in Hout. case_bool_decide as Hk.
  2:{ destruct from; try done; by apply elem_of_nil in Hin. }
  injection Hout as Hout.
  destruct (convert_entries_dom _ _ _ _ k raw Hout Hin) as (key & Hkey & Hsome).
  specialize (Hkey 0%nat). rewrite convert_key_spec, Hs, E in Hkey. injection Hkey as <-.
  rewrite (decode_output_Some _ _ Hd). destruct Hsome as [x Hx]. rewrite Hx. cbn.
  unfold decode_output in Hd. case_bool_decide as Hall; [|done]. by apply (Hall _ _ Hx).
Qed.

End Coverage.

(** X5. After a successful decoding of a map, every address of the network
    of every key of the map is found: [Lookup] returns true for it, with
    the value of the most specific entry that contains it. *)
Theorem decoded_keys_found (V : Type) (D : Decodable V) (from : Value) (sm : SubnetMap V)
    (k raw : Value) (s : string) (ip : IP) (ipNet : IPNet) (q : IP) :
  decodes_to from sm → (k, raw) ∈ MapRange from →
  key_string k = Some s → ParseCIDR s = inl (ip, ipNet) →
  is_address q → network_bits ipNet `prefix_of` bits_of_bytes (To16 q) →
  ∃ a v, (a, v) ∈ entries sm ∧ contains a q
    ∧ (∀ a' v', (a', v') ∈ entries sm → contains a' q → Length a' ≤ Length a)
    ∧ Lookup sm q = Some (v, true).
Proof.
  intros Hdec Hin Hs E Hq Hnet.
  destruct (decoded_key_tag from sm k raw s ip ipNet Hdec Hin Hs E)
    as (t & p & -> & Hpre & Hlen & [v Hv]).
  apply (Lookup_found _ q (decodes_to_well_formed _ _ Hdec) Hq (address_of p) v).
  - apply elem_of_entries. by exists p.
  - unfold contains. rewrite key_of_address_of by done. by etrans.
Qed.

Lemma decoded_keys_found_witness :
  let from := gin_H [("203.0.113.77/24", "a"); ("2001:db8::/32", "c")]%string in
  let q := ParseIP "203.0.113.200" in
  ∃ a v, (a, v) ∈ entries (table_of from) ∧ contains a q
    ∧ (∀ a' v', (a', v') ∈ entries (table_of from) → contains a' q → Length a' ≤ Length a)
    ∧ Lookup (table_of from) q = Some (v, true).
Proof.
  intros from q.
  apply (decoded_keys_found string _ from (table_of from)
           (VString "203.0.113.77/24") (VIface (VString "a")) "203.0.113.77/24"%string
           (ParseIP "203.0.113.77") (mkIPNet [203; 0; 113; 0] (CIDRMask 24 32)) q).
  - reflexivity.
  - cbn. left.
  - reflexivity.
  - reflexivity.
  - right. reflexivity.
  - exists (drop 120 (bits_of_bytes (IPv4 203 0 113 200))). reflexivity.
Defined.

(** X6. A value that [Lookup] finds in a decoded table is the decoding of
    an element of the input: of the value of an entry of the map, or of the
    single value. *)
Theorem lookup_hit_from_input (V : Type) (D : Decodable V) (from : Value) (sm : SubnetMap V)
    (ip : IP) (v : V) :
  decodes_to from sm → Lookup sm ip = Some (v, true) →
  (∃ k raw, (k, raw) ∈ MapRange from ∧ decode (Interface_ raw) = Some v)
  ∨ (kind from ≠ Map ∧ decode (Interface_ from) = Some v).
Proof.
  intros Hdec Hl.
  destruct (decodes_to_inv _ _ Hdec) as (output & intermediate & t & Hout & Hd & Hf & ->).
  unfold Lookup in Hl. cbn [tree] in Hl.
  destruct (NewIPv6Address (To16 ip) 128) as [a|]; [|done].
  unfold FindDeepestTag in Hl.
  destruct (find_key (key_of a) t None) as [v'|] eqn:Hfind; [|done]. injection Hl as ->.
  apply find_key_Some in Hfind as (q & _ & Hq & _).
  destruct (fill_tag_from intermediate t q v Hf Hq) as [key Hkey].
  rewrite (decode_output_Some _ _ Hd) in Hkey.
  destruct (output !! key) as [x|] eqn:Hx; [|done]. cbn in Hkey.
  unfold output_of in Hout. case_bool_decide as Hk.
  - injection Hout as Hout. left.
    destruct (convert_entries_lookup _ _ _ _ _ _ Hout Hx) as [H0|(k & raw & Hin & _ & ->)].
    + by rewrite lookup_empty in H0.
    + by exists k, raw.
  - right. split; [done|]. destruct (is_V from || convertible_to_V from); [|done].
    injection Hout as <-. apply lookup_singleton_Some in Hx as [_ <-]. done.
Qed.

Lemma lookup_hit_from_input_witness :
  let from := gin_H [("203.0.113.77/24", "a"); ("2001:db8::/32", "c")]%string in
  (∃ k raw, (k, raw) ∈ MapRange from ∧ decode (Interface_ raw) = Some "c"%string)
  ∨ (kind from ≠ Map ∧ decode (Interface_ from) = Some "c"%string).
Proof.
  intros from.
  apply (lookup_hit_from_input string _ from (table_of from) (ParseIP "2001:db8::1")); reflexivity.
Defined.

(** X8. [MarshalYAML] never returns an error, and the map it returns for a
    table without a node below the 128th bit holds the stored entries and
    nothing else: each entry is under the string of its address, with its
    value, and no entry takes the place of another one. The table without
    a tree gives the empty map. *)
Theorem MarshalYAML_entries (V : Type) (D : Decodable V) (sm : SubnetMap V) :
  well_formed sm = true →
  (∀ s v, (MarshalYAML sm).1 !! s = Some v
          ↔ ∃ a, (a, v) ∈ entries sm ∧ IPv6Address_String a = s)
  ∧ (MarshalYAML sm).2 = None
  ∧ (tree sm = None → (MarshalYAML sm).1 = ∅).
Proof.
  intros Hwf. destruct sm as [[t|]]; unfold well_formed in Hwf; cbn [tree] in Hwf.
  - split; [|split; [done|done]]. intros s v. rewrite MarshalYAML_lookup by done. split.
    + intros (q & Hq & <-). exists (address_of q). split; [|done].
      apply elem_of_entries. by exists q.
    + intros (a & (q & -> & Hq)%elem_of_entries & <-). by exists q.
  - split; [|done]. intros s v. cbn. rewrite lookup_empty. split; [done|].
    intros (a & Hin & _). by apply elem_of_nil in Hin.
Qed.

Lemma MarshalYAML_entries_witness :
  let sm := table_of (gin_H [("203.0.113.77/24", "a"); ("2001:db8::/32", "c")]%string) in
  (∀ s v, (MarshalYAML sm).1 !! s = Some v
          ↔ ∃ a, (a, v) ∈ entries sm ∧ IPv6Address_String a = s)
  ∧ (MarshalYAML sm).2 = None
  ∧ (tree sm = None → (MarshalYAML sm).1 = ∅).
Proof.
  intros sm. apply (MarshalYAML_entries string _ sm). reflexivity.
Defined.

(** X10. With a tree, [Lookup] panics on a slice that has neither 4 nor 16
    bytes: [To16] makes nil of it, which [patricia.NewIPv6Address] does not
    take. Such a slice is what [net.ParseIP] returns for a text that is not
    an address. Without a tree it answers the zero value and false. *)
Theorem Lookup_not_an_address (V : Type) (D : Decodable V) (t : TreeV6 V) (ip : IP) :
  length ip ≠ 4%nat → length ip ≠ 16%nat →
  Lookup (mkSubnetMap (Some t)) ip = None
  ∧ Lookup (V:=V) (mkSubnetMap None) ip = Some (zero, false).
Proof.
  intros H4 H16. split; [|done]. unfold Lookup, To16. cbn [tree].
  destruct (Nat.eqb_spec (length ip) IPv4len); [done|].
  destruct (Nat.eqb_spec (length ip) IPv6len); done.
Qed.

(** ** The mapping form of one entry *)

Lemma address_of_key_of A L :
  is_bytes A → length A = 16%nat → 0 ≤ L ≤ 128 → Mask A (CIDRMask L 128) = A →
  address_of (key_of (mkIPv6Address A L)) = mkIPv6Address A L.
Proof.
  intros Hb Hl HL Hm. unfold address_of, key_of. cbn [Address Length].
  rewrite length_take, length_bits_of_bytes, Hl.
  replace (Z.to_nat L `min` (8 * 16))%nat with (Z.to_nat L) by lia.
  rewrite <-bits_Mask, Hm by done. rewrite <-Hl at 1. rewrite bytes_of_bits_of_bytes by done.
  f_equal. lia.
Qed.

Section OneEntry.
Context {V : Type} `{!Decodable V}.

Lemma nodes_single rp p (v : V) : nodes rp (set_key p v Empty) = [(rev rp ++ p, v)].
Proof.
  revert rp. induction p as [|b p IH]; intros rp.
  - cbn. by rewrite app_nil_r.
  - destruct b; cbn [set_key child tag_of nodes]; rewrite IH; cbn [rev nodes app];
      by rewrite <-app_assoc.
Qed.

Lemma MarshalYAML_single a (v : V) :
  MarshalYAML (mkSubnetMap (Some (set_key (key_of a) v Empty)))
  = ({[ IPv6Address_String (address_of (key_of a)) := v ]}, None).
Proof.
  unfold MarshalYAML, Iterate. cbn [tree]. rewrite nodes_single. cbn [rev app map foldl].
  by rewrite insert_empty.
Qed.

End OneEntry.

(** X9. The mapping form of the table decoded from one IPv4 subnet
    a.b.c.d/n is the IPv4 notation of its network with the value, not the
    IPv4-mapped one under which the hook stores it; the mapping form of
    the table decoded from one IPv6 subnet whose network is not
    IPv4-mapped is the IPv6 notation of its network. *)
Theorem marshal_decoded_key :
  (∀ (V : Type) (D : Decodable V) a b c d n raw (v : V),
     is_byte a → is_byte b → is_byte c → is_byte d → 0 ≤ n ≤ 32 →
     decode (Interface_ raw) = Some v →
     ∃ sm, decodes_to (VMap [(VString (string4 [a; b; c; d] +:+ "/" +:+ uitoa n), raw)]) sm
       ∧ MarshalYAML sm
         = ({[ string4 (zip_with Z.land [a; b; c; d] (CIDRMask n 32)) +:+ "/" +:+ uitoa n := v ]},
            None))
  ∧ (∀ (V : Type) (D : Decodable V) p n raw (v : V),
       is_bytes p → length p = 16%nat → 0 ≤ n ≤ 128 →
       To4 (Mask p (CIDRMask n 128)) = [] →
       decode (Interface_ raw) = Some v →
       ∃ sm, decodes_to (VMap [(VString (string6 p +:+ "/" +:+ uitoa n), raw)]) sm
         ∧ MarshalYAML sm
           = ({[ string6 (Mask p (CIDRMask n 128)) +:+ "/" +:+ uitoa n := v ]}, None)).
Proof.
  split.
  - intros V D a b c d n raw v Ha Hb Hc Hd Hn Hdec.
    destruct (mask32_spec n Hn) as (_ & Hl & _).
    destruct (zip_land_4 [a; b; c; d] (CIDRMask n 32)) as (a' & b' & c' & d' & Hx); [done|done|].
    pose proof (zip_land_idemp [a; b; c; d] (CIDRMask n 32)) as Hid.
    assert (is_bytes (zip_with Z.land [a; b; c; d] (CIDRMask n 32))) as Hbx.
    { apply is_bytes_zip_land. repeat (apply Forall_cons; split; [done|]). constructor. }
    eexists. split.
    + unfold decodes_to. eapply hook_single_entry; [|done|].
      * intros i. rewrite convert_key_spec, key_string_VString. by rewrite ParseCIDR_v4.
      * by apply address_of_canonical_key_v4.
    + rewrite MarshalYAML_single. rewrite Hx in Hid, Hbx |- *.
      change (v4InV6Prefix ++ [a'; b'; c'; d']) with (IPv4 a' b' c' d').
      rewrite address_of_key_of.
      * unfold IPv6Address_String. cbn [Address Length].
        rewrite IPNet_String_mapped by lia. by replace (Z.max 0 (n + 96 - 96)) with n by lia.
      * unfold IPv4. apply Forall_app. split; [|done].
        repeat (apply Forall_cons; split; [unfold is_byte; lia|]). constructor.
      * done.
      * lia.
      * rewrite Mask_mapped by done. by rewrite Hid.
  - intros V D p n raw v Hp Hl Hn H4 Hdec.
    destruct (is_bytes_Mask p n Hp Hl Hn) as [Hb' Hl'].
    eexists. split.
    + unfold decodes_to. eapply hook_single_entry; [|done|].
      * intros i. rewrite convert_key_spec, key_string_VString. by rewrite ParseCIDR_v6.
      * by apply address_of_canonical_key_v6.
    + rewrite MarshalYAML_single. rewrite H4.
      rewrite address_of_key_of; [|done|done|done|by apply Mask_idemp].
      unfold IPv6Address_String. cbn [Address Length]. by rewrite IPNet_String_v6.
Qed.

Lemma marshal_decoded_key_witness :
  ∃ sm, decodes_to (VMap [(VString (string4 [203; 0; 113; 77] +:+ "/" +:+ uitoa 24),
                           VString "customer1")]) sm
    ∧ MarshalYAML sm
      = ({[ string4 (zip_with Z.land [203; 0; 113; 77] (CIDRMask 24 32)) +:+ "/" +:+ uitoa 24
            := "customer1"%string ]}, None).
Proof.
  apply (proj1 marshal_decoded_key string _ 203 0 113 77 24 (VString "customer1") "customer1"%string);
    unfold is_byte; (lia || reflexivity).
Defined.

Lemma Lookup_not_an_address_witness :
  Lookup (mkSubnetMap (Some (set_key [] "x"%string Empty))) (ParseIP "not an address") = None
  ∧ Lookup (V:=string) (mkSubnetMap None) (ParseIP "not an address") = Some (zero, false).
Proof.
  apply (Lookup_not_an_address string _ (set_key [] "x"%string Empty) (ParseIP "not an address"));
    vm_compute; discriminate.
Defined.

(** ** The order of the entries *)

Section FoldInsertMore.
Context {A B : Type} (f : A → string) (g : A → B).

Lemma foldl_insert_lookup_ne (l : list A) (m : gmap string B) k :
  (∀ a, a ∈ l → f a ≠ k) → foldl (λ m a, <[f a := g a]> m) m l !! k = m !! k.
Proof.
  revert m. induction l as [|a l IH]; intros m Hl; [done|]. cbn [foldl].
  rewrite IH by (intros a' Ha'; apply Hl; by right).
  apply lookup_insert_ne, Hl. by left.
Qed.

(** Inserting entries with distinct keys gives the same map in any order. *)
Lemma foldl_insert_perm (l l' : list A) (m : gmap string B) :
  l ≡ₚ l' → NoDup (map f l) →
  foldl (λ m a, <[f a := g a]> m) m l = foldl (λ m a, <[f a := g a]> m) m l'.
Proof.
  intros Hperm Hnd. apply map_eq. intros k.
  assert (∀ a a', a ∈ l → a' ∈ l → f a' = f a → a' = a) as Hinj.
  { intros a a' Ha Ha' Hf.
    apply list_elem_of_lookup in Ha as [i Hi]. apply list_elem_of_lookup in Ha' as [j Hj].
    assert (i = j) as ->; [|congruence].
    apply (NoDup_lookup (map f l) i j (f a)); [done|..]; rewrite list_lookup_fmap.
    - by rewrite Hi.
    - rewrite Hj. cbn. by f_equal. }
  destruct (decide (k ∈ map f l)) as [Hin|Hnin].
  - apply list_elem_of_fmap in Hin as (a & -> & Ha).
    rewrite (foldl_insert_elem f g l m a); [|done|].
    2:{ intros a' Ha' Hf. f_equal. by apply Hinj. }
    rewrite (foldl_insert_elem f g l' m a); [done|by rewrite <-Hperm|].
    intros a' Ha' Hf. f_equal. apply Hinj; [done| |done]. by rewrite Hperm.
  - rewrite !foldl_insert_lookup_ne; [done| |].
    + intros a Ha <-. apply Hnin. apply list_elem_of_fmap. exists a. split; [done|].
      by rewrite Hperm.
    + intros a Ha <-. apply Hnin. apply list_elem_of_fmap. by exists a.
Qed.

End FoldInsertMore.

Section Order.
Context {V : Type} `{!Decodable V}.

(** The first loop, when every key is read: the entries under their keys. *)
Lemma convert_entries_foldl (l : list (Value * Value)) i output :
  (∀ k v, (k, v) ∈ l → ∃ key, convert_key 0 k = inl key) →
  convert_entries l i output
  = inl (foldl (λ m (a : Value * Value),
           <[match convert_key 0 a.1 with inl key => key | inr _ => EmptyString end
             := Interface_ a.2]> m) output l).
Proof.
  revert i output. induction l as [|[k v] l IH]; intros i output Hl; [done|].
  cbn [convert_entries foldl fst snd].
  destruct (Hl k v) as [key Hkey]; [by left|]. rewrite Hkey.
  assert (convert_key i k = inl key) as ->.
  { rewrite convert_key_spec in Hkey |- *. destruct (key_string k); [|done].
    by destruct (ParseCIDR s) as [[??]|]. }
  apply IH. intros k' v' Hin. apply (Hl k' v'). by right.
Qed.

(** The last loop, in two orders: when the entries stored on one node
    have one value, the two trees have the same tags. *)
Lemma fill_perm_tags (l1 l2 : list (string * V)) t1 t2 :
  l1 ≡ₚ l2 →
  (∀ k v k' v' a a', (k, v) ∈ l1 → (k', v') ∈ l1 →
     address_of_key k = Some (inl a) → address_of_key k' = Some (inl a') →
     key_of a = key_of a' → v = v') →
  fill l1 NewTreeV6 = Some (inl t1) → fill l2 NewTreeV6 = Some (inl t2) →
  ∀ q, tag_at q t1 = tag_at q t2.
Proof.
  intros Hperm Hnode H1 H2 q.
  destruct (fill_tag_at _ _ _ q H1) as [[E1 Hno1]|(k1 & v1 & a1 & Hin1 & Ha1 & Hq1 & ->)];
    destruct (fill_tag_at _ _ _ q H2) as [[E2 Hno2]|(k2 & v2 & a2 & Hin2 & Ha2 & Hq2 & ->)].
  - congruence.
  - exfalso. apply (Hno1 k2 v2 a2); [by rewrite Hperm|done|done].
  - exfalso. apply (Hno2 k1 v1 a1); [by rewrite <-Hperm|done|done].
  - f_equal. apply (Hnode k1 v1 k2 v2 a1 a2); [done|by rewrite Hperm|done|done|congruence].
Qed.

End Order.

(** X19. When every key of a map is read and no two keys are converted
    to the same key, the map [output] of the first loop does not depend on
    the order in which the iteration yields the entries. The last loop
    ranges over the decoded map in an order that is not fixed either: when
    the keys that it stores on one node have one value, the tables built
    in any two orders answer every lookup alike. They need not otherwise:
    the keys ::/24 and 203.0.113.0/24, the latter being what the first
    loop makes of ::ffff:203.0.113.0/120, are stored on one node, and the
    value found for 10.0.0.1 is the one of the key that comes last. *)
Theorem hook_order_independent :
  (∀ (V : Type) (D : Decodable V) (l l' : list (Value * Value)),
     l ≡ₚ l' →
     (∀ k v, (k, v) ∈ l → ∃ key, convert_key 0 k = inl key) →
     NoDup (map (λ a : Value * Value, convert_key 0 a.1) l) →
     output_of (V:=V) (VMap l) = output_of (VMap l')
     ∧ ∀ output (intermediate : gmap string V) l1 l2 t1 t2,
         output_of (V:=V) (VMap l) = Some (inl output) →
         decode_output output = Some intermediate →
         l1 ≡ₚ map_to_list intermediate → l2 ≡ₚ map_to_list intermediate →
         (∀ k v k' v' a a', intermediate !! k = Some v → intermediate !! k' = Some v' →
            address_of_key k = Some (inl a) → address_of_key k' = Some (inl a') →
            key_of a = key_of a' → v = v') →
         fill l1 NewTreeV6 = Some (inl t1) → fill l2 NewTreeV6 = Some (inl t2) →
         ∀ ip, Lookup (mkSubnetMap (Some t1)) ip = Lookup (mkSubnetMap (Some t2)) ip)
  ∧ (∃ t1 t2 : TreeV6 string,
       fill [("::/24", "A"); ("203.0.113.0/24", "B")]%string NewTreeV6 = Some (inl t1)
       ∧ fill [("203.0.113.0/24", "B"); ("::/24", "A")]%string NewTreeV6 = Some (inl t2)
       ∧ Lookup (mkSubnetMap (Some t1)) (ParseIP "10.0.0.1") = Some ("B"%string, true)
       ∧ Lookup (mkSubnetMap (Some t2)) (ParseIP "10.0.0.1") = Some ("A"%string, true)).
Proof.
  split.
  - intros V D l l' Hperm Hl Hnd. split.
    + unfold output_of. cbn [kind MapRange]. rewrite !bool_decide_eq_true_2 by done.
      rewrite !convert_entries_foldl; [|intros k v Hin; apply (Hl k v); by rewrite Hperm|done].
      rewrite (foldl_insert_perm _ _ l l'); [done|done|].
      assert (∀ a, a ∈ l → convert_key 0 a.1
                = inl (match convert_key 0 a.1 with inl key => key | inr _ => EmptyString end))
        as Hk.
      { intros [k v] Ha. cbn. by destruct (Hl k v Ha) as [key ->]. }
      clear Hperm Hl. induction l as [|a l IH]; [constructor|].
      cbn [map] in Hnd |- *. apply NoDup_cons in Hnd as [Hnin Hnd]. apply NoDup_cons. split.
      * intros (a' & Heq & Ha')%list_elem_of_fmap. apply Hnin. apply list_elem_of_fmap.
        exists a'. split; [|done]. rewrite (Hk a) by by left. rewrite (Hk a') by by right.
        by f_equal.
      * apply IH; [done|]. intros a' Ha'. apply Hk. by right.
    + intros output intermediate l1 l2 t1 t2 _ _ Hp1 Hp2 Hnode H1 H2 ip.
      apply Lookup_ext. intros q _. apply (fill_perm_tags l1 l2); [by rewrite Hp1, Hp2| |done|done].
      intros k v k' v' a a' Hin Hin'. rewrite Hp1 in Hin, Hin'.
      apply elem_of_map_to_list in Hin, Hin'. by apply Hnode.
  - eexists _, _. split; [by vm_compute|]. split; [by vm_compute|]. split; by vm_compute.
Qed.

Lemma hook_order_independent_witness :
  output_of (V:=string)
    (VMap [(VString "10.0.0.0/8", VString "X"); (VString "10.0.0.0/16", VString "Y")])
  = output_of
      (VMap [(VString "10.0.0.0/16", VString "Y"); (VString "10.0.0.0/8", VString "X")]).
Proof.
  apply (proj1 hook_order_independent string _
           [(VString "10.0.0.0/8", VString "X"); (VString "10.0.0.0/16", VString "Y")]
           [(VString "10.0.0.0/16", VString "Y"); (VString "10.0.0.0/8", VString "X")]).
  - apply perm_swap.
  - intros k v Hin. repeat (apply elem_of_cons in Hin as [[= -> ->]|Hin]; [by eexists|]).
    by apply elem_of_nil in Hin.
  - vm_compute. apply NoDup_cons. split.
    + intros [H|H%elem_of_nil]%elem_of_cons; [discriminate|done].
    + apply NoDup_singleton.
Defined.

(** ** The migrations of the ClickHouse database *)

Import clickhouse.

(** ** Hosts and ports *)

Lemma at_is_app_add (s1 s2 : string) n c :
  str.at_is (s1 +:+ s2) (String.length s1 + n) c = str.at_is s2 n c.
Proof. induction s1 as [|x s1 IH]; [done|]. rewrite app_cons_s. done. Qed.

Lemma at_is_all_not P (s : string) n c :
  all P s = true → P c = false → str.at_is s n c = false.
Proof.
  intros Hs Hc. revert n. induction s as [|x s IH]; intros n; [by destruct n|].
  simpl in Hs. apply andb_true_iff in Hs as [Hx Hs]. destruct n as [|n].
  - unfold str.at_is. cbn. destruct (Ascii.eqb_spec x c) as [->|]; [congruence|done].
  - by apply IH.
Qed.

Lemma IndexByteString_none P (s : string) c :
  all P s = true → P c = false → ipsock.IndexByteString s c = -1.
Proof.
  intros Hs Hc. induction s as [|x s IH]; [done|].
  simpl in Hs. apply andb_true_iff in Hs as [Hx Hs]. cbn [ipsock.IndexByteString].
  destruct (Ascii.eqb_spec x c) as [->|]; [congruence|]. by rewrite IH.
Qed.

Lemma IndexByteString_app P (s1 s2 : string) c :
  all P s1 = true → P c = false →
  ipsock.IndexByteString (s1 +:+ String.String c s2) c = Z.of_nat (String.length s1).
Proof.
  intros Hs Hc. induction s1 as [|x s1 IH].
  - rewrite app_nil_l_s. cbn. by rewrite Ascii.eqb_refl.
  - simpl in Hs. apply andb_true_iff in Hs as [Hx Hs]. rewrite app_cons_s.
    cbn [ipsock.IndexByteString String.length].
    destruct (Ascii.eqb_spec x c) as [->|]; [congruence|]. rewrite IH by done.
    destruct (Z.ltb_spec (Z.of_nat (String.length s1)) 0); lia.
Qed.

Lemma last_app P (s1 s2 : string) c :
  all P s2 = true → P c = false →
  ipsock.last (s1 +:+ String.String c s2) c = Z.of_nat (String.length s1).
Proof.
  intros Hs Hc. unfold ipsock.last. rewrite length_app_s. cbn [String.length].
  generalize (String.length s2) as k. intros k. induction k as [|k IH].
  - rewrite Nat.add_1_r. cbn [ipsock.last_loop].
    rewrite <-(Nat.add_0_r (String.length s1)) at 1. rewrite at_is_app_add.
    unfold str.at_is. cbn. by rewrite Ascii.eqb_refl.
  - replace (String.length s1 + S (S k))%nat with (S (String.length s1 + S k)) by lia.
    cbn [ipsock.last_loop]. rewrite at_is_app_add.
    change (str.at_is (String.String c s2) (S k) c) with (str.at_is s2 k c).
    by rewrite (at_is_all_not P).
Qed.

Lemma take_length_s (s : string) : ipsock.take (String.length s) s = s.
Proof. induction s as [|x s IH]; [done|]. cbn. by rewrite IH. Qed.

Lemma take_app_s (s1 s2 : string) : ipsock.take (String.length s1) (s1 +:+ s2) = s1.
Proof. induction s1 as [|x s1 IH]; [by destruct s2|]. rewrite app_cons_s. cbn. by rewrite IH. Qed.

Lemma slice_prefix (s1 s2 : string) :
  ipsock.slice (s1 +:+ s2) 0 (Z.of_nat (String.length s1)) = s1.
Proof.
  unfold ipsock.slice. rewrite Z.sub_0_r, Nat2Z.id. change (Z.to_nat 0) with 0%nat.
  cbn [str.drop]. apply take_app_s.
Qed.

Lemma slice_suffix (s1 s2 : string) n :
  n = Z.of_nat (String.length s1) →
  ipsock.slice (s1 +:+ s2) n (Z.of_nat (String.length (s1 +:+ s2))) = s2.
Proof.
  intros ->. unfold ipsock.slice. rewrite Nat2Z.id, drop_app_s, length_app_s.
  replace (Z.to_nat _) with (String.length s2) by lia. apply take_length_s.
Qed.

Lemma slice_all (s : string) : ipsock.slice s 0 (Z.of_nat (String.length s)) = s.
Proof. unfold ipsock.slice. rewrite Z.sub_0_r, Nat2Z.id. apply take_length_s. Qed.

Lemma slice_middle (s1 s2 s3 : string) lo hi :
  lo = Z.of_nat (String.length s1) → hi = Z.of_nat (String.length s1 + String.length s2) →
  ipsock.slice (s1 +:+ s2 +:+ s3) lo hi = s2.
Proof.
  intros -> ->. unfold ipsock.slice. rewrite Nat2Z.id, drop_app_s.
  replace (Z.to_nat _) with (String.length s2) by lia. apply take_app_s.
Qed.

Lemma all_port_host p : all is_port_char p = true → all is_host_char p = true.
Proof. apply all_impl. intros c. unfold is_port_char. by intros [? _]%andb_true_iff. Qed.

(** A host without colon, a colon and a port. *)
Lemma SplitHostPort_plain h p :
  all is_port_char h = true → all is_port_char p = true →
  ipsock.SplitHostPort (h +:+ ":" +:+ p) = inl (h, p).
Proof.
  intros Hh Hp. unfold ipsock.SplitHostPort.
  change (":" +:+ p) with (String.String ":" p).
  rewrite (last_app is_port_char) by done.
  destruct (Z.ltb_spec (Z.of_nat (String.length h)) 0) as [|_]; [lia|].
  assert (str.at_is (h +:+ String.String ":" p) 0 "[" = false) as ->.
  { destruct h as [|x h]; [done|]. rewrite app_cons_s. unfold str.at_is. cbn.
    simpl in Hh. apply andb_true_iff in Hh as [Hx _]. unfold is_port_char, is_host_char in Hx.
    by destruct (Ascii.eqb x "["). }
  rewrite slice_prefix. rewrite (IndexByteString_none is_port_char) by done.
  change (0 <=? -1) with false. cbn match.
  rewrite !slice_all.
  assert (all is_host_char (h +:+ String.String ":" p) = true) as Hall.
  { rewrite all_app. rewrite (all_port_host h Hh). cbn. by apply all_port_host. }
  rewrite !(IndexByteString_none is_host_char) by done. change (0 <=? -1) with false. cbn match.
  change (h +:+ String.String ":" p) with (h +:+ ":" +:+ p).
  replace (h +:+ ":" +:+ p) with ((h +:+ ":") +:+ p) by (by rewrite app_assoc_s).
  rewrite slice_suffix; [done|]. rewrite length_app_s. cbn. lia.
Qed.

(** A host in brackets, a colon and a port. *)
Lemma SplitHostPort_brackets h p :
  all is_host_char h = true → all is_port_char p = true →
  ipsock.SplitHostPort ("[" +:+ h +:+ "]:" +:+ p) = inl (h, p).
Proof.
  intros Hh Hp. unfold ipsock.SplitHostPort.
  set (hp := ("[" +:+ h +:+ "]:" +:+ p)).
  assert (hp = ("[" +:+ h +:+ "]") +:+ String.String ":" p) as E1.
  { unfold hp. by rewrite !app_assoc_s. }
  assert (hp = ("[" +:+ h) +:+ String.String "]" (":" +:+ p)) as E2.
  { unfold hp. by rewrite !app_assoc_s. }
  assert (String.length hp = (String.length h + 3 + String.length p)%nat) as Hlen.
  { unfold hp. rewrite !length_app_s. cbn. lia. }
  assert (ipsock.last hp ":" = Z.of_nat (String.length h) + 2) as ->.
  { rewrite E1, (last_app is_port_char) by done. rewrite !length_app_s. cbn. lia. }
  assert (ipsock.IndexByteString hp "]" = Z.of_nat (String.length h) + 1) as ->.
  { rewrite E2. rewrite (IndexByteString_app (λ c, negb (Ascii.eqb c "]"))); [| |done].
    - rewrite length_app_s. cbn. lia.
    - rewrite all_app. cbn. eapply all_impl; [|done]. intros c. unfold is_host_char.
      by intros [_ ?]%andb_true_iff. }
  destruct (Z.ltb_spec (Z.of_nat (String.length h) + 2) 0) as [|_]; [lia|].
  assert (str.at_is hp 0 "[" = true) as -> by done.
  destruct (Z.ltb_spec (Z.of_nat (String.length h) + 1) 0) as [|_]; [lia|].
  destruct (Z.eqb_spec (Z.of_nat (String.length h) + 1 + 1) (Z.of_nat (String.length hp)))
    as [|_]; [lia|].
  destruct (Z.eqb_spec (Z.of_nat (String.length h) + 1 + 1) (Z.of_nat (String.length h) + 2))
    as [_|]; [|lia].
  (* the part after the opening bracket has no other one *)
  assert (ipsock.slice hp 1 (Z.of_nat (String.length hp)) = h +:+ "]:" +:+ p) as ->.
  { unfold hp. by apply (slice_suffix "["). }
  rewrite (IndexByteString_none (λ c, negb (Ascii.eqb c "["))); [| |done].
  2:{ rewrite !all_app. apply andb_true_iff. split.
      - eapply all_impl; [|done]. intros c. unfold is_host_char. by intros [? _]%andb_true_iff.
      - cbn. eapply all_impl; [|done]. intros c. unfold is_port_char, is_host_char.
        by intros [[? _]%andb_true_iff _]%andb_true_iff. }
  change (0 <=? -1) with false. cbn match.
  (* the part after the closing bracket has no other one *)
  assert (ipsock.slice hp (Z.of_nat (String.length h) + 1 + 1) (Z.of_nat (String.length hp))
          = ":" +:+ p) as ->.
  { replace hp with (("[" +:+ h +:+ "]") +:+ ":" +:+ p) by (unfold hp; by rewrite !app_assoc_s).
    apply slice_suffix. rewrite !length_app_s. cbn. lia. }
  rewrite (IndexByteString_none (λ c, negb (Ascii.eqb c "]"))); [| |done].
  2:{ rewrite all_app. cbn. eapply all_impl; [|done]. intros c. unfold is_port_char, is_host_char.
      by intros [[_ ?]%andb_true_iff _]%andb_true_iff. }
  change (0 <=? -1) with false. cbn match. f_equal. f_equal.
  - unfold hp. apply (slice_middle "[" h ("]:" +:+ p)); cbn; lia.
  - replace hp with (("[" +:+ h +:+ "]:") +:+ p) by (unfold hp; by rewrite !app_assoc_s).
    apply slice_suffix. rewrite !length_app_s. cbn. lia.
Qed.

Lemma SplitHostPort_JoinHostPort h p :
  all is_host_char h = true → all is_port_char p = true →
  ipsock.SplitHostPort (ipsock.JoinHostPort h p) = inl (h, p).
Proof.
  intros Hh Hp. unfold ipsock.JoinHostPort.
  destruct (Z.leb_spec 0 (ipsock.IndexByteString h ":")) as [Hc|Hc].
  - by apply SplitHostPort_brackets.
  - apply SplitHostPort_plain; [|done].
    clear Hp. induction h as [|x h IH]; [done|]. simpl in Hh |- *.
    apply andb_true_iff in Hh as [Hx Hh]. cbn [ipsock.IndexByteString] in Hc.
    unfold is_port_char. rewrite Hx. destruct (Ascii.eqb x ":"); [lia|]. cbn.
    apply IH; [done|]. destruct (ipsock.IndexByteString h ":" <? 0) eqn:E; lia.
Qed.

Lemma SplitHostPort_no_colon (s : string) :
  all (λ c, negb (Ascii.eqb c ":")) s = true →
  ipsock.SplitHostPort s = inr (ipsock.mkAddrError "missing port in address" s).
Proof.
  intros Hs. unfold ipsock.SplitHostPort.
  assert (ipsock.last s ":" = -1) as ->; [|done].
  unfold ipsock.last. induction (String.length s) as [|n IH]; [done|].
  cbn [ipsock.last_loop]. by rewrite (at_is_all_not (λ c, negb (Ascii.eqb c ":"))).
Qed.

Lemma JoinHostPort_IPv4 a b c d p :
  is_byte a → is_byte b → is_byte c → is_byte d →
  ipsock.JoinHostPort (IP_String [a; b; c; d]) p = string4 [a; b; c; d] +:+ ":" +:+ p.
Proof.
  intros Ha Hb Hc Hd. rewrite IP_String_4. unfold ipsock.JoinHostPort.
  rewrite (IndexByteString_none is_decdot); [done| |done].
  apply all_string4. repeat (apply Forall_cons; split; [done|]). constructor.
Qed.

(** ** The migrations *)

Ltac run_M :=
  unfold migrations_done, close_migrationsDone, getHTTPBaseURL, migrate_step,
    ClickHouse_Query, rows_Close, net_Dial, conn_Close, Msg,
    mbind, M_bind, bind, mret, M_ret, ret, fail, panic, get, modify, outside in *.

Section MigrateFacts.
Context {W Err : Type} `{!@Outside W Err}.
Implicit Types (c : Component) (w : W).

Lemma same_settings_refl c : same_settings c c.
Proof. by repeat split. Qed.

Lemma same_settings_trans c1 c2 c3 :
  same_settings c1 c2 → same_settings c2 c3 → same_settings c1 c3.
Proof.
  unfold same_settings. intros (? & ? & ? & ? & ? & ? & ?) (? & ? & ? & ? & ? & ? & ?).
  repeat split; congruence.
Qed.

(** One step: it does not panic; it is applied, skipped, or it fails. *)
Lemma migrate_step_spec d Step count c w :
  ∃ c' w' r, migrate_step d Step count c w = Some (c', w', r)
    ∧ same_settings c c'
    ∧ match r with
      | inl count' =>
          (count' = count + 1 ∧ migrationsApplied c' = migrationsApplied c + 1
           ∧ migrationsNotApplied c' = migrationsNotApplied c)
          ∨ (count' = count ∧ migrationsApplied c' = migrationsApplied c
             ∧ migrationsNotApplied c' = migrationsNotApplied c + 1)
      | inr e =>
          migrationsApplied c' = migrationsApplied c
          ∧ migrationsNotApplied c' = migrationsNotApplied c
          ∧ ∃ e', e = CannotExecuteCheck e' ∨ e = CannotParseCheckResult e'
                  ∨ e = DuringMigrationStep e'
      end.
Proof.
  run_M. cbn.
  destruct (Query w _ _) as [w1 [[|[val|err]]|err]]; cbn.
  - destruct (Do _ w1) as [w2 [err|]]; cbn;
      (eexists _, _, _; split; [done|]; split; [by repeat split|]; cbn; eauto 10).
  - destruct (val =? 0); cbn.
    + destruct (Do _ w1) as [w2 [err|]]; cbn;
        (eexists _, _, _; split; [done|]; split; [by repeat split|]; cbn; eauto 10).
    + eexists _, _, _. split; [done|]. split; [by repeat split|]. cbn. eauto 10.
  - eexists _, _, _. split; [done|]. split; [by repeat split|]. cbn. eauto 10.
  - eexists _, _, _. split; [done|]. split; [by repeat split|]. cbn. eauto 10.
Qed.

(** The loop: it does not panic; at its end [total] has counted every
    step, [count] the applied ones, and the two counters of the metrics
    have counted the applied and the skipped ones. *)
Lemma migrate_steps_spec l count total c w :
  ∃ c' w' r, migrate_steps l count total c w = Some (c', w', r)
    ∧ same_settings c c'
    ∧ migrationsApplied c ≤ migrationsApplied c'
    ∧ migrationsNotApplied c ≤ migrationsNotApplied c'
    ∧ match r with
      | inl (count', total') =>
          total' = total + Z.of_nat (length l)
          ∧ migrationsApplied c' = migrationsApplied c + (count' - count)
          ∧ migrationsNotApplied c'
            = migrationsNotApplied c + (Z.of_nat (length l) - (count' - count))
      | inr e =>
          ∃ e', e = CannotExecuteCheck e' ∨ e = CannotParseCheckResult e'
                ∨ e = DuringMigrationStep e'
      end.
Proof.
  revert count total c w. induction l as [|[d Step] l IH]; intros count total c w.
  - eexists _, _, _. split; [done|]. split; [apply same_settings_refl|]. cbn. lia.
  - cbn [migrate_steps]. unfold mbind, M_bind, bind.
    destruct (migrate_step_spec d Step count c w) as (c1 & w1 & r1 & -> & Hs1 & Hr1).
    destruct r1 as [count1|e].
    + destruct (IH count1 (total + 1) c1 w1) as (c2 & w2 & r2 & -> & Hs2 & Ha & Hn & Hr2).
      eexists _, _, _. split; [done|]. split; [by eapply same_settings_trans|].
      destruct r2 as [[count2 total2]|e2].
      * cbn [length]. destruct Hr1 as [(-> & ? & ?)|(-> & ? & ?)]; lia.
      * split; [|split; [|done]]; destruct Hr1 as [(-> & ? & ?)|(-> & ? & ?)]; lia.
    + eexists _, _, _. split; [done|]. split; [done|].
      destruct Hr1 as (-> & -> & e' & He). split; [lia|]. split; [lia|]. by exists e'.
Qed.

(** The steps run one after the other. *)
Lemma migrate_steps_app_eq l1 l2 count total c w :
  migrate_steps (l1 ++ l2) count total c w
  = match migrate_steps l1 count total c w with
    | Some (c', w', inl (count', total')) => migrate_steps l2 count' total' c' w'
    | r => r
    end.
Proof.
  revert count total c w. induction l1 as [|[d Step] l1 IH]; intros count total c w; [done|].
  cbn [app migrate_steps]. unfold mbind, M_bind, bind.
  destruct (migrate_step d Step count c w) as [[[c1 w1] [count1|e]]|]; [|done|done].
  apply IH.
Qed.

(** [getHTTPBaseURL] only adds to the log. *)
Lemma getHTTPBaseURL_spec address c w :
  ∃ c' w' r, getHTTPBaseURL address c w = Some (c', w', r)
    ∧ same_settings c c'
    ∧ migrationsApplied c' = migrationsApplied c
    ∧ migrationsNotApplied c' = migrationsNotApplied c
    ∧ match r with
      | inl base => True
      | inr e => (∃ e', e = CannotGetIP e') ∨ (∃ e', e = CannotGetHTTPPort e')
      end.
Proof.
  run_M. cbn. destruct (Dial w _ _) as [w1 [ip|err]]; cbn.
  - destruct (ipsock.SplitHostPort (HTTP_Address c)) as [[h port]|err]; cbn;
      (eexists _, _, _; split; [done|]; split; [by repeat split|]; cbn; eauto 10).
  - eexists _, _, _. split; [done|]. split; [by repeat split|]. cbn. eauto 10.
Qed.

Lemma length_steps : length steps = 9%nat.
Proof. done. Qed.

(** The steps and what follows them. *)
Lemma migrate_rest_spec c w :
  let m := (migrate_steps steps 0 0 ≫= λ '(count, total), migrations_done count total) c w in
  (m = None ∧ migrationsDone c = true)
  ∨ ∃ c' w' r, m = Some (c', w', r)
      ∧ OrchestratorURL c' = OrchestratorURL c ∧ HTTP_Address c' = HTTP_Address c
      ∧ open_rows c' = open_rows c ∧ open_conns c' = open_conns c
      ∧ migrationsApplied c ≤ migrationsApplied c'
      ∧ migrationsNotApplied c ≤ migrationsNotApplied c'
      ∧ match r with
        | inl _ =>
            migrationsDone c = false ∧ migrationsDone c' = true
            ∧ migrationsRunning c' = 0 ∧ migrationsVersion c' = 9
            ∧ migrationsApplied c' + migrationsNotApplied c'
              = migrationsApplied c + migrationsNotApplied c + 9
        | inr e =>
            migrationsDone c' = migrationsDone c
            ∧ migrationsRunning c' = migrationsRunning c
            ∧ migrationsVersion c' = migrationsVersion c
        end.
Proof.
  cbv zeta. unfold mbind, M_bind, bind.
  destruct (migrate_steps_spec steps 0 0 c w)
    as (c2 & w2 & r2 & -> & (Hu2 & HH2 & Hd2 & Hrun2 & Hv2 & Hor2 & Hoc2) & Ha2 & Hn2 & Hr2).
  destruct r2 as [[count total]|e].
  2:{ right. eexists _, _, _. split; [done|]. repeat split; done. }
  rewrite length_steps in Hr2. destruct Hr2 as (-> & Ha2' & Hn2').
  run_M. destruct (count =? 0); cbn; destruct (migrationsDone c2) eqn:Hdone;
    first [ left; split; [done|congruence]
          | right; eexists _, _, _; split; [done|]; cbn; repeat split; try congruence; try lia ].
Qed.

(** [migrateDatabase], in all its outcomes. *)
Lemma migrateDatabase_spec c w :
  (migrateDatabase c w = None ∧ migrationsDone c = true)
  ∨ ∃ c' w' r, migrateDatabase c w = Some (c', w', r)
      ∧ HTTP_Address c' = HTTP_Address c
      ∧ open_rows c' = open_rows c ∧ open_conns c' = open_conns c
      ∧ migrationsApplied c ≤ migrationsApplied c'
      ∧ migrationsNotApplied c ≤ migrationsNotApplied c'
      ∧ (OrchestratorURL c ≠ EmptyString → OrchestratorURL c' = OrchestratorURL c)
      ∧ match r with
        | inl _ =>
            migrationsDone c = false ∧ migrationsDone c' = true
            ∧ migrationsRunning c' = 0 ∧ migrationsVersion c' = 9
            ∧ migrationsApplied c' + migrationsNotApplied c'
              = migrationsApplied c + migrationsNotApplied c + 9
        | inr e =>
            migrationsDone c' = migrationsDone c
            ∧ migrationsRunning c' = migrationsRunning c
            ∧ migrationsVersion c' = migrationsVersion c
        end.
Proof.
  unfold migrateDatabase. unfold mbind, M_bind, bind, get.
  destruct (String.eqb_spec (OrchestratorURL c) "") as [E|E].
  - destruct (getHTTPBaseURL_spec "1.1.1.1:80" c w)
      as (c1 & w1 & r1 & -> & (Hu & HH & Hd & Hrun & Hv & Hor & Hoc) & Ha & Hn & _).
    destruct r1 as [base|e].
    2:{ right. eexists _, _, _. split; [done|]. repeat split; try done; lia. }
    unfold modify. cbv beta iota.
    pose proof (migrate_rest_spec (set_OrchestratorURL base c1) w1) as Hrest.
    cbv zeta in Hrest. unfold mbind, M_bind, bind in Hrest. cbv beta iota in Hrest.
    destruct Hrest as [[-> Hdone]|(c2 & w2 & r2 & -> & Hu2 & HH2 & Hor2 & Hoc2 & Ha2 & Hn2 & Hr2)].
    + left. split; [done|]. cbn in Hdone. congruence.
    + right. eexists _, _, _. split; [done|]. cbn in Hu2, HH2, Hor2, Hoc2, Ha2, Hn2, Hr2.
      split; [congruence|]. split; [congruence|]. split; [congruence|].
      split; [lia|]. split; [lia|]. split; [by intros ?|].
      destruct r2 as [[]|e2].
      * destruct Hr2 as (? & ? & ? & ? & ?). repeat split; try congruence; lia.
      * destruct Hr2 as (? & ? & ?). repeat split; congruence.
  - unfold ret. cbv beta iota.
    pose proof (migrate_rest_spec c w) as Hrest.
    cbv zeta in Hrest. unfold mbind, M_bind, bind in Hrest. cbv beta iota in Hrest.
    destruct Hrest as [[-> Hdone]|(c2 & w2 & r2 & -> & Hu2 & HH2 & Hor2 & Hoc2 & Ha2 & Hn2 & Hr2)].
    + by left.
    + right. eexists _, _, _. split; [done|]. repeat split; done.
Qed.

End MigrateFacts.

(** X11. When [migrateDatabase] returns nil, the channel [migrationsDone],
    which was open, is closed, the gauge [migrationsRunning] is 0, the
    gauge [migrationsVersion] is 9, the number of the steps, whether they
    were applied or skipped, and each of the nine steps has been counted
    once, as applied or as not applied. *)
Theorem migrate_success (W Err : Type) (O : @Outside W Err) (c c' : Component) (w w' : W) :
  migrateDatabase c w = Some (c', w', inl tt) →
  migrationsDone c = false ∧ migrationsDone c' = true
  ∧ migrationsRunning c' = 0 ∧ migrationsVersion c' = 9
  ∧ migrationsApplied c ≤ migrationsApplied c'
  ∧ migrationsNotApplied c ≤ migrationsNotApplied c'
  ∧ migrationsApplied c' + migrationsNotApplied c'
    = migrationsApplied c + migrationsNotApplied c + 9.
Proof.
  intros Hm. destruct (migrateDatabase_spec c w)
    as [[Hp _]|(c1 & w1 & r & Hr & _ & _ & _ & ? & ? & _ & Hres)]; [congruence|].
  rewrite Hm in Hr. injection Hr as <- <- <-. destruct Hres as (? & ? & ? & ? & ?). done.
Qed.

Lemma migrate_success_witness :
  let c' := (mkComponent "http://192.0.2.10:8080" "[::]:8080" true 0 9 6 3
               (match @migrateDatabase _ _ example_Outside example_Component example_partly with
                | Some (c', _, _) => log c'
                | None => []
                end) 0 0) in
  migrationsDone example_Component = false ∧ migrationsDone c' = true
  ∧ migrationsRunning c' = 0 ∧ migrationsVersion c' = 9
  ∧ migrationsApplied example_Component ≤ migrationsApplied c'
  ∧ migrationsNotApplied example_Component ≤ migrationsNotApplied c'
  ∧ migrationsApplied c' + migrationsNotApplied c'
    = migrationsApplied example_Component + migrationsNotApplied example_Component + 9.
Proof.
  intros c'.
  apply (migrate_success (list string) string example_Outside example_Component c'
           example_partly example_migrated).
  reflexivity.
Defined.

(** X12. When [migrateDatabase] returns an error, the channel
    [migrationsDone] is not closed and the gauges [migrationsRunning] and
    [migrationsVersion] are not set: they are as before the call. The
    steps applied before the error stay counted. *)
Theorem migrate_failure (W Err : Type) (O : @Outside W Err) (c c' : Component) (w w' : W)
    (e : migrationError) :
  migrateDatabase c w = Some (c', w', inr e) →
  migrationsDone c' = migrationsDone c
  ∧ migrationsRunning c' = migrationsRunning c
  ∧ migrationsVersion c' = migrationsVersion c
  ∧ migrationsApplied c ≤ migrationsApplied c'
  ∧ migrationsNotApplied c ≤ migrationsNotApplied c'.
Proof.
  intros Hm. destruct (migrateDatabase_spec c w)
    as [[Hp _]|(c1 & w1 & r & Hr & _ & _ & _ & ? & ? & _ & Hres)]; [congruence|].
  rewrite Hm in Hr. injection Hr as <- <- <-. destruct Hres as (? & ? & ?). done.
Qed.

Lemma migrate_failure_witness :
  let c' := (mkComponent "http://192.0.2.10:8080" "[::]:8080" false 1 0 0 0
               (match @migrateDatabase _ _ example_Outside example_Component ["read only"%string] with
                | Some (c', _, _) => log c'
                | None => []
                end) 0 0) in
  migrationsDone c' = migrationsDone example_Component
  ∧ migrationsRunning c' = migrationsRunning example_Component
  ∧ migrationsVersion c' = migrationsVersion example_Component
  ∧ migrationsApplied example_Component ≤ migrationsApplied c'
  ∧ migrationsNotApplied example_Component ≤ migrationsNotApplied c'.
Proof.
  intros c'.
  apply (migrate_failure (list string) string example_Outside example_Component c'
           ["read only"%string] ["read only"%string] (DuringMigrationStep "read only"%string)).
  reflexivity.
Defined.

(** X13. Whenever [migrateDatabase] returns, with nil or with an error,
    every row set it has got from a query and the connection it has
    opened are closed. *)
Theorem migrate_closes (W Err : Type) (O : @Outside W Err) (c c' : Component) (w w' : W)
    (r : unit + migrationError) :
  migrateDatabase c w = Some (c', w', r) →
  open_rows c' = open_rows c ∧ open_conns c' = open_conns c.
Proof.
  intros Hm. destruct (migrateDatabase_spec c w)
    as [[Hp _]|(c1 & w1 & r1 & Hr & _ & ? & ? & _)]; [congruence|].
  rewrite Hm in Hr. by injection Hr as <- <- <-.
Qed.

Lemma migrate_closes_witness :
  let c' := (mkComponent "http://192.0.2.10:8080" "[::]:8080" false 1 0 0 0
               (match @migrateDatabase _ _ example_Outside example_Component ["read only"%string] with
                | Some (c', _, _) => log c'
                | None => []
                end) 0 0) in
  open_rows c' = open_rows example_Component ∧ open_conns c' = open_conns example_Component.
Proof.
  intros c'.
  apply (migrate_closes (list string) string example_Outside example_Component c'
           ["read only"%string] ["read only"%string] (inr (DuringMigrationStep "read only"%string))).
  reflexivity.
Defined.

(** X14. [migrateDatabase] returns nil at most once for a component: once
    it has, the channel [migrationsDone] is closed, and another call
    returns an error or, when all its steps pass, panics on closing the
    channel again. *)
Theorem migrate_at_most_once (W Err : Type) (O : @Outside W Err) (c c' : Component) (w w' : W) :
  migrateDatabase c w = Some (c', w', inl tt) →
  ∀ w2, migrateDatabase c' w2 = None
        ∨ ∃ c2 w2' e, migrateDatabase c' w2 = Some (c2, w2', inr e).
Proof.
  intros Hm w2. destruct (migrateDatabase_spec c w)
    as [[Hp _]|(c1 & w1 & r & Hr & _ & _ & _ & _ & _ & _ & Hres)]; [congruence|].
  rewrite Hm in Hr. injection Hr as <- <- <-. destruct Hres as (_ & Hdone & _).
  destruct (migrateDatabase_spec c' w2)
    as [[Hp _]|(c2 & w2' & r & Hr & _ & _ & _ & _ & _ & _ & Hres)]; [by left|].
  right. destruct r as [[]|e]; [|by eauto]. destruct Hres as (? & _). congruence.
Qed.

Lemma migrate_at_most_once_witness :
  let c' := mkComponent "http://192.0.2.10:8080" "[::]:8080" true 0 9 6 3
              (match @migrateDatabase _ _ example_Outside example_Component example_partly with
               | Some (c', _, _) => log c'
               | None => []
               end) 0 0 in
  @migrateDatabase _ _ example_Outside c' example_migrated = None
  ∨ ∃ c2 w2' e, @migrateDatabase _ _ example_Outside c' example_migrated = Some (c2, w2', inr e).
Proof.
  intros c'.
  apply (migrate_at_most_once (list string) string example_Outside example_Component c'
           example_partly example_migrated).
  reflexivity.
Defined.

Section MigrateMore.
Context {W Err : Type} `{!@Outside W Err}.
Implicit Types (c : Component) (w : W).

Lemma Component_eta c :
  mkComponent (OrchestratorURL c) (HTTP_Address c) (migrationsDone c) (migrationsRunning c)
    (migrationsVersion c) (migrationsApplied c) (migrationsNotApplied c) (log c)
    (open_rows c) (open_conns c) = c.
Proof. by destruct c. Qed.

(** A step whose check returns a row that is not 0 is skipped. *)
Lemma migrate_step_skip d Step count c w :
  (∀ c0, ∃ v, v ≠ 0
     ∧ Query w (CheckQuery (Step c0)) (Args (Step c0)) = (w, inl (FirstRow (inl v)))) →
  ∃ c', migrate_step d Step count c w = Some (c', w, inl count)
    ∧ same_settings c c'
    ∧ migrationsApplied c' = migrationsApplied c
    ∧ migrationsNotApplied c' = migrationsNotApplied c + 1.
Proof.
  intros Hq. run_M. cbn.
  destruct (Hq (add_log {| level := Debug; step := Some d; msg := "checking migration step" |} c))
    as (v & Hv & ->). cbn.
  destruct (Z.eqb_spec v 0) as [|_]; [done|]. cbn.
  eexists. split; [done|]. by repeat split.
Qed.

Lemma migrate_steps_skip l count total c w :
  (∀ d Step c0, (d, Step) ∈ l → ∃ v, v ≠ 0
     ∧ Query w (CheckQuery (Step c0)) (Args (Step c0)) = (w, inl (FirstRow (inl v)))) →
  ∃ c', migrate_steps l count total c w = Some (c', w, inl (count, total + Z.of_nat (length l)))
    ∧ same_settings c c'
    ∧ migrationsApplied c' = migrationsApplied c
    ∧ migrationsNotApplied c' = migrationsNotApplied c + Z.of_nat (length l).
Proof.
  revert total c. induction l as [|[d Step] l IH]; intros total c Hq.
  - exists c. cbn. rewrite Z.add_0_r. split; [done|]. split; [apply same_settings_refl|]. lia.
  - cbn [migrate_steps]. unfold mbind, M_bind, bind.
    destruct (migrate_step_skip d Step count c w) as (c1 & -> & Hs1 & Ha1 & Hn1).
    { intros c0. apply (Hq d Step c0). by left. }
    destruct (IH (total + 1) c1) as (c2 & -> & Hs2 & Ha2 & Hn2).
    { intros d' Step' c0 Hin. apply (Hq d' Step' c0). by right. }
    exists c2. split; [do 4 f_equal; cbn [length]; lia|].
    split; [by eapply same_settings_trans|]. cbn [length]. lia.
Qed.

End MigrateMore.

(** X15. When the configuration has a URL of the orchestrator, the channel
    is open and the check of every step returns a row that is not 0
    without changing what is outside, [migrateDatabase] executes no step
    and returns nil: what is outside is as before, the nine steps are
    counted as not applied, and the last message is "no migration
    needed". *)
Theorem migrate_nothing_to_do (W Err : Type) (O : @Outside W Err) (c : Component) (w : W) :
  OrchestratorURL c ≠ EmptyString → migrationsDone c = false →
  (∀ d Step c0, (d, Step) ∈ steps → ∃ v, v ≠ 0
     ∧ Query w (CheckQuery (Step c0)) (Args (Step c0)) = (w, inl (FirstRow (inl v)))) →
  ∃ c', migrateDatabase c w = Some (c', w, inl tt)
    ∧ migrationsApplied c' = migrationsApplied c
    ∧ migrationsNotApplied c' = migrationsNotApplied c + 9
    ∧ last (log c') = Some (mkEntry Debug None "no migration needed").
Proof.
  intros Hurl Hdone Hq. unfold migrateDatabase. unfold mbind, M_bind, bind, get.
  destruct (String.eqb_spec (OrchestratorURL c) "") as [E|_]; [done|].
  unfold ret. cbv beta iota.
  destruct (migrate_steps_skip steps 0 0 c w Hq)
    as (c1 & -> & (_ & _ & Hd & _) & Ha & Hn).
  run_M. cbn. rewrite Hd, Hdone. eexists. split; [done|]. cbn.
  split; [done|]. split; [by rewrite Hn|]. by rewrite last_snoc.
Qed.

Lemma migrate_nothing_to_do_witness :
  let c := mkComponent "http://192.0.2.10:8080" "[::]:8080" false 1 0 0 0 [] 0 0 in
  ∃ c', @migrateDatabase _ _ example_Outside c example_migrated = Some (c', example_migrated, inl tt)
    ∧ migrationsApplied c' = migrationsApplied c
    ∧ migrationsNotApplied c' = migrationsNotApplied c + 9
    ∧ last (log c') = Some (mkEntry Debug None "no migration needed").
Proof.
  intros c. apply (migrate_nothing_to_do (list string) string example_Outside c example_migrated).
  - discriminate.
  - reflexivity.
  - intros d Step c0 Hin. exists 1. split; [lia|].
    unfold steps in Hin.
    repeat (apply elem_of_cons in Hin as [[= -> ->]|Hin]; [reflexivity|]).
    by apply elem_of_nil in Hin.
Defined.

(** X16. [migrateDatabase] leaves a URL of the orchestrator that is set as
    it is. When it is empty, [migrateDatabase] sets it to the base URL
    made of the local address of a connection to 1.1.1.1:80 and of the
    port of the HTTP component, before it examines any step; when this
    connection or this port cannot be had, it returns the error with the
    component as it was, without a query. *)
Theorem migrate_OrchestratorURL (W Err : Type) (O : @Outside W Err) (c : Component) (w : W) :
  (OrchestratorURL c ≠ EmptyString →
   ∀ c' w' r, migrateDatabase c w = Some (c', w', r) → OrchestratorURL c' = OrchestratorURL c)
  ∧ (OrchestratorURL c = EmptyString →
     ∀ w1 e, Dial w "udp" "1.1.1.1:80" = (w1, inr e) →
     migrateDatabase c w = Some (c, w1, inr (CannotGetIP e)))
  ∧ (OrchestratorURL c = EmptyString →
     ∀ w1 ip e, Dial w "udp" "1.1.1.1:80" = (w1, inl ip) →
     ipsock.SplitHostPort (HTTP_Address c) = inr e →
     migrateDatabase c w = Some (c, w1, inr (CannotGetHTTPPort e)))
  ∧ (OrchestratorURL c = EmptyString →
     ∀ w1 ip h port c' w' r, Dial w "udp" "1.1.1.1:80" = (w1, inl ip) →
     ipsock.SplitHostPort (HTTP_Address c) = inl (h, port) →
     migrateDatabase c w = Some (c', w', r) →
     OrchestratorURL c' = "http://" +:+ ipsock.JoinHostPort (IP_String ip) port).
Proof.
  split; [|split; [|split]].
  - intros Hurl c' w' r Hm.
    destruct (migrateDatabase_spec c w)
      as [[Hp _]|(c1 & w1 & r1 & Hr & _ & _ & _ & _ & _ & Hu & _)]; [congruence|].
    rewrite Hm in Hr. injection Hr as <- <- <-. auto.
  - intros Hurl w1 e Hdial. unfold migrateDatabase. unfold mbind, M_bind, bind, get.
    rewrite Hurl. cbn [String.eqb]. run_M. cbn. by rewrite Hdial.
  - intros Hurl w1 ip e Hdial Hsplit. unfold migrateDatabase. unfold mbind, M_bind, bind, get.
    rewrite Hurl. cbn [String.eqb]. run_M. cbn. rewrite Hdial. cbn. rewrite Hsplit. cbn.
    do 3 f_equal. unfold set_open_conns. cbn. apply Component_eta.
  - intros Hurl w1 ip h port c' w' r Hdial Hsplit.
    unfold migrateDatabase. unfold mbind, M_bind, bind, get.
    rewrite Hurl. cbn [String.eqb]. unfold getHTTPBaseURL, net_Dial, conn_Close, Msg.
    unfold mbind, M_bind, bind, get, outside, modify, ret. rewrite Hdial.
    cbn -[migrate_steps migrations_done]. rewrite Hsplit. cbn -[migrate_steps migrations_done].
    match goal with |- context [migrate_steps steps 0 0 ?c1 ?w1] =>
      destruct (migrate_steps_spec steps 0 0 c1 w1)
        as (c2 & w2 & r2 & -> & (Hu2 & _ & Hd2 & _) & _) end.
    cbn in Hu2. destruct r2 as [[count total]|e]; [|by intros [= <- _ _]].
    unfold migrations_done, close_migrationsDone, Msg.
    unfold mbind, M_bind, bind, get, modify, ret, panic.
    destruct (count =? 0); cbn; destruct (migrationsDone c2); cbn; try done;
      by intros [= <- _ _].
Qed.

Lemma migrate_OrchestratorURL_witness :
  let c := mkComponent "http://orchestrator:8080" "[::]:8080" false 1 0 0 0 [] 0 0 in
  let c' := match @migrateDatabase _ _ example_Outside c example_partly with
            | Some (c', _, _) => c'
            | None => c
            end in
  OrchestratorURL c' = "http://orchestrator:8080"%string.
Proof.
  intros c c'.
  apply (proj1 (migrate_OrchestratorURL (list string) string example_Outside c example_partly)
           ltac:(discriminate) c' example_migrated (inl tt)).
  vm_compute. reflexivity.
Defined.

(** X17. [getHTTPBaseURL] returns "http://" followed by the local address
    of the connection and by the port of the address of the HTTP
    component, the local address being in brackets when it has a colon;
    it logs this URL and closes the connection. For a local IPv4 address
    a.b.c.d the URL is http://a.b.c.d:port. When the address of the HTTP
    component has no colon, it returns the error of the missing port, and
    the connection is closed too. *)
Theorem getHTTPBaseURL_result (W Err : Type) (O : @Outside W Err)
    (address : string) (c : Component) (w w1 : W) (ip : IP) :
  Dial w "udp" address = (w1, inl ip) →
  (∀ h p, HTTP_Address c = ipsock.JoinHostPort h p →
     all is_host_char h = true → all is_port_char p = true →
     let base := "http://" +:+ ipsock.JoinHostPort (IP_String ip) p in
     getHTTPBaseURL address c w
     = Some (add_log (mkEntry Debug None ("detected base URL is " +:+ base)) c, w1, inl base))
  ∧ (∀ a b c d p, ip = [a; b; c; d] → is_byte a → is_byte b → is_byte c → is_byte d →
       ipsock.JoinHostPort (IP_String ip) p = string4 [a; b; c; d] +:+ ":" +:+ p)
  ∧ (all (λ x, negb (Ascii.eqb x ":")) (HTTP_Address c) = true →
     getHTTPBaseURL address c w
     = Some (c, w1, inr (CannotGetHTTPPort
                           (ipsock.mkAddrError "missing port in address" (HTTP_Address c))))).
Proof.
  intros Hdial. split; [|split].
  - intros h p HH Hh Hp base. run_M. cbn. rewrite Hdial. cbn.
    by rewrite HH, SplitHostPort_JoinHostPort by done.
  - intros a b c' d p -> Ha Hb Hc Hd. by apply JoinHostPort_IPv4.
  - intros Hno. run_M. cbn. rewrite Hdial. cbn. rewrite SplitHostPort_no_colon by done. cbn.
    do 3 f_equal. unfold set_open_conns. cbn. apply Component_eta.
Qed.

Lemma getHTTPBaseURL_result_witness :
  let base := "http://" +:+ ipsock.JoinHostPort (IP_String [192; 0; 2; 10]) "8080" in
  @getHTTPBaseURL _ _ example_Outside "1.1.1.1:80" example_Component []
  = Some (add_log (mkEntry Debug None ("detected base URL is " +:+ base)) example_Component,
          [], inl base).
Proof.
  apply (proj1 (getHTTPBaseURL_result (list string) string example_Outside "1.1.1.1:80"
                  example_Component [] [] [192; 0; 2; 10] eq_refl) "::"%string "8080"%string);
    reflexivity.
Defined.
